(** * BlockBenjamminGifs: a verification development

    Shallow embedding of [BlockBenjamminGifs.plugin.js] (version 1.1.0) and,
    where it differs, of the 1.0.0 revision of the same plugin.

    Strings are sequences of 8-bit characters; [toLowerCase] is the ASCII
    case mapping.  The [href] of an element is a string or, on an SVG link,
    an object, on which the two URL tests raise.  [BdApi.Data] is taken as a
    key-value store, with what it does on saving [undefined] left open.  DOM elements are heap objects named by natural numbers,
    their mutable state lives in a finite map, and the node tree is a rose
    tree of names.  A call that raises a [TypeError] yields [Threw] with the
    document at that point.

    A placeholder is one element: the markup its [innerHTML] receives is
    recorded as a template, and the listener of its [.btg-toggle] with the
    variables it closes over is kept with it; no selector of the plugin
    matches an element of either template.  The state is one node tree, the
    one the scanned elements live in; what is removed from it is not
    followed further. *)

From Stdlib Require Import Ascii String.
From stdpp Require Import base option list gmap strings.

Local Open Scope string_scope.
Local Open Scope list_scope.
Local Open Scope nat_scope.

(** ** JavaScript strings *)

Module Js.

(** [c.toLowerCase()] on one character. *)
Definition lower_char (c : ascii) : ascii :=
  let n := nat_of_ascii c in
  if (65 <=? n) && (n <=? 90) then ascii_of_nat (n + 32) else c.

(** [s.toLowerCase()]. *)
Fixpoint toLowerCase (s : string) : string :=
  match s with
  | EmptyString => EmptyString
  | String c r => String (lower_char c) (toLowerCase r)
  end.

(** [s.startsWith(p)]. *)
Fixpoint startsWith (s p : string) {struct p} : bool :=
  match p with
  | EmptyString => true
  | String a p' =>
      match s with
      | EmptyString => false
      | String b s' => if Ascii.eqb a b then startsWith s' p' else false
      end
  end.

(** [s.includes(p)]: [p] occurs in [s] at some position. *)
Fixpoint includes (s p : string) : bool :=
  startsWith s p ||
  match s with
  | EmptyString => false
  | String _ r => includes r p
  end.

(** Truthiness of a possibly absent string: [undefined], [null] and the
    empty string are falsy. *)
Definition truthy (v : option string) : bool :=
  match v with
  | Some (String _ _) => true
  | _ => false
  end.

(** [xs.some(f)]. *)
Definition some {A} (f : A -> bool) (xs : list A) : bool := existsb f xs.

End Js.

(** ** Static configuration *)

Definition BLOCKED_WORDS : list string := ["benjammin"].

Definition GIF_PATTERNS : list string :=
  [".gif"; "tenor.com"; "giphy.com"; "media.discordapp.net";
   "media.tenor.com"; "i.imgur.com"].

(** The two switches of [config.settings], read through [this.settings]. *)
Record settings := Settings {
  blockInPicker : bool;
  caseSensitive : bool
}.

Definition default_settings : settings :=
  {| blockInPicker := true; caseSensitive := false |}.

(** The plugin instance: [this.settings], whether [this.observer] is
    connected, and whether the style sheet is installed. *)
Record plugin := Plugin {
  cfg : settings;
  observer : bool;
  styled : bool
}.

(** ** Detection *)

(** [isGifUrl(url)]. *)
Definition isGifUrl (this : plugin) (url : option string) : bool :=
  if negb (Js.truthy url) then false
  else
    let lower := Js.toLowerCase (default "" url) in
    Js.some (fun p => Js.includes lower p) GIF_PATTERNS.

(** [isBlocked(url)], the same text in both revisions of the plugin. *)
Definition isBlocked (this : plugin) (url : option string) : bool :=
  if negb (Js.truthy url) then false
  else
    let u := default "" url in
    let haystack := if caseSensitive (cfg this) then u else Js.toLowerCase u in
    Js.some (fun word =>
               let needle := if caseSensitive (cfg this) then word
                             else Js.toLowerCase word in
               Js.includes haystack needle) BLOCKED_WORDS.

(** ** The node tree *)

(** The shape of a node tree: every node is the name of an element and the
    ordered list of its child elements. *)
#[warnings="-register-all"]
Inductive tree := Node (name : nat) (kids : list tree).

Definition root (t : tree) : nat := match t with Node n _ => n end.

(** The elements of the tree in document order. *)
Fixpoint names (t : tree) : list nat :=
  match t with Node n ks => n :: concat (map names ks) end.

(** [chain i t]: the element [i] followed by its ancestors, nearest first;
    empty when [i] is not in the tree. *)
Fixpoint chain (i : nat) (t : tree) : list nat :=
  match t with
  | Node n ks =>
      if n =? i then [n]
      else
        match (fix first ks :=
                 match ks with
                 | [] => []
                 | k :: r => match chain i k with [] => first r | c => c end
                 end) ks with
        | [] => []
        | c => c ++ [n]
        end
  end.

(** The subtree rooted at [i]. *)
Fixpoint subtree (i : nat) (t : tree) : option tree :=
  match t with
  | Node n ks =>
      if n =? i then Some t
      else (fix first ks :=
              match ks with
              | [] => None
              | k :: r => match subtree i k with Some s => Some s | None => first r end
              end) ks
  end.

(** The proper descendants of [i] in document order. *)
Definition descendants (i : nat) (t : tree) : list nat :=
  match subtree i t with
  | Some (Node _ ks) => concat (map names ks)
  | None => []
  end.

(** [p.appendChild(c)] for a new childless element [c]. *)
Fixpoint append_child (p c : nat) (t : tree) : tree :=
  match t with
  | Node n ks =>
      let ks' := map (append_child p c) ks in
      Node n (if n =? p then ks' ++ [Node c []] else ks')
  end.

(** [i.remove()]: detach [i] and its subtree from its parent; an element
    without a parent stays where it is. *)
Fixpoint prune (i : nat) (t : tree) : tree :=
  match t with
  | Node n ks =>
      Node n ((fix go ks :=
                 match ks with
                 | [] => []
                 | k :: r => if root k =? i then go r else prune i k :: go r
                 end) ks)
  end.

(** ** Elements *)

(** What [el.href] gives when it is defined: on an HTML element the URL
    the attribute resolves to, a string; on an SVG [<a>] an
    [SVGAnimatedString] object, whether the element has an [href] attribute
    or not. *)
Inductive href_value :=
  | Url (s : string)
  | Animated (has_attribute : bool).

#[global] Instance href_value_eq_dec : EqDecision href_value.
Proof. solve_decision. Defined.

(** What the host page fixes about an element and the plugin only reads. *)
Record attrs := Attrs {
  tag : string;                     (* local name, lower case *)
  cls : string;                     (* the class attribute *)
  ident : string;                   (* the id attribute *)
  isHTMLElement : bool;             (* instanceof HTMLElement *)
  src : option string;              (* el.src *)
  currentSrc : option string;       (* el.currentSrc *)
  href : option href_value;         (* el.href; a string iff the attribute is there *)
  dataOriginalSrc : option string   (* getAttribute("data-original-src") *)
}.

(** [el.dataset]: the four markers of the plugin. *)
Record dataset := Dataset {
  btgDone : option string;
  btgOwnerDone : option string;
  btgClickBlocked : option string;
  btgEmbed : option string
}.

(** The two inline style properties the plugin writes. *)
Record style := Style {
  display : string;
  pointerEvents : string
}.

(** The two [innerHTML] templates of a placeholder. *)
Inductive template := CompactCard | ChatCard.

(** Event listeners.  [Reveal] is the click handler of version 1.1.0 with
    the variables it closes over, [RevealOld] the one of version 1.0.0,
    [Swallow] is [e => e.stopPropagation()], and [Host h] stands for a
    bubble-phase handler [h] of the host page. *)
Inductive listener :=
  | Reveal (wrapper : nat) (owner : option nat) (inPicker : bool) (container : nat)
  | RevealOld (wrapper container : nat)
  | Swallow
  | Host (h : nat).

Record elem := Elem {
  at_ : attrs;
  data : dataset;
  css : style;
  inner : option template;                   (* markup set through innerHTML *)
  listeners : list (string * listener);      (* on the element itself *)
  toggle : list (string * listener)          (* on its [.btg-toggle] *)
}.

Definition no_data : dataset := Dataset None None None None.
Definition no_style : style := Style "" "".

(** An element as the host page creates it. *)
Definition host_elem (a : attrs) (ls : list (string * listener)) : elem :=
  Elem a no_data no_style None ls [].

Definition div_attrs : attrs := Attrs "div" "" "" true None None None None.

#[global] Instance elem_inhabited : Inhabited elem :=
  populate (host_elem div_attrs []).

Definition set_btgDone (v : option string) (e : elem) : elem :=
  Elem (at_ e)
       (Dataset v (btgOwnerDone (data e)) (btgClickBlocked (data e)) (btgEmbed (data e)))
       (css e) (inner e) (listeners e) (toggle e).

Definition set_btgOwnerDone (v : option string) (e : elem) : elem :=
  Elem (at_ e)
       (Dataset (btgDone (data e)) v (btgClickBlocked (data e)) (btgEmbed (data e)))
       (css e) (inner e) (listeners e) (toggle e).

Definition set_btgClickBlocked (v : option string) (e : elem) : elem :=
  Elem (at_ e)
       (Dataset (btgDone (data e)) (btgOwnerDone (data e)) v (btgEmbed (data e)))
       (css e) (inner e) (listeners e) (toggle e).

Definition set_display (v : string) (e : elem) : elem :=
  Elem (at_ e) (data e) (Style v (pointerEvents (css e)))
       (inner e) (listeners e) (toggle e).

Definition set_pointerEvents (v : string) (e : elem) : elem :=
  Elem (at_ e) (data e) (Style (display (css e)) v)
       (inner e) (listeners e) (toggle e).

(** ** The document *)

(** A node tree, the heap of its elements, and the next unused name. *)
Record dom := Dom {
  shape : tree;
  heap : gmap nat elem;
  next : nat
}.

Definition get (d : dom) (i : nat) : elem := heap d !!! i.

(** In-place update of the element [i]. *)
Definition modify (i : nat) (f : elem -> elem) (d : dom) : dom :=
  Dom (shape d) (<[i := f (get d i)]> (heap d)) (next d).

(** ** Selectors *)

Inductive data_key := KDone | KOwnerDone | KClickBlocked | KEmbed.

Inductive simple_selector :=
  | ClassContains (s : string)    (* [class*="s"] *)
  | IdStartsWith (s : string)     (* [id^="s"] *)
  | TagIs (s : string)            (* s *)
  | TagWithHref (s : string)      (* s[href] *)
  | HasData (k : data_key).       (* [data-btg-...] *)

(** A comma-separated selector list. *)
Definition selector := list simple_selector.

Definition read_data (k : data_key) (e : elem) : option string :=
  match k with
  | KDone => btgDone (data e)
  | KOwnerDone => btgOwnerDone (data e)
  | KClickBlocked => btgClickBlocked (data e)
  | KEmbed => btgEmbed (data e)
  end.

(** The element has an [href] attribute. *)
Definition has_href (h : option href_value) : bool :=
  match h with
  | Some (Url _) => true
  | Some (Animated b) => b
  | None => false
  end.

Definition matches1 (e : elem) (s : simple_selector) : bool :=
  match s with
  | ClassContains x => Js.includes (cls (at_ e)) x
  | IdStartsWith x => Js.startsWith (ident (at_ e)) x
  | TagIs x => String.eqb (tag (at_ e)) x
  | TagWithHref x => String.eqb (tag (at_ e)) x && has_href (href (at_ e))
  | HasData k => bool_decide (is_Some (read_data k e))
  end.

(** [el.matches(sel)]. *)
Definition matches (sel : selector) (e : elem) : bool := existsb (matches1 e) sel.

(** [el.closest(sel)]: the first of [el] and its ancestors that matches. *)
Definition closest (d : dom) (sel : selector) (el : nat) : option nat :=
  find (fun j => matches sel (get d j)) (chain el (shape d)).

(** [el.parentElement]. *)
Definition parentElement (d : dom) (el : nat) : option nat :=
  match chain el (shape d) with
  | _ :: p :: _ => Some p
  | _ => None
  end.

(** [el.querySelectorAll(sel)]. *)
Definition querySelectorAll (d : dom) (sel : selector) (el : nat) : list nat :=
  filter (fun j => matches sel (get d j) = true) (descendants el (shape d)).

(** [document.querySelectorAll(sel)]. *)
Definition document_querySelectorAll (d : dom) (sel : selector) : list nat :=
  filter (fun j => matches sel (get d j) = true) (names (shape d)).

(** [a ?? b]. *)
Definition nullish {A} (a b : option A) : option A :=
  match a with Some x => Some x | None => b end.
Infix "??" := nullish (at level 61, left associativity).

(** ** Element resolver *)

Definition sel_class (x : string) : selector := [ClassContains x].

(** [isInGifPicker(el)]. *)
Definition isInGifPicker (this : plugin) (d : dom) (el : nat) : bool :=
  bool_decide (is_Some (closest d (sel_class "results__") el))
  || bool_decide (is_Some (closest d (sel_class "gifPicker") el))
  || bool_decide (is_Some (closest d (sel_class "categoryList") el)).

(** [getOwnerNode(el, inPicker)]. *)
Definition getOwnerNode (this : plugin) (d : dom) (el : nat) (inPicker : bool)
  : option nat :=
  if inPicker then
    closest d (sel_class "result__") el ?? parentElement d el
  else
    closest d (sel_class "imageWrapper") el ??
    closest d (sel_class "embedWrapper") el ??
    closest d [TagIs "article"] el ??
    closest d [IdStartsWith "message-accessories"] el ??
    parentElement d el.

(** ** DOM processing *)

(** A call either returns or raises a [TypeError]; both leave a document. *)
Inductive outcome := Returned (d : dom) | Threw (d : dom).

Definition state_of (o : outcome) : dom :=
  match o with Returned d | Threw d => d end.

(** [new Set(xs)] as the list of its members in insertion order. *)
Definition set_add {A} `{EqDecision A} (x : A) (l : list A) : list A :=
  if bool_decide (x ∈ l) then l else l ++ [x].

Definition new_Set {A} `{EqDecision A} (xs : list A) : list A :=
  fold_left (fun acc x => set_add x acc) xs [].

(** [xs.forEach(f)] for an [f] that may raise. *)
Fixpoint forEach (f : dom -> nat -> outcome) (xs : list nat) (d : dom) : outcome :=
  match xs with
  | [] => Returned d
  | x :: r =>
      match f d x with
      | Returned d' => forEach f r d'
      | Threw d' => Threw d'
      end
  end.

Definition sel_candidate : selector := [TagIs "img"; TagIs "video"; TagWithHref "a"].
Definition sel_wrapper : selector := [ClassContains "imageWrapper"; ClassContains "embedMedia"].
Definition sel_wrapper_clear : selector :=
  [ClassContains "imageWrapper"; ClassContains "gifFavorite"; ClassContains "embedMedia"].
Definition sel_accessories : selector := [IdStartsWith "message-accessories"].

Definition hover_events : list string :=
  ["mouseover"; "mouseenter"; "mousemove"; "mouseout"; "mouseleave"].

(** The placeholder built by [hideAndEmbed]: a [div] carrying
    [data-btg-embed], the class [btg-compact] in the picker, one of the two
    templates, the click listener on its toggle and, in the picker, the
    listeners that swallow hover events. *)
Definition embed_elem (wrapper : nat) (owner : option nat) (inPicker : bool)
    (container : nat) : elem :=
  Elem (Attrs "div" (if inPicker then "btg-compact" else "") "" true
              None None None None)
       (Dataset None None None (Some "1"))
       no_style
       (Some (if inPicker then CompactCard else ChatCard))
       (if inPicker then map (fun evt => (evt, Swallow)) hover_events else [])
       [("click", Reveal wrapper owner inPicker container)].

(** [document.createElement]: a new element outside the tree. *)
Definition createElement (e : elem) (d : dom) : nat * dom :=
  (next d, Dom (shape d) (<[next d := e]> (heap d)) (S (next d))).

(** [target.appendChild(c)]; raises when [target] is [null]. *)
Definition appendChild (target : option nat) (c : nat) (d : dom) : outcome :=
  match target with
  | Some p => Returned (Dom (append_child p c (shape d)) (heap d) (next d))
  | None => Threw d
  end.

(** [hideAndEmbed(el, inPicker, owner)]. *)
Definition hideAndEmbed (this : plugin) (d : dom) (el : nat) (inPicker : bool)
    (owner : option nat) : outcome :=
  let wrapper := if inPicker then el
                 else default el (closest d sel_wrapper el) in
  let insertTarget :=
    if inPicker then owner ?? parentElement d el
    else closest d sel_accessories wrapper ?? parentElement d wrapper in
  let d := modify wrapper (set_display "none") d in
  let d :=
    match inPicker, owner with
    | true, Some o =>
        modify o (set_pointerEvents "none")
               (modify o (set_btgClickBlocked (Some "1")) d)
    | _, _ => d
    end in
  let '(container, d) :=
    createElement (embed_elem wrapper owner inPicker (next d)) d in
  appendChild insertTarget container d.

(** A value that [processElement] collects: a string, or the
    [SVGAnimatedString] object that is the [href] of the element [x]. *)
Inductive url_value :=
  | UStr (s : string)
  | UObj (x : nat).

#[global] Instance url_value_eq_dec : EqDecision url_value.
Proof. solve_decision. Defined.

(** [x.href] as a collected value, [undefined] as [None]. *)
Definition href_of (x : nat) (h : option href_value) : option url_value :=
  match h with
  | Some (Url s) => Some (UStr s)
  | Some (Animated _) => Some (UObj x)
  | None => None
  end.

(** [Boolean(v)]: an object is truthy, a string unless it is empty. *)
Definition truthy_value (v : url_value) : bool :=
  match v with
  | UStr s => Js.truthy (Some s)
  | UObj _ => true
  end.

(** The five values that [processElement] reads for [el], in order. *)
Definition url_sources (d : dom) (el : nat) : list (option url_value) :=
  let e := get d el in
  [UStr <$> src (at_ e); UStr <$> currentSrc (at_ e); href_of el (href (at_ e));
   UStr <$> dataOriginalSrc (at_ e);
   closest d [TagIs "a"] el ≫= (fun a => href_of a (href (at_ (get d a))))].

(** [xs.filter(Boolean)], [undefined] dropped as well. *)
Definition filter_Boolean (xs : list (option url_value)) : list url_value :=
  omap (fun v => v ≫= (fun u => if truthy_value u then Some u else None)) xs.

(** The URLs collected by [processElement]. *)
Definition urls_of (d : dom) (el : nat) : list url_value :=
  new_Set (filter_Boolean (url_sources d el)).

(** [isGifUrl(u)] for a truthy [u]: on an object [url.toLowerCase] is no
    function and the call raises ([None]). *)
Definition isGifUrl_of (this : plugin) (u : url_value) : option bool :=
  match u with
  | UStr s => Some (isGifUrl this (Some s))
  | UObj _ => None
  end.

(** [isBlocked(u)] for a truthy [u]: on an object either [url.toLowerCase]
    or, for the first blocked word, [haystack.includes] is no function. *)
Definition isBlocked_of (this : plugin) (u : url_value) : option bool :=
  match u with
  | UStr s => Some (isBlocked this (Some s))
  | UObj _ =>
      if caseSensitive (cfg this)
      then match BLOCKED_WORDS with [] => Some false | _ :: _ => None end
      else None
  end.

(** [xs.some(f)] for an [f] that may raise: the first [true] ends the
    search, and so does the first call that raises. *)
Fixpoint some_raising {A} (f : A -> option bool) (xs : list A) : option bool :=
  match xs with
  | [] => Some false
  | x :: r =>
      match f x with
      | Some true => Some true
      | Some false => some_raising f r
      | None => None
      end
  end.

(** [processElement(el)]. *)
Definition processElement (this : plugin) (d : dom) (el : nat) : outcome :=
  if Js.truthy (btgDone (data (get d el))) then Returned d else
  let urls := urls_of d el in
  match some_raising (isGifUrl_of this) urls with
  | None => Threw d
  | Some false => Returned d
  | Some true =>
  match some_raising (isBlocked_of this) urls with
  | None => Threw d
  | Some false => Returned d
  | Some true =>
  let inPicker := isInGifPicker this d el in
  if inPicker && negb (blockInPicker (cfg this)) then Returned d else
  let d := modify el (set_btgDone (Some "1")) d in
  let owner := getOwnerNode this d el inPicker in
  if Js.truthy (owner ≫= (fun o => btgOwnerDone (data (get d o)))) then
    if inPicker then Returned (modify el (set_display "none") d)
    else
      let w := default el (closest d sel_wrapper el) in
      Returned (modify w (set_display "none") d)
  else
    let d := match owner with
             | Some o => modify o (set_btgOwnerDone (Some "1")) d
             | None => d
             end in
    hideAndEmbed this d el inPicker owner
  end
  end.

(** [processContainer(container)]. *)
Definition processContainer (this : plugin) (d : dom) (container : nat) : outcome :=
  if negb (isHTMLElement (at_ (get d container))) then Returned d else
  let seen := if matches sel_candidate (get d container) then set_add container [] else [] in
  let seen := fold_left (fun acc el => set_add el acc)
                        (querySelectorAll d sel_candidate container) seen in
  forEach (processElement this) seen d.

(** ** The reveal control and event dispatch *)

(** [e.remove()]. *)
Definition remove (i : nat) (d : dom) : dom :=
  Dom (prune i (shape d)) (heap d) (next d).

(** The body of the click listener of version 1.1.0, after
    [e.stopPropagation()]. *)
Definition reveal (wrapper : nat) (owner : option nat) (inPicker : bool)
    (container : nat) (d : dom) : dom :=
  let d := modify wrapper (set_display "") d in
  let d := fold_left (fun d child => modify child (set_display "") d)
                     (querySelectorAll d [HasData KDone] wrapper) d in
  let d := match owner with
           | Some o => modify o (set_btgOwnerDone None) d
           | None => d
           end in
  let d := remove container d in
  match inPicker, owner with
  | true, Some o =>
      modify o (set_btgClickBlocked None) (modify o (set_pointerEvents "") d)
  | _, _ => d
  end.

(** Running one listener: the new document, whether it stopped the
    propagation, and the host handlers it ran. *)
Definition fire (l : listener) (d : dom) : dom * bool * list nat :=
  match l with
  | Reveal w o pk c => (reveal w o pk c d, true, [])
  | RevealOld w c => (remove c (modify w (set_display "") d), false, [])
  | Swallow => (d, true, [])
  | Host h => (d, false, [h])
  end.

(** All listeners of one element for the event [evt], in order. *)
Fixpoint run_listeners (evt : string) (ls : list (string * listener)) (d : dom)
  : dom * bool * list nat :=
  match ls with
  | [] => (d, false, [])
  | (t, l) :: r =>
      if String.eqb t evt then
        let '(d1, s1, h1) := fire l d in
        let '(d2, s2, h2) := run_listeners evt r d1 in
        (d2, s1 || s2, h1 ++ h2)
      else run_listeners evt r d
  end.

(** The bubble phase along [path], halted once a listener has stopped the
    propagation. *)
Fixpoint bubble (evt : string) (path : list nat) (d : dom) : dom * list nat :=
  match path with
  | [] => (d, [])
  | n :: r =>
      let '(d1, s, h) := run_listeners evt (listeners (get d n)) d in
      if s then (d1, h)
      else let '(d2, h2) := bubble evt r d1 in (d2, h ++ h2)
  end.

(** A click on the [.btg-toggle] of the placeholder [c]: the listeners of the
    toggle, then those of [c] and of its ancestors.  The elements of the
    template between the toggle and [c] carry no listener.  The result is
    the document and the host handlers that ran. *)
Definition click_toggle (d : dom) (c : nat) : dom * list nat :=
  match inner (get d c) with
  | None => (d, [])
  | Some _ =>
      let path := chain c (shape d) in
      let '(d1, s, h) := run_listeners "click" (toggle (get d c)) d in
      if s then (d1, h)
      else let '(d2, h2) := bubble "click" path d1 in (d2, h ++ h2)
  end.

(** ** Clearing, rescan and lifecycle *)

(** The clearing phase shared by [rescan()] and [stop()]. *)
Definition clearAll (d : dom) : dom :=
  let d := fold_left (fun d e => remove e d)
                     (document_querySelectorAll d [HasData KEmbed]) d in
  let d := fold_left
             (fun d el =>
                let d := modify el (set_display "") d in
                let d := modify el (set_btgDone None) d in
                match closest d sel_wrapper_clear el with
                | Some w => modify w (set_display "") d
                | None => d
                end)
             (document_querySelectorAll d [HasData KDone]) d in
  let d := fold_left (fun d el => modify el (set_btgOwnerDone None) d)
                     (document_querySelectorAll d [HasData KOwnerDone]) d in
  fold_left (fun d el =>
               modify el (set_btgClickBlocked None)
                      (modify el (set_pointerEvents "") d))
            (document_querySelectorAll d [HasData KClickBlocked]) d.

(** [document.body]: the [body] child of the root element, if any. *)
Definition document_body (d : dom) : option nat :=
  match shape d with
  | Node _ ks => find (fun j => String.eqb (tag (at_ (get d j))) "body") (map root ks)
  end.

(** [processContainer(document.body)]; [null] is not an [HTMLElement]. *)
Definition scan_body (this : plugin) (d : dom) : outcome :=
  match document_body d with
  | Some b => processContainer this d b
  | None => Returned d
  end.

(** [rescan()]. *)
Definition rescan (this : plugin) (d : dom) : outcome :=
  scan_body this (clearAll d).

(** [start()]: styles, one full scan, then the observer.  A scan that raises
    leaves [this.observer] as it was.  After a scan that returns,
    [this.observer] is a new observer; [observe(document.body, ...)]
    connects it, or raises when [document.body] is [null], and the new
    observer then observes nothing. *)
Definition start (this : plugin) (d : dom) : plugin * outcome :=
  match scan_body this d with
  | Returned d' =>
      match document_body d' with
      | Some _ => (Plugin (cfg this) true true, Returned d')
      | None => (Plugin (cfg this) false true, Threw d')
      end
  | Threw d' => (Plugin (cfg this) (observer this) true, Threw d')
  end.

(** [stop()]. *)
Definition stop (this : plugin) (d : dom) : plugin * dom :=
  (Plugin (cfg this) false false, clearAll d).

(** ** Sessions *)

(** What can happen to a document while the plugin is installed: the host
    loads or unloads the plugin, the host page appends a new element or
    removes one, the connected observer scans an element of the document,
    the user clicks the reveal control of an element of the document, a
    switch of the settings panel is changed (which rescans). *)
Inductive action :=
  | Start
  | Stop
  | HostAppend (parent : nat) (a : attrs) (ls : list (string * listener))
  | HostRemove (e : nat)
  | Scan (container : nat)
  | Click (placeholder : nat)
  | ChangeSettings (s : settings).

(** The listeners of the host page are its own. *)
Definition host_listener (l : string * listener) : bool :=
  match l.2 with Host _ => true | _ => false end.

Definition step (st : plugin * dom) (a : action) : plugin * dom :=
  let '(this, d) := st in
  match a with
  | Start => let '(this, o) := start this d in (this, state_of o)
  | Stop => stop this d
  | HostAppend p a ls =>
      if bool_decide (p ∈ names (shape d)) then
        let '(c, d) :=
          createElement
            (host_elem a (filter (fun l => host_listener l = true) ls)) d in
        (this, state_of (appendChild (Some p) c d))
      else (this, d)
  | HostRemove e => (this, remove e d)
  | Scan c =>
      if observer this && bool_decide (c ∈ names (shape d))
      then (this, state_of (processContainer this d c))
      else (this, d)
  | Click c =>
      if bool_decide (c ∈ names (shape d)) then (this, (click_toggle d c).1)
      else (this, d)
  | ChangeSettings s =>
      let this := Plugin s (observer this) (styled this) in
      (this, state_of (rescan this d))
  end.

Definition run (st : plugin * dom) (acts : list action) : plugin * dom :=
  fold_left step acts st.

(** ** Version 1.0.0 *)

Module V100.

(** [hideAndEmbed(el)] of the 1.0.0 revision. *)
Definition hideAndEmbed (this : plugin) (d : dom) (el : nat) : outcome :=
  let wrapper := default el (closest d sel_wrapper_clear el) in
  let insertTarget :=
    closest d sel_accessories wrapper ?? parentElement d wrapper in
  let d := modify wrapper (set_display "none") d in
  let '(container, d) :=
    createElement
      (Elem div_attrs (Dataset None None None (Some "1")) no_style
            (Some ChatCard) [] [("click", RevealOld wrapper (next d))]) d in
  appendChild insertTarget container d.

(** [processElement(el)] of the 1.0.0 revision. *)
Definition processElement (this : plugin) (d : dom) (el : nat) : outcome :=
  if Js.truthy (btgDone (data (get d el))) then Returned d else
  let urls := filter_Boolean (url_sources d el) in
  match some_raising (isGifUrl_of this) urls with
  | None => Threw d
  | Some false => Returned d
  | Some true =>
  match some_raising (isBlocked_of this) urls with
  | None => Threw d
  | Some false => Returned d
  | Some true => hideAndEmbed this (modify el (set_btgDone (Some "1")) d) el
  end
  end.

(** [processContainer(container)] of the 1.0.0 revision. *)
Definition processContainer (this : plugin) (d : dom) (container : nat) : outcome :=
  if negb (isHTMLElement (at_ (get d container))) then Returned d else
  let candidates :=
    (if matches [TagIs "img"; TagIs "video"; TagIs "a"] (get d container)
     then [container] else [])
    ++ querySelectorAll d sel_candidate container in
  forEach (processElement this) candidates d.

End V100.

(** ** Sample documents *)

Module Sample.

Definition gif : string := "https://media.tenor.com/abc/benjammin-dance.gif".

Definition el (t c i : string) (s h : option string) : elem :=
  host_elem (Attrs t c i true s None (Url <$> h) None) [].

Definition this : plugin := Plugin default_settings false false.

(** A chat message whose image sits in an image wrapper that also holds a
    favourite-button layer around it. *)
Definition favorite_doc : dom :=
  Dom (Node 0 [Node 1 [Node 2 [Node 3 [Node 4 [Node 5 []]]]]])
      (list_to_map
         [(0, el "html" "" "" None None);
          (1, el "body" "" "" None None);
          (2, el "div" "" "message-accessories-1" None None);
          (3, el "div" "imageWrapper_a" "" None None);
          (4, el "div" "gifFavoriteButton_b" "" None None);
          (5, el "img" "" "" (Some gif) None)])
      6.

(** The same message without the favourite layer. *)
Definition chat_doc : dom :=
  Dom (Node 0 [Node 1 [Node 2 [Node 3 [Node 4 []]]]])
      (list_to_map
         [(0, el "html" "" "" None None);
          (1, el "body" "" "" None None);
          (2, el "div" "" "message-accessories-1" None None);
          (3, el "div" "imageWrapper_a" "" None None);
          (4, el "img" "" "" (Some gif) None)])
      5.

(** An image that is not attached to any parent, as an added node is
    once the host has taken it out of the document again. *)
Definition detached_img : dom :=
  Dom (Node 0 []) (list_to_map [(0, el "img" "" "" (Some gif) None)]) 1.

(** A result tile of the picker. *)
Definition picker_doc : dom :=
  Dom (Node 0 [Node 1 [Node 2 [Node 3 [Node 4 []]]]])
      (list_to_map
         [(0, el "html" "" "" None None);
          (1, el "body" "" "" None None);
          (2, el "div" "gifPicker_x" "" None None);
          (3, el "div" "result__y" "" None None);
          (4, el "img" "" "" (Some gif) None)])
      5.

(** A chat message whose accessories container has a click handler of the
    host page (7). *)
Definition handled_doc : dom :=
  Dom (Node 0 [Node 1 [Node 2 [Node 3 [Node 4 []]]]])
      (list_to_map
         [(0, el "html" "" "" None None);
          (1, el "body" "" "" None None);
          (2, host_elem (Attrs "div" "" "message-accessories-1" true
                               None None None None)
                        [("click", Host 7)]);
          (3, el "div" "imageWrapper_a" "" None None);
          (4, el "img" "" "" (Some gif) None)])
      5.

(** An image wrapper with two blocked images that is attached to no
    parent, as an added subtree is once the host has taken it out of the
    document again. *)
Definition detached_wrapper : dom :=
  Dom (Node 0 [Node 1 []; Node 2 []])
      (list_to_map
         [(0, el "div" "imageWrapper_a" "" None None);
          (1, el "img" "" "" (Some gif) None);
          (2, el "img" "" "" (Some gif) None)])
      3.

(** A link (3) whose own class carries the image-wrapper and the result-tile
    marker, inside an element (2) that carries them as well. *)
Definition marked_link_doc : dom :=
  Dom (Node 0 [Node 1 [Node 2 [Node 3 []]]])
      (list_to_map
         [(0, el "html" "" "" None None);
          (1, el "body" "" "" None None);
          (2, el "div" "imageWrapper_outer result__outer" "" None None);
          (3, el "a" "imageWrapper_inner result__x" "" None (Some gif))])
      4.

(** A document that has no body. *)
Definition bodiless_doc : dom :=
  Dom (Node 0 []) (list_to_map [(0, el "html" "" "" None None)]) 1.

(** An SVG link (3) in a chat message: its [href] is an object. *)
Definition svg_link_doc : dom :=
  Dom (Node 0 [Node 1 [Node 2 [Node 3 []]]])
      (list_to_map
         [(0, el "html" "" "" None None);
          (1, el "body" "" "" None None);
          (2, host_elem (Attrs "svg" "" "" false None None None None) []);
          (3, host_elem (Attrs "a" "" "" false None None
                               (Some (Animated true)) None) [])])
      4.

(** The documents the scans of the samples produce. *)
Definition detached_once : dom :=
  state_of (processContainer this detached_wrapper 0).
Definition detached_twice : dom :=
  state_of (processContainer this detached_once 0).
Definition favorite_scanned : dom := state_of (start this favorite_doc).2.
Definition handled_old : dom := state_of (V100.processContainer this handled_doc 1).
Definition handled_new : dom := state_of (processContainer this handled_doc 1).

(** A session on [favorite_doc]: the plugin starts, the host adds a second
    image (7) to the wrapper, the observer scans it, the user reveals the
    placeholder (6), a setting is changed, the host removes the image. *)
Definition session : list action :=
  [Start;
   HostAppend 3 (Attrs "img" "" "" true (Some gif) None None None) [];
   Scan 7; Click 6; ChangeSettings default_settings; HostRemove 7].

End Sample.

(** ** Vocabulary of the specification *)

(** [p] occurs in [s] as a substring. *)
Definition substring_of (p s : string) : Prop :=
  exists pre post, s = pre +:+ p +:+ post.

(** Case normalisation per the [caseSensitive] setting. *)
Definition normalize (this : plugin) (s : string) : string :=
  if caseSensitive (cfg this) then s else Js.toLowerCase s.

(** The claim's words, "the nearest ancestor matching [sel]": the first
    match among the ancestors of [el], of which [el] itself is none. *)
Definition nearest_ancestor (d : dom) (sel : selector) (el : nat) : option nat :=
  find (fun j => matches sel (get d j)) (tail (chain el (shape d))).

(** The owner of an element as the claim words it, with nearest ancestors. *)
Definition claimed_owner (d : dom) (el : nat) (inPicker : bool) : option nat :=
  if inPicker then
    nearest_ancestor d [ClassContains "result__"] el ?? parentElement d el
  else
    nearest_ancestor d [ClassContains "imageWrapper"] el ??
    nearest_ancestor d [ClassContains "embedWrapper"] el ??
    nearest_ancestor d [TagIs "article"] el ??
    nearest_ancestor d [IdStartsWith "message-accessories"] el ??
    parentElement d el.

(** The amended wording: [a] is the nearest element matching [sel] among
    [el] itself and its ancestors (the sense of [Element.closest]). *)
Definition nearest (d : dom) (sel : selector) (el a : nat) : Prop :=
  exists before after,
    chain el (shape d) = before ++ a :: after
    /\ matches sel (get d a) = true
    /\ Forall (fun x => matches sel (get d x) = false) before.

(** The searches through a list of children that [chain], [subtree] and
    [prune] make. *)
Definition chain_kids (i : nat) : list tree -> list nat :=
  fix first ks :=
    match ks with
    | [] => []
    | k :: r => match chain i k with [] => first r | c => c end
    end.

Definition subtree_kids (i : nat) : list tree -> option tree :=
  fix first ks :=
    match ks with
    | [] => None
    | k :: r => match subtree i k with Some s => Some s | None => first r end
    end.

Definition prune_kids (i : nat) : list tree -> list tree :=
  fix go ks :=
    match ks with
    | [] => []
    | k :: r => if root k =? i then go r else prune i k :: go r
    end.

(** A well-formed document: no element occurs twice in the tree, and the
    names in the tree have all been handed out. *)
Definition wf (d : dom) : Prop :=
  NoDup (names (shape d)) /\ Forall (fun x => x < next d) (names (shape d)).

(** Selectors that read only what the host page fixed about an element. *)
Definition static1 (s : simple_selector) : bool :=
  match s with HasData _ => false | _ => true end.

Definition static (sel : selector) : bool := forallb static1 sel.

(** A test of [processElement] returned [true]. *)
Definition holds (r : option bool) : bool :=
  match r with Some true => true | _ => false end.

(** [processElement] does not get past its four guards: it returns at one
    of them, or one of the two URL tests raises. *)
Definition skips (this : plugin) (d : dom) (el : nat) : bool :=
  Js.truthy (btgDone (data (get d el)))
  || negb (holds (some_raising (isGifUrl_of this) (urls_of d el)))
  || negb (holds (some_raising (isBlocked_of this) (urls_of d el)))
  || (isInGifPicker this d el && negb (blockInPicker (cfg this))).

(** [processElement] raises in one of its two URL tests. *)
Definition raises (this : plugin) (d : dom) (el : nat) : bool :=
  negb (Js.truthy (btgDone (data (get d el))))
  && match some_raising (isGifUrl_of this) (urls_of d el) with
     | None => true
     | Some false => false
     | Some true =>
         match some_raising (isBlocked_of this) (urls_of d el) with
         | None => true
         | Some _ => false
         end
     end.

(** An update of an element that leaves its host attributes alone and does
    not take a processed marker away. *)
Definition cosmetic (f : elem -> elem) : Prop :=
  forall e, at_ (f e) = at_ e
            /\ (Js.truthy (btgDone (data e)) = true ->
                Js.truthy (btgDone (data (f e))) = true).

(** [d'] is a later state of the document [d]: the elements of [d] keep
    their host attributes and processed markers, those still in the tree
    keep their chain of ancestors, and the elements that have entered the
    tree since are no scan candidates. *)
Definition later (d d' : dom) : Prop :=
  next d <= next d'
  /\ (forall y, y < next d -> at_ (get d' y) = at_ (get d y))
  /\ (forall y, y < next d ->
        Js.truthy (btgDone (data (get d y))) = true ->
        Js.truthy (btgDone (data (get d' y))) = true)
  /\ (forall x, x ∈ names (shape d') -> x < next d ->
        x ∈ names (shape d) /\ chain x (shape d') = chain x (shape d))
  /\ (forall x, x ∈ names (shape d') -> next d <= x ->
        matches sel_candidate (get d' x) = false).

(** The members of [seen] in [processContainer], in insertion order. *)
Definition candidates (d : dom) (container : nat) : list nat :=
  fold_left (fun acc el => set_add el acc)
            (querySelectorAll d sel_candidate container)
            (if matches sel_candidate (get d container)
             then set_add container [] else []).

(** The owner that the reveal listener of a placeholder closes over. *)
Fixpoint reveal_owner (ls : list (string * listener)) : option nat :=
  match ls with
  | [] => None
  | (_, Reveal _ o _ _) :: _ => o
  | _ :: r => reveal_owner r
  end.

Definition owner_at (d : dom) (e : nat) : option nat :=
  reveal_owner (toggle (get d e)).

(** The placeholders in the document that the plugin built for the owner
    [o]. *)
Definition placeholders_of (d : dom) (o : nat) : list nat :=
  filter (fun e => is_Some (btgEmbed (data (get d e))) /\ owner_at d e = Some o)
         (names (shape d)).

(** Listeners that do not change the document. *)
Definition benign (l : string * listener) : Prop :=
  match l.2 with Host _ | Swallow => True | _ => False end.

(** A document as the host page alone made it: well formed, no reveal
    control, no listener of the plugin. *)
Definition pristine (d : dom) : Prop :=
  wf d
  /\ forall e, e ∈ names (shape d) ->
       toggle (get d e) = [] /\ Forall benign (listeners (get d e)).

(** The element [e] is a placeholder as [hideAndEmbed] builds them: not the
    root, tagged, with the reveal listener on its toggle, which removes [e]
    itself, and with its owner, if any, marked. *)
Definition genuine (d : dom) (e : nat) : Prop :=
  e <> root (shape d)
  /\ is_Some (btgEmbed (data (get d e)))
  /\ exists w o pk,
       toggle (get d e) = [("click", Reveal w o pk e)]
       /\ forall o', o = Some o' ->
            o' < next d /\ Js.truthy (btgOwnerDone (data (get d o'))) = true.

(** An element that may enter the document [d] under the name [next d]:
    its listeners are benign, and either it has no reveal control or it is
    a placeholder for an owner that is marked and has no placeholder yet. *)
Definition admissible (d : dom) (e : elem) : Prop :=
  Forall benign (listeners e)
  /\ (toggle e = []
      \/ (is_Some (btgEmbed (data e))
          /\ exists w o pk,
               toggle e = [("click", Reveal w o pk (next d))]
               /\ forall o', o = Some o' ->
                    o' < next d
                    /\ Js.truthy (btgOwnerDone (data (get d o'))) = true
                    /\ forall x, x ∈ names (shape d) -> owner_at d x <> Some o')).

(** The invariant of a session. *)
Definition session_inv (d : dom) : Prop :=
  wf d
  /\ (forall e, e ∈ names (shape d) -> Forall benign (listeners (get d e)))
  /\ (forall e, e ∈ names (shape d) -> toggle (get d e) = [] \/ genuine d e)
  /\ (forall e1 e2 o, e1 ∈ names (shape d) -> e2 ∈ names (shape d) ->
        owner_at d e1 = Some o -> owner_at d e2 = Some o -> e1 = e2).

(** What the invariant reads of an element besides the owner marker. *)
Definition fixed (e : elem) : attrs * list (string * listener)
                              * list (string * listener) * option string
                              * option template :=
  (at_ e, toggle e, listeners e, btgEmbed (data e), inner e).

(** An update that leaves the fixed part alone and takes no owner marker
    away. *)
Definition harmless (f : elem -> elem) : Prop :=
  forall e, fixed (f e) = fixed e
            /\ (Js.truthy (btgOwnerDone (data e)) = true ->
                Js.truthy (btgOwnerDone (data (f e))) = true).

(** [d'] is [d] after steps that add nothing to the tree, leave the fixed
    part of every element alone and take no owner marker away. *)
Definition safe (d d' : dom) : Prop :=
  wf d'
  /\ next d <= next d'
  /\ root (shape d') = root (shape d)
  /\ (forall e, e ∈ names (shape d') -> e ∈ names (shape d))
  /\ (forall e, e < next d -> fixed (get d' e) = fixed (get d e))
  /\ (forall e, e < next d ->
        Js.truthy (btgOwnerDone (data (get d e))) = true ->
        Js.truthy (btgOwnerDone (data (get d' e))) = true).

(** The body of the loop over [[data-btg-done]] in the clearing phase. *)
Definition unmark (d : dom) (el : nat) : dom :=
  let d := modify el (set_display "") d in
  let d := modify el (set_btgDone None) d in
  match closest d sel_wrapper_clear el with
  | Some w => modify w (set_display "") d
  | None => d
  end.

(** An update that leaves the processed marker of an element alone. *)
Definition keeps_done (f : elem -> elem) : Prop :=
  forall e, btgDone (data (f e)) = btgDone (data e).

(** A scan of [container] has nothing left to do: the container is no
    [HTMLElement], or [processElement] returns at a guard for every
    candidate. *)
Definition settled (this : plugin) (d : dom) (container : nat) : Prop :=
  isHTMLElement (at_ (get d container)) = false
  \/ forall el, el ∈ candidates d container ->
       skips this d el = true /\ raises this d el = false.

(** What [processElement] does once the element is marked as processed. *)
Definition dedup_or_embed (this : plugin) (d : dom) (el : nat) (inPicker : bool)
  : outcome :=
  let owner := getOwnerNode this d el inPicker in
  if Js.truthy (owner ≫= (fun o => btgOwnerDone (data (get d o)))) then
    if inPicker then Returned (modify el (set_display "none") d)
    else Returned (modify (default el (closest d sel_wrapper el))
                          (set_display "none") d)
  else
    hideAndEmbed this
      (match owner with
       | Some o => modify o (set_btgOwnerDone (Some "1")) d
       | None => d
       end) el inPicker owner.

(** [d'] is a well-formed later state of [d]. *)
Definition evolves (d d' : dom) : Prop := wf d' /\ later d d'.

(** Neither [el] nor any of its ancestors matches [sel]. *)
Definition no_match (d : dom) (sel : selector) (el : nat) : Prop :=
  Forall (fun x => matches sel (get d x) = false) (chain el (shape d)).

(** The owner unit of an element in the amended wording, each "nearest"
    taken among the element itself and its ancestors: the result tile in
    the picker; otherwise the image wrapper, the embed wrapper, the article,
    the accessories container, in that order; the immediate parent when
    none exists. *)
Inductive owner_of (d : dom) (el : nat) : bool -> option nat -> Prop :=
  | owner_tile a :
      nearest d (sel_class "result__") el a ->
      owner_of d el true (Some a)
  | owner_picker_parent :
      no_match d (sel_class "result__") el ->
      owner_of d el true (parentElement d el)
  | owner_imageWrapper a :
      nearest d (sel_class "imageWrapper") el a ->
      owner_of d el false (Some a)
  | owner_embedWrapper a :
      no_match d (sel_class "imageWrapper") el ->
      nearest d (sel_class "embedWrapper") el a ->
      owner_of d el false (Some a)
  | owner_article a :
      no_match d (sel_class "imageWrapper") el ->
      no_match d (sel_class "embedWrapper") el ->
      nearest d [TagIs "article"] el a ->
      owner_of d el false (Some a)
  | owner_accessories a :
      no_match d (sel_class "imageWrapper") el ->
      no_match d (sel_class "embedWrapper") el ->
      no_match d [TagIs "article"] el ->
      nearest d [IdStartsWith "message-accessories"] el a ->
      owner_of d el false (Some a)
  | owner_parent :
      no_match d (sel_class "imageWrapper") el ->
      no_match d (sel_class "embedWrapper") el ->
      no_match d [TagIs "article"] el ->
      no_match d [IdStartsWith "message-accessories"] el ->
      owner_of d el false (parentElement d el).

(** ** Further vocabulary *)

(** An event of type [evt] at the element [target], bubble phase: the
    listeners of the target, then those of its ancestors. *)
Definition dispatch (evt : string) (target : nat) (d : dom) : dom * list nat :=
  bubble evt (chain target (shape d)) d.

(** The element into which [hideAndEmbed] inserts the placeholder. *)
Definition insert_target (d : dom) (el : nat) (inPicker : bool)
    (owner : option nat) : option nat :=
  if inPicker then owner ?? parentElement d el
  else closest d sel_accessories (default el (closest d sel_wrapper el))
       ?? parentElement d (default el (closest d sel_wrapper el)).

(** The element that [hideAndEmbed] hides. *)
Definition wrapper_of (d : dom) (el : nat) (inPicker : bool) : nat :=
  if inPicker then el else default el (closest d sel_wrapper el).

(** The two URL tests of [processElement] return for [el], and not both
    [true]: no GIF URL among the URLs of [el], or no blocked one. *)
Definition harmless_urls (this : plugin) (d : dom) (el : nat) : Prop :=
  some_raising (isGifUrl_of this) (urls_of d el) = Some false
  \/ (some_raising (isGifUrl_of this) (urls_of d el) = Some true
      /\ some_raising (isBlocked_of this) (urls_of d el) = Some false).

(** No element of the document has an [SVGAnimatedString] for its [href]:
    the document holds no SVG link. *)
Definition string_hrefs (d : dom) : Prop :=
  forall x b, x ∈ names (shape d) -> href (at_ (get d x)) <> Some (Animated b).

Module More.

(** A chat message with an image that is a GIF but not a blocked one. *)
Definition cat_doc : dom :=
  Dom (Node 0 [Node 1 [Node 2 [Node 3 [Node 4 []]]]])
      (list_to_map
         [(0, Sample.el "html" "" "" None None);
          (1, Sample.el "body" "" "" None None);
          (2, Sample.el "div" "" "message-accessories-1" None None);
          (3, Sample.el "div" "imageWrapper_a" "" None None);
          (4, Sample.el "img" "" "" (Some "https://media.tenor.com/abc/cat.gif") None)])
      5.

(** A chat message with two blocked GIFs (4 and 5) in one image wrapper. *)
Definition two_gifs_doc : dom :=
  Dom (Node 0 [Node 1 [Node 2 [Node 3 [Node 4 []; Node 5 []]]]])
      (list_to_map
         [(0, Sample.el "html" "" "" None None);
          (1, Sample.el "body" "" "" None None);
          (2, Sample.el "div" "" "message-accessories-1" None None);
          (3, Sample.el "div" "imageWrapper_a" "" None None);
          (4, Sample.el "img" "" "" (Some Sample.gif) None);
          (5, Sample.el "img" "" "" (Some Sample.gif) None)])
      6.

(** The documents that the calls on the samples produce. *)
Definition chat_embedded : dom :=
  state_of (hideAndEmbed Sample.this Sample.chat_doc 4 false (Some 3)).
Definition picker_embedded : dom :=
  state_of (hideAndEmbed Sample.this Sample.picker_doc 4 true (Some 3)).
Definition two_gifs_first : dom :=
  state_of (processElement Sample.this two_gifs_doc 4).
Definition two_gifs_scanned : dom :=
  state_of (processContainer Sample.this two_gifs_doc 1).

(** [chat_doc] after a scan, after the reveal of its placeholder (5), and
    after a rescan. *)
Definition chat_scanned : dom :=
  state_of (processContainer Sample.this Sample.chat_doc 1).
Definition chat_revealed : dom := (click_toggle chat_scanned 5).1.
Definition chat_rescanned : dom := state_of (rescan Sample.this chat_revealed).

(** A [Data.save] that ignores [undefined]. *)
Definition keep_undefined : gmap string bool -> string -> gmap string bool :=
  fun saved _ => saved.

(** The plugin with both switches off and with case-sensitive matching. *)
Definition picker_off : plugin := Plugin (Settings false false) true true.
Definition case_on : plugin := Plugin (Settings true true) false false.

End More.

(** ** Settings *)

(** An entry of [config.settings]: its [id], its [value] ([undefined] when
    absent) and, for a group, its own [settings]. *)
#[warnings="-register-all"]
Inductive entry :=
  Entry (id : option string) (value : option bool) (group : option (list entry)).

Definition s_id (s : entry) : option string :=
  match s with Entry i _ _ => i end.
Definition s_value (s : entry) : option bool :=
  match s with Entry _ v _ => v end.
Definition s_settings (s : entry) : option (list entry) :=
  match s with Entry _ _ g => g end.

(** [config.settings] as the file declares it. *)
Definition config_settings : list entry :=
  [Entry (Some "blockInPicker") (Some true) None;
   Entry (Some "caseSensitive") (Some false) None].

(** What the settings code reads and writes: the entries of [config], whose
    values it assigns, and what [BdApi.Data] holds under the plugin's
    name. *)
Record store := Store {
  config : list entry;
  saved : gmap string bool
}.

(** [Data.load(name, key)]: the value last saved, else [undefined]. *)
Definition Data_load (st : store) (key : string) : option bool :=
  saved st !! key.

Section Data.

(** [BdApi.Data] is no part of the plugin's file.  For a value that is not
    [undefined] it is taken as the key-value store it is documented to be:
    [Data.load] gives what [Data.save] last saved under the key.  What
    [Data.save] does to the saved data when the value is [undefined] is a
    parameter of everything below. *)
Variable save_undefined : gmap string bool -> string -> gmap string bool.

(** [Data.save(name, key, value)]. *)
Definition Data_save (st : store) (key : string) (v : option bool) : store :=
  Store (config st)
        (match v with
         | Some b => <[key := b]> (saved st)
         | None => save_undefined (saved st) key
         end).

(** An entry object is referred to by its position: [[i]] for the [i]th
    entry of [config.settings], [i :: p] for the entry at [p] in the group
    of the [i]th. *)
Fixpoint entry_at (c : list entry) (p : list nat) : option entry :=
  match p with
  | [] => None
  | i :: p' =>
      match p' with
      | [] => c !! i
      | _ => (c !! i ≫= s_settings) ≫= (fun g => entry_at g p')
      end
  end.

(** [xs.reduce(f, init)], [f] taking the index as well. *)
Fixpoint reduce {A B} (f : B -> nat -> A -> B) (i : nat) (xs : list A) (acc : B) : B :=
  match xs with
  | [] => acc
  | x :: r => reduce f (S i) r (f acc i x)
  end.

(** [xs.find(x => x.id === key)], as the position of what it finds. *)
Definition find_id (key : string) (xs : list entry) : option nat :=
  fst <$> list_find (fun x => s_id x = Some key) xs.

(** [getSetting(key)]: a reference to the entry found. *)
Definition getSetting (c : list entry) (key : string) : option (list nat) :=
  reduce (fun found i s =>
            found ?? (if bool_decide (s_id s = Some key) then Some [i]
                      else (s_settings s ≫= find_id key)
                           ≫= (fun j => Some [i; j])))
         0 c None.

(** [entry.value = v] for the entry at [p]. *)
Definition set_value (v : option bool) (s : entry) : entry :=
  Entry (s_id s) v (s_settings s).

Fixpoint assign (p : list nat) (v : option bool) (c : list entry) : list entry :=
  match p with
  | [] => c
  | i :: p' =>
      match p' with
      | [] => alter (set_value v) i c
      | _ => alter (fun s => Entry (s_id s) (s_value s)
                                   (assign p' v <$> s_settings s)) i c
      end
  end.

(** The [get] trap of the [this.settings] proxy. *)
Definition settings_get (st : store) (key : string) : option bool :=
  Data_load st key
  ?? ((getSetting (config st) key ≫= entry_at (config st)) ≫= s_value).

(** A call of the settings code returns or raises a [TypeError]. *)
Inductive sresult := Ok (st : store) | Raised (st : store).

Definition store_of (r : sresult) : store :=
  match r with Ok st | Raised st => st end.

(** The [set] trap of the [this.settings] proxy: it saves, then assigns the
    [value] of what [getSetting] finds, which raises when that is
    [undefined]. *)
Definition settings_set (st : store) (key : string) (v : option bool) : sresult :=
  let st := Data_save st key v in
  match getSetting (config st) key with
  | Some p => Ok (Store (assign p v (config st)) (saved st))
  | None => Raised st
  end.

(** The body of the [forEach] of [initSettings] for the entry [s] found at
    [p]: a group is entered, another entry with a non-empty [id] is
    assigned what is saved or else its current [value]. *)
Fixpoint initEntry (p : list nat) (s : entry) (st : store) : sresult :=
  match s with
  | Entry _ _ (Some g) =>
      (fix each (i : nat) (xs : list entry) (st : store) : sresult :=
         match xs with
         | [] => Ok st
         | x :: r =>
             match initEntry (p ++ [i]) x st with
             | Ok st' => each (S i) r st'
             | Raised st' => Raised st'
             end
         end) 0 g st
  | Entry (Some key) _ None =>
      if bool_decide (key <> "") then
        settings_set st key
          (Data_load st key ?? (entry_at (config st) p ≫= s_value))
      else Ok st
  | Entry None _ None => Ok st
  end.

(** [settings.forEach(...)] for the entries [xs] of the group at [p], from
    the index [i] on. *)
Fixpoint initEach (p : list nat) (i : nat) (xs : list entry) (st : store) : sresult :=
  match xs with
  | [] => Ok st
  | x :: r =>
      match initEntry (p ++ [i]) x st with
      | Ok st' => initEach p (S i) r st'
      | Raised st' => Raised st'
      end
  end.

(** [initSettings()]. *)
Definition initSettings (st : store) : sresult := initEach [] 0 (config st) st.

(** [this.settings.blockInPicker] and [this.settings.caseSensitive] as the
    conditions of the plugin read them. *)
Definition settings_of (st : store) : settings :=
  {| blockInPicker := default false (settings_get st "blockInPicker");
     caseSensitive := default false (settings_get st "caseSensitive") |}.

Definition with_settings (this : plugin) (st : store) : plugin :=
  Plugin (settings_of st) (observer this) (styled this).

(** The [onChange] callback of [getSettingsPanel()]. *)
Definition onChange (this : plugin) (st : store) (d : dom) (id : string)
    (v : option bool) : store * plugin * outcome :=
  match settings_set st id v with
  | Ok st' => (st', with_settings this st', rescan (with_settings this st') d)
  | Raised st' => (st', with_settings this st', Threw d)
  end.

(** [start()] from its first statement. *)
Definition start_all (this : plugin) (st : store) (d : dom)
  : store * plugin * outcome :=
  match initSettings st with
  | Ok st' =>
      (st', (start (with_settings this st') d).1,
       (start (with_settings this st') d).2)
  | Raised st' => (st', with_settings this st', Threw d)
  end.

End Data.

(** The entries that [initSettings] assigns: at any depth, outside groups,
    with a non-empty [id]. *)
Fixpoint assigned (s : entry) : list string :=
  match s with
  | Entry _ _ (Some g) => flat_map assigned g
  | Entry (Some key) _ None => if bool_decide (key <> "") then [key] else []
  | Entry None _ None => []
  end.

(** The ids and the nesting of the entries, which no assignment changes. *)
Fixpoint skeleton (s : entry) : entry :=
  match s with
  | Entry i _ g => Entry i None (map skeleton <$> g)
  end.

(** [config.settings] with the current values [a] and [b] of its two
    switches. *)
Definition config_with (a b : bool) : list entry :=
  [Entry (Some "blockInPicker") (Some a) None;
   Entry (Some "caseSensitive") (Some b) None].

(** ** Facts about strings *)

Section StringFacts.

Lemma startsWith_spec s p :
  Js.startsWith s p = true <-> exists post, s = p +:+ post.
Proof.
  revert s; induction p as [|a p IH]; intros s; simpl.
  - split; [intros _; exists s; reflexivity | done].
  - destruct s as [|b s].
    + split; [done | intros [post H]; discriminate H].
    + destruct (Ascii.eqb_spec a b) as [->|Hne].
      * rewrite IH. split; intros [post H]; exists post.
        -- simpl. by rewrite H.
        -- simpl in H. by injection H.
      * split; [done | intros [post H]; simpl in H; injection H; congruence].
Qed.

Lemma includes_spec s p : Js.includes s p = true <-> substring_of p s.
Proof.
  induction s as [|c s IH]; simpl.
  - rewrite orb_false_r, startsWith_spec. split.
    + intros [post H]. exists "", post. exact H.
    + intros ([|? ?] & post & H); [by exists post | discriminate H].
  - rewrite orb_true_iff, IH, startsWith_spec. split.
    + intros [[post H] | (pre & post & H)].
      * exists "", post. exact H.
      * exists (String c pre), post. simpl. by rewrite H.
    + intros ([|c' pre] & post & H).
      * left. by exists post.
      * right. simpl in H. injection H as _ H. by exists pre, post.
Qed.

Lemma some_spec {A} (f : A -> bool) xs :
  Js.some f xs = true <-> exists x, In x xs /\ f x = true.
Proof. apply existsb_exists. Qed.

Lemma truthy_spec v :
  Js.truthy v = true <-> exists s, v = Some s /\ s <> "".
Proof.
  destruct v as [[|c s]|]; simpl; split; try done.
  - by intros (s & [= <-] & H).
  - intros _. by exists (String c s).
  - by intros (s & [=] & _).
Qed.

End StringFacts.

(** ** URL classifier *)

Section Classifier.

Lemma substring_nonempty p s : p <> "" -> substring_of p s -> s <> "".
Proof.
  intros Hp (pre & post & ->) H.
  destruct pre; [destruct p; [done | discriminate H] | discriminate H].
Qed.

Lemma toLowerCase_nonempty s : s <> "" -> Js.toLowerCase s <> "".
Proof. by destruct s. Qed.

Lemma blocked_word_normal this w :
  In w BLOCKED_WORDS -> normalize this w <> "".
Proof.
  intros [<- | []]. unfold normalize. by destruct (caseSensitive (cfg this)).
Qed.

Lemma normalize_empty this : normalize this "" = "".
Proof. unfold normalize. by destruct (caseSensitive (cfg this)). Qed.

Lemma gif_pattern_nonempty p : In p GIF_PATTERNS -> p <> "".
Proof.
  unfold GIF_PATTERNS. simpl. intros H.
  repeat (destruct H as [<-|H]; [done|]). destruct H.
Qed.

(** C4.  [isBlocked(url)] is true exactly when the URL is present and
    contains some word of [BLOCKED_WORDS] as a substring, the URL and the
    word both lower-cased when [caseSensitive] is off and both verbatim
    when it is on; it is false for an absent and for an empty URL; with
    [caseSensitive] on, a URL spelling the word "Benjammin" is not
    blocked, while with the setting off it is. *)
Theorem isBlocked_iff_contains_blocked_word :
  (forall this url,
      isBlocked this url = true <->
      exists u, url = Some u /\
                exists w, In w BLOCKED_WORDS /\
                          substring_of (normalize this w) (normalize this u))
  /\ (forall this, isBlocked this None = false)
  /\ (forall this, isBlocked this (Some "") = false)
  /\ (forall inPicker obs sty,
        isBlocked (Plugin (Settings inPicker true) obs sty)
                  (Some "https://media.tenor.com/abc/Benjammin-dance.gif") = false)
  /\ (forall inPicker obs sty,
        isBlocked (Plugin (Settings inPicker false) obs sty)
                  (Some "https://media.tenor.com/abc/Benjammin-dance.gif") = true).
Proof.
  split; [|split; [done | split; [done | split]]].
  - intros this url. unfold isBlocked.
    destruct (Js.truthy url) eqn:Ht; cbn [negb].
    + apply truthy_spec in Ht as (u & -> & Hu). cbn [default].
      fold (normalize this u). rewrite some_spec. split.
      * intros (w & Hw & Hin). apply includes_spec in Hin.
        exists u. split; [done|]. exists w. by split.
      * intros (u' & [= <-] & w & Hw & Hsub).
        exists w. split; [done|]. by apply includes_spec.
    + split; [done|]. intros (u & -> & w & Hw & Hsub).
      destruct u as [|c u]; [|done].
      rewrite normalize_empty in Hsub.
      by apply (substring_nonempty _ _ (blocked_word_normal this w Hw)) in Hsub.
  - reflexivity.
  - reflexivity.
Qed.

(** C7.  [isGifUrl(url)] is true exactly when the URL is present and its
    lower-cased form contains one of the six [GIF_PATTERNS]; it is false
    for an absent and for an empty URL, hence for every URL containing no
    pattern; and it does not depend on the settings of the instance. *)
Theorem isGifUrl_iff_contains_pattern :
  GIF_PATTERNS = [".gif"; "tenor.com"; "giphy.com"; "media.discordapp.net";
                  "media.tenor.com"; "i.imgur.com"]
  /\ (forall this url,
        isGifUrl this url = true <->
        exists u, url = Some u /\
                  exists p, In p GIF_PATTERNS /\
                            substring_of p (Js.toLowerCase u))
  /\ (forall this, isGifUrl this None = false)
  /\ (forall this, isGifUrl this (Some "") = false)
  /\ (forall this this' url, isGifUrl this url = isGifUrl this' url).
Proof.
  split; [done | split; [| done]].
  intros this url. unfold isGifUrl.
  destruct (Js.truthy url) eqn:Ht; cbn [negb].
  - apply truthy_spec in Ht as (u & -> & Hu). cbn [default].
    rewrite some_spec. split.
    + intros (p & Hp & Hin). apply includes_spec in Hin.
      exists u. split; [done|]. exists p. by split.
    + intros (u' & [= <-] & p & Hp & Hsub).
      exists p. split; [done|]. by apply includes_spec.
  - split; [done|]. intros (u & -> & p & Hp & Hsub).
    destruct u as [|c u]; [|done].
    by apply (substring_nonempty _ _ (gif_pattern_nonempty p Hp)) in Hsub.
Qed.

End Classifier.

(** ** Element resolver *)

Section Resolver.

Lemma find_first {A} (f : A -> bool) (l : list A) a :
  find f l = Some a <->
  exists before after, l = before ++ a :: after /\ f a = true
                       /\ Forall (fun x => f x = false) before.
Proof.
  induction l as [|x l IH]; simpl.
  - split; [done|]. intros (b & c & H & _). by destruct b.
  - destruct (f x) eqn:Hx.
    + split.
      * intros [= <-]. exists [], l. by repeat split.
      * intros ([|y b] & c & H & Ha & Hb).
        -- by injection H as ->.
        -- injection H as -> _. inversion Hb; congruence.
    + rewrite IH. split.
      * intros (b & c & -> & Ha & Hb). exists (x :: b), c.
        repeat split; [done | by constructor].
      * intros ([|y b] & c & H & Ha & Hb).
        -- injection H as -> _. congruence.
        -- injection H as -> ->. inversion Hb; subst. by exists b, c.
Qed.

Lemma find_nothing {A} (f : A -> bool) (l : list A) :
  find f l = None <-> Forall (fun x => f x = false) l.
Proof.
  induction l as [|x l IH]; simpl; [by split|].
  destruct (f x) eqn:Hx.
  - split; [done|]. inversion 1; congruence.
  - rewrite IH. split; [by constructor | by inversion 1].
Qed.

Lemma closest_nearest d sel el a :
  closest d sel el = Some a <-> nearest d sel el a.
Proof. apply (find_first (fun j => matches sel (get d j))). Qed.

Lemma closest_no_match d sel el :
  closest d sel el = None <-> no_match d sel el.
Proof. apply (find_nothing (fun j => matches sel (get d j))). Qed.

Lemma nearest_excludes d sel el a : nearest d sel el a -> no_match d sel el -> False.
Proof.
  intros Hn%closest_nearest Hm%closest_no_match. congruence.
Qed.

Lemma nearest_unique d sel el a b :
  nearest d sel el a -> nearest d sel el b -> a = b.
Proof. intros Ha%closest_nearest Hb%closest_nearest. congruence. Qed.

(** C6.  As amended: [getOwnerNode(el, inPicker)] returns the owner unit
    and nothing else, where each "nearest" is taken among the element
    itself and its ancestors, as [Element.closest] does: in the picker the
    nearest element matching the result-tile marker, else the immediate
    parent; outside it the first that exists of the nearest image wrapper,
    embed wrapper, article and accessories container, else the immediate
    parent.  Being a function of the element and the document, the result
    is the same on every call. *)
Theorem getOwnerNode_is_owner_unit this d el inPicker r :
  getOwnerNode this d el inPicker = r <-> owner_of d el inPicker r.
Proof.
  unfold getOwnerNode. split.
  - intros <-. destruct inPicker.
    + destruct (closest d (sel_class "result__") el) as [a|] eqn:H1; simpl.
      * apply owner_tile. by apply closest_nearest.
      * apply owner_picker_parent. by apply closest_no_match.
    + destruct (closest d (sel_class "imageWrapper") el) as [a|] eqn:H1; simpl;
        [apply owner_imageWrapper; by apply closest_nearest|].
      apply closest_no_match in H1.
      destruct (closest d (sel_class "embedWrapper") el) as [a|] eqn:H2; simpl;
        [apply owner_embedWrapper; [done | by apply closest_nearest]|].
      apply closest_no_match in H2.
      destruct (closest d [TagIs "article"] el) as [a|] eqn:H3; simpl;
        [apply owner_article; [done | done | by apply closest_nearest]|].
      apply closest_no_match in H3.
      destruct (closest d [IdStartsWith "message-accessories"] el) as [a|] eqn:H4;
        simpl; [apply owner_accessories; [done | done | done | by apply closest_nearest]|].
      apply closest_no_match in H4. by apply owner_parent.
  - intros H; destruct H;
      repeat match goal with
             | H : nearest _ _ _ _ |- _ => apply closest_nearest in H; rewrite H
             | H : no_match _ _ _ |- _ => apply closest_no_match in H; rewrite H
             end; reflexivity.
Qed.

(** C5.  In the picker with [blockInPicker] off, [processElement] writes
    nothing: the document, and with it the element's processed marker,
    every display and every placeholder, is exactly what it was; and unless
    one of the two URL tests raises (an [href] that is no string), the call
    returns. *)
Theorem processElement_skips_picker_when_setting_off this d el :
  isInGifPicker this d el = true ->
  blockInPicker (cfg this) = false ->
  state_of (processElement this d el) = d
  /\ (raises this d el = false -> processElement this d el = Returned d).
Proof.
  intros Hp Hs. unfold processElement, raises.
  destruct (Js.truthy _); [done|].
  destruct (some_raising (isGifUrl_of this) _) as [[]|]; [|done..].
  destruct (some_raising (isBlocked_of this) _) as [[]|]; [|done..].
  by rewrite Hp, Hs.
Qed.

End Resolver.

(** ** Facts about node trees *)

Section TreeFacts.

(** Induction on a tree with the hypothesis for all children. *)
Lemma tree_induction (P : tree -> Prop) :
  (forall n ks, Forall P ks -> P (Node n ks)) -> forall t, P t.
Proof.
  intros step. fix IH 1. intros [n ks]. apply step.
  induction ks as [|k r IHr]; constructor; [apply IH | exact IHr].
Qed.

Lemma chain_eq i n ks :
  chain i (Node n ks) =
  if n =? i then [n]
  else match chain_kids i ks with [] => [] | c => c ++ [n] end.
Proof. reflexivity. Qed.

Lemma subtree_eq i n ks :
  subtree i (Node n ks) =
  if n =? i then Some (Node n ks) else subtree_kids i ks.
Proof. reflexivity. Qed.

Lemma prune_eq i n ks : prune i (Node n ks) = Node n (prune_kids i ks).
Proof. reflexivity. Qed.

Lemma names_eq n ks : names (Node n ks) = n :: concat (map names ks).
Proof. reflexivity. Qed.

Lemma root_in_names t : root t ∈ names t.
Proof. destruct t. rewrite names_eq. simpl. left. Qed.

(** The chain of [i] is made of elements of the tree and starts at [i]. *)
Lemma chain_in_names i t : forall x, x ∈ chain i t -> x ∈ names t.
Proof.
  induction t as [n ks IH] using tree_induction. intros x.
  rewrite chain_eq, names_eq. destruct (n =? i) eqn:E.
  - intros ->%list_elem_of_singleton. left.
  - assert (Hk : forall y, y ∈ chain_kids i ks -> y ∈ concat (map names ks)).
    { clear E. induction IH as [|k r Hk _ IHr]; simpl; [by inversion 1|].
      intros y Hy. apply elem_of_app.
      destruct (chain i k) eqn:Ec; [right; by apply IHr | left; apply Hk, Hy]. }
    destruct (chain_kids i ks) eqn:Ec; [by inversion 1|].
    intros [Hx | ->%list_elem_of_singleton]%elem_of_app; [|left].
    right. by apply Hk.
Qed.

Lemma chain_kids_nil i ks :
  chain_kids i ks = [] <-> Forall (fun k => chain i k = []) ks.
Proof.
  induction ks as [|k r IH]; simpl; [by split|].
  destruct (chain i k) eqn:E.
  - rewrite IH. split; [by constructor | by inversion 1].
  - split; [done|]. inversion 1; congruence.
Qed.

(** The chain is empty exactly for the elements outside the tree. *)
Lemma chain_nil i t : chain i t = [] <-> i ∉ names t.
Proof.
  induction t as [n ks IH] using tree_induction.
  rewrite chain_eq, names_eq, not_elem_of_cons.
  destruct (Nat.eqb_spec n i) as [->|Hne].
  - split; [done | intros [? _]; done].
  - assert (Hk : chain_kids i ks = [] <-> i ∉ concat (map names ks)).
    { rewrite chain_kids_nil. clear Hne.
      induction IH as [|k r Hk _ IHr]; simpl.
      - split; [intros _; by inversion 1 | constructor].
      - rewrite not_elem_of_app, <- IHr, <- Hk.
        split; [by inversion 1 | intros []; by constructor]. }
    destruct (chain_kids i ks) eqn:Ec.
    + split; [intros _; split; [done | by apply Hk] | done].
    + split; [intros H; by destruct l | intros [_ H]; apply Hk in H; done].
Qed.

Lemma chain_some i t : i ∈ names t -> exists r, chain i t = i :: r.
Proof.
  induction t as [n ks IH] using tree_induction.
  rewrite chain_eq, names_eq. destruct (Nat.eqb_spec n i) as [->|Hne].
  - intros _. by exists [].
  - intros [?|Hin]%elem_of_cons; [done|].
    assert (Hk : exists r, chain_kids i ks = i :: r).
    { clear Hne. induction IH as [|k r Hk _ IHr]; simpl in *; [by inversion Hin|].
      apply elem_of_app in Hin.
      destruct (chain i k) eqn:Ec.
      - apply IHr. destruct Hin as [Hin|Hin]; [|done].
        by apply chain_nil in Ec.
      - destruct (decide (i ∈ names k)) as [Hi|Hi].
        + destruct (Hk Hi) as [r' Hr']. eauto.
        + apply chain_nil in Hi. congruence. }
    destruct Hk as [r ->]. by exists (r ++ [n]).
Qed.

Lemma subtree_in_names i t s : subtree i t = Some s -> i ∈ names t /\ root s = i.
Proof.
  revert s. induction t as [n ks IH] using tree_induction. intros s.
  rewrite subtree_eq, names_eq. destruct (Nat.eqb_spec n i) as [->|Hne].
  - intros [= <-]. split; [left | done].
  - intros E. cut (i ∈ concat (map names ks) /\ root s = i).
    { intros [? ?]. split; [by right | done]. }
    induction IH as [|k r Hk _ IHr]; simpl in *; [done|].
    rewrite elem_of_app. destruct (subtree i k) as [s'|] eqn:E'.
    + injection E as ->. destruct (Hk s eq_refl). auto.
    + destruct (IHr E). auto.
Qed.

Lemma subtree_kids_some i ks s :
  subtree_kids i ks = Some s -> exists a, a ∈ ks /\ subtree i a = Some s.
Proof.
  induction ks as [|k r IH]; simpl; [done|].
  destruct (subtree i k) as [s'|] eqn:E.
  - intros [= <-]. exists k. split; [left | done].
  - intros (a & Ha & Hs)%IH. exists a. split; [by right | done].
Qed.

Lemma names_kid_in a ks x :
  a ∈ ks -> x ∈ names a -> x ∈ concat (map names ks).
Proof.
  induction ks as [|k r IH]; simpl; [by inversion 1|].
  intros [Hak|Ha]%elem_of_cons Hx; apply elem_of_app.
  - subst. by left.
  - right. by apply IH.
Qed.

Lemma chain_kids_in x a ks :
  NoDup (concat (map names ks)) -> a ∈ ks -> x ∈ names a ->
  chain_kids x ks = chain x a.
Proof.
  induction ks as [|k r IH]; simpl; [by inversion 2|].
  intros (Hndk & Hdisj & Hndr)%NoDup_app [Hak|Ha]%elem_of_cons Hx.
  - subst k. destruct (chain_some x a Hx) as [l ->]. done.
  - assert (Hk : chain x k = []).
    { apply chain_nil. intros Hxk. apply (Hdisj x Hxk).
      by apply (names_kid_in a). }
    rewrite Hk. by apply IH.
Qed.

(** [chain] climbs the tree: the chain of a child of [p] is the child
    followed by the chain of [p]. *)
Lemma chain_child t p ks k :
  NoDup (names t) -> subtree p t = Some (Node p ks) -> k ∈ ks ->
  chain (root k) t = root k :: chain p t.
Proof.
  induction t as [n ks0 IH] using tree_induction.
  rewrite subtree_eq, !chain_eq, names_eq. intros [Hn Hnd]%NoDup_cons.
  assert (Hin : forall a x, a ∈ ks0 -> x ∈ names a -> x ∈ concat (map names ks0))
    by (intros a x; apply names_kid_in).
  destruct (Nat.eqb_spec n p) as [->|Hnp].
  - intros [= <-] Hk.
    destruct (Nat.eqb_spec p (root k)) as [E|_].
    { exfalso. apply Hn. rewrite E. eapply Hin; [done | apply root_in_names]. }
    rewrite (chain_kids_in _ k) by (auto using root_in_names).
    destruct k as [m l]. simpl. by rewrite Nat.eqb_refl.
  - intros (a & Ha & Hs)%subtree_kids_some Hk.
    rewrite Forall_forall in IH.
    assert (Hnda : NoDup (names a)).
    { clear -Hnd Ha. induction ks0 as [|b r IHr]; [by inversion Ha|].
      simpl in Hnd. apply NoDup_app in Hnd as (H1 & _ & H2).
      apply elem_of_cons in Ha as [->|Ha]; auto. }
    pose proof (IH a Ha Hnda Hs Hk) as E.
    destruct (subtree_in_names _ _ _ Hs) as [Hpa _].
    assert (Hka : root k ∈ names a).
    { destruct (decide (root k ∈ names a)) as [|Hout]; [done|].
      apply chain_nil in Hout. by rewrite Hout in E. }
    destruct (Nat.eqb_spec n (root k)) as [E'|_].
    { exfalso. apply Hn. rewrite E'. by eapply Hin. }
    rewrite (chain_kids_in _ a), (chain_kids_in p a) by auto.
    rewrite E. destruct (chain_some p a Hpa) as [l ->]. done.
Qed.

Lemma append_child_eq p c n ks :
  append_child p c (Node n ks) =
  Node n (if n =? p then map (append_child p c) ks ++ [Node c []]
          else map (append_child p c) ks).
Proof. reflexivity. Qed.

Lemma chain_kids_app i l1 l2 :
  chain_kids i (l1 ++ l2) =
  match chain_kids i l1 with [] => chain_kids i l2 | c => c end.
Proof.
  induction l1 as [|k r IH]; simpl; [done|].
  destruct (chain i k); [exact IH | done].
Qed.

(** Appending a new element leaves the chain of every other element as it
    was. *)
Lemma chain_append_child p c t x :
  x <> c -> chain x (append_child p c t) = chain x t.
Proof.
  intros Hx. induction t as [n ks IH] using tree_induction.
  rewrite append_child_eq, !chain_eq.
  assert (Hk : chain_kids x (map (append_child p c) ks) = chain_kids x ks).
  { induction IH as [|k r Hk _ IHr]; simpl; [done|]. by rewrite Hk, IHr. }
  destruct (n =? x); [done|].
  destruct (n =? p); [|by rewrite Hk].
  rewrite chain_kids_app, Hk. simpl.
  destruct (Nat.eqb_spec c x) as [->|_]; [done|].
  by destruct (chain_kids x ks).
Qed.

Lemma append_child_absent p c t : p ∉ names t -> append_child p c t = t.
Proof.
  induction t as [n ks IH] using tree_induction.
  rewrite names_eq, not_elem_of_cons, append_child_eq. intros [Hn Hks].
  destruct (Nat.eqb_spec n p) as [->|_]; [done|]. f_equal.
  induction IH as [|k r Hk _ IHr]; simpl in *; [done|].
  apply not_elem_of_app in Hks as [H1 H2]. by rewrite Hk, IHr.
Qed.

(** Appending below an element of a tree without repetition puts the new
    name at one place of the document order. *)
Lemma names_append_child p c t :
  NoDup (names t) -> p ∈ names t ->
  exists l1 l2, names t = l1 ++ l2 /\ names (append_child p c t) = l1 ++ c :: l2.
Proof.
  induction t as [n ks IH] using tree_induction.
  rewrite append_child_eq, !names_eq. intros [Hn Hnd]%NoDup_cons Hp.
  destruct (Nat.eqb_spec n p) as [->|Hne].
  - exists (p :: concat (map names ks)), []. rewrite app_nil_r. split; [done|].
    rewrite map_app, concat_app. simpl. f_equal. f_equal.
    clear IH Hnd Hp. induction ks as [|k r IHr]; simpl in *; [done|].
    apply not_elem_of_app in Hn as [H1 H2].
    by rewrite append_child_absent, IHr.
  - apply elem_of_cons in Hp as [?|Hp]; [done|].
    assert (Hk : exists l1 l2, concat (map names ks) = l1 ++ l2 /\
                 concat (map names (map (append_child p c) ks)) = l1 ++ c :: l2).
    { clear Hn Hne. induction IH as [|k r Hk _ IHr]; simpl in *; [by inversion Hp|].
      apply NoDup_app in Hnd as (Hndk & Hdisj & Hndr).
      apply elem_of_app in Hp as [Hp|Hp].
      - destruct (Hk Hndk Hp) as (l1 & l2 & E1 & E2).
        exists l1, (l2 ++ concat (map names r)). rewrite E1, E2, <- !app_assoc.
        split; [done|]. simpl. do 3 f_equal.
        assert (Hr : p ∉ concat (map names r)) by (intros ?; by eapply Hdisj).
        clear -Hr. induction r as [|k' r IHr]; simpl in *; [done|].
        apply not_elem_of_app in Hr as [H1 H2].
        by rewrite append_child_absent, IHr.
      - destruct (IHr Hndr Hp) as (l1 & l2 & E1 & E2).
        exists (names k ++ l1), l2. rewrite E1, E2, <- !app_assoc.
        split; [done|]. f_equal. rewrite append_child_absent; [done|].
        intros Hk'. by eapply Hdisj. }
    destruct Hk as (l1 & l2 & E1 & E2). exists (n :: l1), l2.
    rewrite E1, E2. done.
Qed.

Lemma chain_in_names_kids i ks x :
  x ∈ chain_kids i ks -> x ∈ concat (map names ks).
Proof.
  induction ks as [|k r IHr]; simpl; [done|].
  intros Hx. apply elem_of_app.
  destruct (chain i k) eqn:E; [right; by apply IHr|].
  left. apply (chain_in_names i). by rewrite E.
Qed.

(** Removing an element keeps the document order of the others. *)
Lemma names_prune i t : names (prune i t) `sublist_of` names t.
Proof.
  induction t as [n ks IH] using tree_induction.
  rewrite prune_eq, !names_eq. apply sublist_skip.
  induction IH as [|k r Hk _ IHr]; simpl; [done|].
  destruct (root k =? i); simpl.
  - by apply sublist_inserts_l.
  - by apply sublist_app.
Qed.

Lemma NoDup_prune i t : NoDup (names t) -> NoDup (names (prune i t)).
Proof. intros H. eapply sublist_NoDup; [exact H | apply names_prune]. Qed.

Lemma names_prune_elem i t x : x ∈ names (prune i t) -> x ∈ names t.
Proof. intros H. eapply elem_of_sublist; [exact H | apply names_prune]. Qed.

(** What stays in the tree keeps its chain. *)
Lemma chain_prune i t x :
  NoDup (names t) -> x ∈ names (prune i t) -> chain x (prune i t) = chain x t.
Proof.
  induction t as [n ks IH] using tree_induction.
  rewrite prune_eq, !chain_eq, !names_eq. intros [_ Hnd]%NoDup_cons Hx.
  destruct (Nat.eqb_spec n x) as [->|Hne]; [done|].
  apply elem_of_cons in Hx as [?|Hx]; [done|].
  cut (chain_kids x (prune_kids i ks) = chain_kids x ks); [by intros ->|].
  clear Hne. induction IH as [|k r Hk _ IHr]; simpl in *; [done|].
  apply NoDup_app in Hnd as (Hndk & Hdisj & Hndr).
  assert (Hr : x ∈ concat (map names (prune_kids i r)) -> chain x k = []).
  { intros Hin. apply chain_nil. intros Hxk. apply (Hdisj _ Hxk).
    clear -Hin. induction r as [|k' r IHr]; simpl in *; [done|].
    apply elem_of_app. destruct (root k' =? i); [right; by apply IHr|].
    simpl in Hin. apply elem_of_app in Hin as [Hin|Hin];
      [left; by eapply names_prune_elem | right; by apply IHr]. }
  destruct (root k =? i); simpl in *.
  - rewrite (Hr Hx). by apply IHr.
  - destruct (decide (x ∈ names (prune i k))) as [Hin|Hout].
    + rewrite (Hk Hndk Hin).
      destruct (chain_some x k (names_prune_elem _ _ _ Hin)) as [r' ->]. done.
    + apply elem_of_app in Hx as [?|Hx]; [done|].
      rewrite (Hr Hx). apply chain_nil in Hout. rewrite Hout. by apply IHr.
Qed.

Lemma chain_kids_absent i ks :
  i ∉ concat (map names ks) -> chain_kids i ks = [].
Proof.
  intros Hout. apply chain_kids_nil.
  induction ks as [|k r IHr]; [constructor|].
  simpl in Hout. apply not_elem_of_app in Hout as [H1 H2].
  constructor; [by apply chain_nil | by apply IHr].
Qed.

Lemma subtree_kids_none i ks :
  Forall (fun k => i ∉ names k) ks -> subtree_kids i ks = None.
Proof.
  induction 1 as [|k r Hk _ IHr]; simpl; [done|].
  destruct (subtree i k) as [s|] eqn:E; [|done].
  exfalso. apply Hk. clear -E. revert s E.
  induction k as [n ks IH] using tree_induction. intros s.
  rewrite subtree_eq, names_eq. destruct (Nat.eqb_spec n i) as [->|Hne].
  - intros _. left.
  - intros E. right. induction IH as [|k r Hk _ IHr]; simpl in *; [done|].
    apply elem_of_app. destruct (subtree i k) as [s'|] eqn:E'.
    + left. by eapply Hk.
    + right. by apply IHr.
Qed.

(** In a tree without repetition the proper descendants of [x] are the
    elements that have [x] further up their chain. *)
Lemma descendants_chain t x y :
  NoDup (names t) ->
  y ∈ descendants x t <-> (x ∈ chain y t /\ y <> x).
Proof.
  unfold descendants. induction t as [n ks IH] using tree_induction.
  rewrite subtree_eq, chain_eq, names_eq. intros [Hn Hnd]%NoDup_cons.
  assert (Hkids : forall z, z ∈ concat (map names ks) ->
            exists r, chain_kids z ks = z :: r).
  { intros z Hz. destruct (chain_some z (Node n ks)) as [r Hr].
    { rewrite names_eq. by right. }
    rewrite chain_eq in Hr. destruct (Nat.eqb_spec n z) as [->|_]; [done|].
    destruct (chain_kids z ks) as [|a l]; [done|].
    simpl in Hr. injection Hr as -> _. eauto. }
  destruct (Nat.eqb_spec n x) as [->|Hnx].
  - destruct (Nat.eqb_spec x y) as [->|Hxy].
    + split; [intros Hy; done | intros [_ ?]; done].
    + split.
      * intros Hy. destruct (Hkids y Hy) as [r ->]. simpl. split; [|congruence].
        right. apply elem_of_app. right. left.
      * intros [Hin _]. destruct (decide (y ∈ concat (map names ks))) as [|Hout]; [done|].
        assert (Hc : chain y (Node x ks) = []).
        { apply chain_nil. rewrite names_eq, not_elem_of_cons. done. }
        rewrite chain_eq in Hc. destruct (Nat.eqb_spec x y); [done|].
        rewrite Hc in Hin. by inversion Hin.
  - cut (y ∈ match subtree_kids x ks with
             | Some (Node _ ks0) => concat (map names ks0)
             | None => []
             end <-> x ∈ chain_kids y ks /\ y <> x).
    { intros ->. destruct (Nat.eqb_spec n y) as [->|Hny].
      - rewrite (chain_kids_absent _ _ Hn).
        split; [intros [Hx _]; by inversion Hx
               | intros [Hx%list_elem_of_singleton _]; done].
      - destruct (chain_kids y ks) eqn:E.
        + split; [intros [H _]; by inversion H | intros [H _]; by inversion H].
        + rewrite elem_of_app, list_elem_of_singleton.
          split; [intros [H ?]; auto | intros [[H|H] ?]; [auto | congruence]]. }
    clear Hn Hkids Hnx.
    induction IH as [|k r Hk _ IHr]; simpl in *.
    { split; [by inversion 1 | intros [H _]; by inversion H]. }
    apply NoDup_app in Hnd as (Hndk & Hdisj & Hndr).
    specialize (Hk Hndk). specialize (IHr Hndr).
    destruct (subtree x k) as [s|] eqn:Es.
    + (* [x] is in the first child *)
      rewrite Hk. destruct (chain y k) eqn:Ec; [|done].
      split; [intros [H _]; by inversion H|]. intros [Hx Hy]. exfalso.
      assert (Hxk : x ∈ names k).
      { destruct (decide (x ∈ names k)) as [|Hout]; [done|].
        pose proof (subtree_kids_none x [k]) as Hs. simpl in Hs.
        rewrite Es in Hs. discriminate Hs. by constructor. }
      apply (Hdisj _ Hxk). eapply chain_in_names_kids, Hx.
    + destruct (chain y k) eqn:Ec; [exact IHr|].
      rewrite <- Hk. split; [|by inversion 1].
      intros Hsub. exfalso.
      assert (Hyk : y ∈ names k).
      { destruct (decide (y ∈ names k)) as [|Hout]; [done|].
        apply chain_nil in Hout. congruence. }
      apply IHr in Hsub as [Hx _]. apply (Hdisj _ Hyk).
      assert (Hyr : y ∈ concat (map names r)).
      { destruct (decide (y ∈ concat (map names r))) as [|Hout]; [done|].
        rewrite (chain_kids_absent _ _ Hout) in Hx. by inversion Hx. }
      done.
Qed.

End TreeFacts.

(** ** Facts about documents *)

Section DomFacts.

Lemma get_modify i f d j :
  get (modify i f d) j = if decide (i = j) then f (get d j) else get d j.
Proof.
  unfold get, modify. simpl. destruct (decide (i = j)) as [->|Hne].
  - by rewrite lookup_total_insert_eq.
  - by rewrite lookup_total_insert_ne.
Qed.

Lemma get_modify_eq i f d : get (modify i f d) i = f (get d i).
Proof. rewrite get_modify. by rewrite decide_True. Qed.

Lemma get_modify_ne i f d j : i <> j -> get (modify i f d) j = get d j.
Proof. intros H. rewrite get_modify. by rewrite decide_False. Qed.

Lemma proj_modify {A} (pi : elem -> A) j f d i :
  (forall e, pi (f e) = pi e) -> pi (get (modify j f d) i) = pi (get d i).
Proof. intros Hf. rewrite get_modify. case_decide; [apply Hf | done]. Qed.

Lemma proj_fold_modify {A} (pi : elem -> A) f l : forall d i,
  (forall e, pi (f e) = pi e) ->
  pi (get (fold_left (fun d x => modify x f d) l d) i) = pi (get d i).
Proof.
  induction l as [|x l IH]; intros d i Hf; simpl; [done|].
  rewrite IH by done. by apply proj_modify.
Qed.

Lemma matches_static sel e e' :
  static sel = true -> at_ e = at_ e' -> matches sel e = matches sel e'.
Proof.
  intros Hs Ha. unfold matches. induction sel as [|s sel IH]; simpl in *; [done|].
  apply andb_true_iff in Hs as [H1 H2]. rewrite (IH H2). f_equal.
  destruct s; simpl in *; by rewrite ?Ha.
Qed.

Lemma cosmetic_btgDone : cosmetic (set_btgDone (Some "1")).
Proof. by intros e. Qed.
Lemma cosmetic_btgOwnerDone v : cosmetic (set_btgOwnerDone v).
Proof. by intros e. Qed.
Lemma cosmetic_btgClickBlocked v : cosmetic (set_btgClickBlocked v).
Proof. by intros e. Qed.
Lemma cosmetic_display v : cosmetic (set_display v).
Proof. by intros e. Qed.
Lemma cosmetic_pointerEvents v : cosmetic (set_pointerEvents v).
Proof. by intros e. Qed.

Lemma wf_below d x : wf d -> x ∈ names (shape d) -> x < next d.
Proof. intros [_ H] Hx. by eapply Forall_forall in H. Qed.

Lemma evolves_refl d : wf d -> evolves d d.
Proof.
  intros Hwf. split; [done|]. repeat split; try done.
  intros x Hx Hn. apply (wf_below _ _ Hwf) in Hx. lia.
Qed.

Lemma evolves_trans d d1 d2 : evolves d d1 -> evolves d1 d2 -> evolves d d2.
Proof.
  intros [_ (L1 & L2 & L3 & L4 & L5)] [Hwf (M1 & M2 & M3 & M4 & M5)].
  split; [done|]. repeat split.
  - lia.
  - intros y Hy. rewrite M2 by lia. by apply L2.
  - intros y Hy Ht. apply M3; [lia|]. by apply L3.
  - destruct (M4 x) as [Hx _]; [done | lia|]. by apply L4.
  - destruct (M4 x) as [Hx ->]; [done | lia|]. by apply L4.
  - intros x Hx Hn. destruct (decide (x < next d1)) as [Hlt|Hge].
    + destruct (M4 x Hx Hlt) as [Hx1 _].
      rewrite (matches_static _ _ (get d1 x)); [by apply L5 | done | by apply M2].
    + apply M5; [done | lia].
Qed.

(** Chaining: the next step may rely on the document being well formed. *)
Lemma evolves_then d d1 d2 : evolves d d1 -> (wf d1 -> evolves d1 d2) -> evolves d d2.
Proof. intros H1 H2. eapply evolves_trans; [exact H1 | apply H2, H1]. Qed.

Lemma evolves_modify i f d : wf d -> cosmetic f -> evolves d (modify i f d).
Proof.
  intros Hwf Hf. split; [exact Hwf|]. repeat split; simpl; try done.
  - intros y _. rewrite get_modify. case_decide; [apply Hf | done].
  - intros y _ Ht. rewrite get_modify. case_decide; [by apply Hf | done].
  - intros x Hx Hn. apply (wf_below _ _ Hwf) in Hx. lia.
Qed.

Lemma evolves_createElement e d :
  wf d -> evolves d (createElement e d).2.
Proof.
  intros Hwf. unfold createElement. simpl. split; [|repeat split; simpl].
  - destruct Hwf as [H1 H2]. split; [done|]. simpl.
    eapply Forall_impl; [exact H2 | simpl; lia].
  - lia.
  - intros y Hy. unfold get. simpl. rewrite lookup_total_insert_ne by lia. done.
  - intros y Hy. unfold get. simpl. rewrite lookup_total_insert_ne by lia. done.
  - done.
  - intros x Hx Hn. apply (wf_below _ _ Hwf) in Hx. lia.
Qed.

Lemma names_appendChild p e d x :
  wf d ->
  x ∈ names (shape (state_of (appendChild p (next d) (createElement e d).2))) ->
  x ∈ names (shape d) \/ x = next d.
Proof.
  intros Hwf.
  destruct p as [p|]; simpl; [|by left].
  destruct (decide (p ∈ names (shape d))) as [Hp|Hp].
  - destruct (names_append_child p (next d) (shape d)) as (l1 & l2 & -> & ->);
      [apply Hwf | done|].
    rewrite !elem_of_app, elem_of_cons. tauto.
  - rewrite append_child_absent by done. tauto.
Qed.

Lemma wf_appendChild p e d :
  wf d -> wf (state_of (appendChild p (next d) (createElement e d).2)).
Proof.
  intros Hwf. split.
  - destruct p as [p|]; simpl; [|apply Hwf].
    destruct (decide (p ∈ names (shape d))) as [Hp|Hp].
    + destruct (names_append_child p (next d) (shape d)) as (l1 & l2 & E1 & ->);
        [apply Hwf | done|].
      rewrite <- Permutation_middle. apply NoDup_cons. rewrite <- E1.
      split; [|apply Hwf]. intros H. apply (wf_below _ _ Hwf) in H. lia.
    + rewrite append_child_absent by done. apply Hwf.
  - apply Forall_forall. intros x Hx.
    apply names_appendChild in Hx; [|done]. destruct Hx as [Hx| ->].
    + apply (wf_below _ _ Hwf) in Hx. destruct p; simpl; lia.
    + destruct p; simpl; lia.
Qed.

Lemma get_appendChild p e d x :
  get (state_of (appendChild p (next d) (createElement e d).2)) x
  = if decide (x = next d) then e else get d x.
Proof.
  unfold get. destruct p; simpl; case_decide as H.
  - subst. by rewrite lookup_total_insert_eq.
  - by rewrite lookup_total_insert_ne.
  - subst. by rewrite lookup_total_insert_eq.
  - by rewrite lookup_total_insert_ne.
Qed.

(** Appending the element just created, provided it is no scan candidate. *)
Lemma evolves_appendChild p e d :
  wf d -> matches sel_candidate e = false ->
  evolves d (state_of (appendChild p (next d) (createElement e d).2)).
Proof.
  intros Hwf He. split; [by apply wf_appendChild|].
  assert (Hnext : next d <= next (state_of (appendChild p (next d) (createElement e d).2)))
    by (destruct p; simpl; lia).
  split; [done|]. split; [|split; [|split]].
  - intros y Hy. rewrite get_appendChild. case_decide; [lia | done].
  - intros y Hy. rewrite get_appendChild. case_decide; [lia | done].
  - intros x Hx Hlt. apply names_appendChild in Hx as [Hx|Hx]; [|lia|done].
    split; [done|]. destruct p; simpl; [|done].
    apply chain_append_child. lia.
  - intros x Hx Hge. apply names_appendChild in Hx as [Hx|Hx]; [| |done].
    + apply (wf_below _ _ Hwf) in Hx. lia.
    + subst x. rewrite get_appendChild. by rewrite decide_True.
Qed.

Lemma evolves_remove c d : wf d -> evolves d (remove c d).
Proof.
  intros Hwf. split; [|repeat split; try done].
  - split; simpl; [apply NoDup_prune, Hwf|].
    apply Forall_forall. intros x Hx%names_prune_elem. by apply wf_below.
  - eapply names_prune_elem. simpl in *. eassumption.
  - apply chain_prune; [apply Hwf | done].
  - intros x Hx%names_prune_elem Hn. apply (wf_below _ _ Hwf) in Hx. lia.
Qed.

Lemma find_ext_in {A} (f g : A -> bool) l :
  (forall y, y ∈ l -> f y = g y) -> find f l = find g l.
Proof.
  induction l as [|a l IH]; simpl; [done|]. intros H.
  rewrite (H a) by left. rewrite IH; [done|]. intros y Hy. apply H. by right.
Qed.

Lemma closest_in_chain d sel x a : closest d sel x = Some a -> a ∈ chain x (shape d).
Proof.
  intros H. apply closest_nearest in H as (b & c & -> & _).
  apply elem_of_app. right. left.
Qed.

Section Later.

Variables (d d' : dom).
Hypothesis Hwf : wf d.
Hypothesis Hlater : later d d'.
Variable x : nat.
Hypothesis Hin : x ∈ names (shape d').
Hypothesis Hold : x < next d.

Lemma chain_later : chain x (shape d') = chain x (shape d).
Proof. destruct Hlater as (_ & _ & _ & L4 & _). by apply L4. Qed.

Lemma at_later y : y ∈ chain x (shape d) -> at_ (get d' y) = at_ (get d y).
Proof.
  intros Hy%chain_in_names. destruct Hlater as (_ & L2 & _).
  apply L2. by apply wf_below.
Qed.

Lemma closest_later sel : static sel = true -> closest d' sel x = closest d sel x.
Proof.
  intros Hs. unfold closest. rewrite chain_later. apply find_ext_in.
  intros y Hy. apply matches_static; [done | by apply at_later].
Qed.

Lemma parentElement_later : parentElement d' x = parentElement d x.
Proof. unfold parentElement. by rewrite chain_later. Qed.

Lemma at_later_self : at_ (get d' x) = at_ (get d x).
Proof. destruct Hlater as (_ & L2 & _). by apply L2. Qed.

Lemma urls_of_later : urls_of d' x = urls_of d x.
Proof.
  unfold urls_of, url_sources. rewrite at_later_self, closest_later by done.
  destruct (closest d [TagIs "a"] x) as [a|] eqn:E; [|done]. simpl.
  by rewrite (at_later a (closest_in_chain _ _ _ _ E)).
Qed.

Lemma isInGifPicker_later this : isInGifPicker this d' x = isInGifPicker this d x.
Proof. unfold isInGifPicker. by rewrite !closest_later. Qed.

Lemma getOwnerNode_later this pk : getOwnerNode this d' x pk = getOwnerNode this d x pk.
Proof. unfold getOwnerNode. by rewrite !closest_later, parentElement_later. Qed.

(** An element at which [processElement] returned at a guard stays so. *)
Lemma skips_later this : skips this d x = true -> skips this d' x = true.
Proof.
  unfold skips. rewrite urls_of_later, isInGifPicker_later.
  rewrite !orb_true_iff. intros [[[H|H]|H]|H]; auto.
  left. left. left. destruct Hlater as (_ & _ & L3 & _). by apply L3.
Qed.

(** An element at which [processElement] did not raise stays so. *)
Lemma raises_later this : raises this d x = false -> raises this d' x = false.
Proof.
  unfold raises. rewrite urls_of_later.
  rewrite !andb_false_iff, !negb_false_iff. intros [H|H]; [left | by right].
  destruct Hlater as (_ & _ & L3 & _). by apply L3.
Qed.

End Later.

End DomFacts.

(** ** The scan pipeline *)

Section Scan.

Variable this : plugin.

Lemma processElement_unfold d el :
  processElement this d el =
  if raises this d el then Threw d
  else if skips this d el then Returned d
  else dedup_or_embed this (modify el (set_btgDone (Some "1")) d) el
                      (isInGifPicker this d el).
Proof.
  unfold processElement, skips, raises.
  destruct (Js.truthy (btgDone _)); [done|].
  destruct (some_raising (isGifUrl_of this) _) as [[]|]; [|done..].
  destruct (some_raising (isBlocked_of this) _) as [[]|]; [|done..].
  by destruct (isInGifPicker this d el && _).
Qed.

(** Past the guards no URL test has raised. *)
Lemma skips_raises d el : skips this d el = false -> raises this d el = false.
Proof.
  unfold skips, raises. destruct (Js.truthy (btgDone _)); [done|].
  destruct (some_raising (isGifUrl_of this) _) as [[]|]; [|done..].
  by destruct (some_raising (isBlocked_of this) _) as [[]|].
Qed.

Lemma processElement_raises d el :
  raises this d el = true -> processElement this d el = Threw d.
Proof. intros H. by rewrite processElement_unfold, H. Qed.

Lemma embed_elem_no_candidate w o pk c :
  matches sel_candidate (embed_elem w o pk c) = false.
Proof. by destruct pk. Qed.

(** The shape of [hideAndEmbed]: cosmetic updates, then the placeholder is
    created and appended. *)
Lemma hideAndEmbed_eq d el pk owner :
  exists wrapper target d2,
    hideAndEmbed this d el pk owner =
    appendChild target (next d2)
      (createElement (embed_elem wrapper owner pk (next d2)) d2).2
    /\ wrapper = (if pk then el else default el (closest d sel_wrapper el))
    /\ target = (if pk then owner ?? parentElement d el
                 else closest d sel_accessories wrapper ?? parentElement d wrapper)
    /\ d2 = match pk, owner with
            | true, Some o =>
                modify o (set_pointerEvents "none")
                  (modify o (set_btgClickBlocked (Some "1"))
                     (modify wrapper (set_display "none") d))
            | _, _ => modify wrapper (set_display "none") d
            end.
Proof. do 3 eexists. split; [reflexivity|]. done. Qed.

(** [hideAndEmbed] returns exactly when there is an element to insert the
    placeholder into. *)
Lemma hideAndEmbed_returns d el pk owner :
  (exists d', hideAndEmbed this d el pk owner = Returned d') <->
  is_Some (if pk then owner ?? parentElement d el
           else closest d sel_accessories
                        (default el (closest d sel_wrapper el))
                ?? parentElement d (default el (closest d sel_wrapper el))).
Proof.
  destruct (hideAndEmbed_eq d el pk owner) as (w & t & d2 & -> & Ew & Et & _).
  assert (Hr : (exists d', appendChild t (next d2)
                   (createElement (embed_elem w owner pk (next d2)) d2).2
                 = Returned d') <-> is_Some t).
  { destruct t; simpl; split.
    - by intros _.
    - intros _. by eexists.
    - by intros [d' H].
    - by intros [x H]. }
  rewrite Hr. subst t w. by destruct pk.
Qed.

Lemma hideAndEmbed_succ d el pk owner :
  wf d -> evolves d (state_of (hideAndEmbed this d el pk owner)).
Proof.
  intros Hwf.
  destruct (hideAndEmbed_eq d el pk owner) as (w & t & d2 & -> & _ & _ & E2).
  assert (H1 : evolves d (modify w (set_display "none") d))
    by (apply evolves_modify; [done | apply cosmetic_display]).
  assert (H2 : evolves d d2).
  { subst d2. destruct pk, owner as [o|]; try done.
    eapply evolves_then; [exact H1|]. intros Hwf1.
    eapply evolves_then; [apply evolves_modify; [done | apply cosmetic_btgClickBlocked]|].
    intros Hwf2. apply evolves_modify; [done | apply cosmetic_pointerEvents]. }
  eapply evolves_then; [exact H2|]. intros Hwf2.
  apply evolves_appendChild; [done | apply embed_elem_no_candidate].
Qed.

Lemma dedup_or_embed_succ d el pk :
  wf d -> evolves d (state_of (dedup_or_embed this d el pk)).
Proof.
  intros Hwf. unfold dedup_or_embed.
  destruct (Js.truthy _).
  - destruct pk; simpl; apply evolves_modify; auto using cosmetic_display.
  - destruct (getOwnerNode this d el pk) as [o|].
    + eapply evolves_then; [apply evolves_modify; [done | apply cosmetic_btgOwnerDone]|].
      intros Hwf1. by apply hideAndEmbed_succ.
    + by apply hideAndEmbed_succ.
Qed.

(** Whatever [processElement] does, and whether it returns or raises, it
    leaves a well-formed later state. *)
Lemma processElement_succ d el :
  wf d -> evolves d (state_of (processElement this d el)).
Proof.
  intros Hwf. rewrite processElement_unfold.
  destruct (raises this d el); [by apply evolves_refl|].
  destruct (skips this d el).
  - by apply evolves_refl.
  - eapply evolves_then; [apply evolves_modify; [done | apply cosmetic_btgDone]|].
    intros Hwf1. by apply dedup_or_embed_succ.
Qed.

Lemma names_append_child_keeps p c t x :
  x ∈ names t -> x ∈ names (append_child p c t).
Proof.
  induction t as [n ks IH] using tree_induction.
  rewrite append_child_eq, !names_eq. intros [->|Hx]%elem_of_cons; [left|].
  right. assert (Hk : x ∈ concat (map names (map (append_child p c) ks))).
  { induction IH as [|k r Hk _ IHr]; simpl in *; [done|].
    apply elem_of_app in Hx as [Hx|Hx]; apply elem_of_app; [left|right]; auto. }
  destruct (n =? p); [|done]. rewrite map_app, concat_app, elem_of_app. by left.
Qed.

Lemma hideAndEmbed_shape d el pk owner :
  exists t, shape (state_of (hideAndEmbed this d el pk owner)) =
            match t with
            | Some p => append_child p (next d) (shape d)
            | None => shape d
            end.
Proof.
  destruct (hideAndEmbed_eq d el pk owner) as (w & t & d2 & -> & _ & _ & E2).
  exists t. assert (E : shape d2 = shape d /\ next d2 = next d).
  { subst d2. by destruct pk, owner. }
  destruct E as [E1 E3]. destruct t; simpl; by rewrite ?E1, ?E3.
Qed.

Lemma processElement_shape d el :
  exists t, shape (state_of (processElement this d el)) =
            match t with
            | Some p => append_child p (next d) (shape d)
            | None => shape d
            end.
Proof.
  rewrite processElement_unfold.
  destruct (raises this d el); [by exists None|].
  destruct (skips this d el); [by exists None|].
  unfold dedup_or_embed. destruct (Js.truthy _).
  - exists None. by destruct (isInGifPicker this d el).
  - match goal with
    | |- context [hideAndEmbed this ?d0 ?e ?k ?o] =>
        destruct (hideAndEmbed_shape d0 e k o) as [t ->]
    end.
    exists t. by destruct (getOwnerNode _ _ _ _).
Qed.

Lemma processElement_keeps d el x :
  x ∈ names (shape d) -> x ∈ names (shape (state_of (processElement this d el))).
Proof.
  intros Hx. destruct (processElement_shape d el) as [[p|] ->]; [|done].
  by apply names_append_child_keeps.
Qed.

Lemma processElement_skips d el :
  skips this d el = true -> raises this d el = false ->
  processElement this d el = Returned d.
Proof. intros H R. by rewrite processElement_unfold, R, H. Qed.

(** After [processElement] has returned, it returns at a guard. *)
Lemma processElement_settles d el d' :
  wf d -> el ∈ names (shape d) ->
  processElement this d el = Returned d' ->
  skips this d' el = true /\ raises this d' el = false.
Proof.
  intros Hwf Hel. rewrite processElement_unfold.
  destruct (raises this d el) eqn:Hr; [done|].
  destruct (skips this d el) eqn:Hs; [by intros [= <-]|].
  intros E. set (d1 := modify el (set_btgDone (Some "1")) d) in *.
  assert (Hwf1 : wf d1) by apply Hwf.
  pose proof (dedup_or_embed_succ d1 el (isInGifPicker this d el) Hwf1) as [_ L].
  rewrite E in L. simpl in L. destruct L as (_ & _ & L3 & _).
  assert (Hd : Js.truthy (btgDone (data (get d' el))) = true).
  { apply (L3 el); [by apply (wf_below d)|]. subst d1. by rewrite get_modify_eq. }
  unfold skips, raises. by rewrite Hd.
Qed.

Lemma forEach_scan l : forall d d1,
  wf d -> (forall el, el ∈ l -> el ∈ names (shape d)) ->
  forEach (processElement this) l d = Returned d1 ->
  evolves d d1
  /\ (forall x, x ∈ names (shape d) -> x ∈ names (shape d1))
  /\ (forall el, el ∈ l ->
        skips this d1 el = true /\ raises this d1 el = false).
Proof.
  induction l as [|x r IH]; intros d d1 Hwf Hl; simpl.
  - intros [= <-]. split; [by apply evolves_refl|]. split; [done | by inversion 1].
  - destruct (processElement this d x) as [d'|d'] eqn:E; [|done]. intros Hr.
    pose proof (processElement_succ d x Hwf) as S1. rewrite E in S1. simpl in S1.
    assert (K1 : forall y, y ∈ names (shape d) -> y ∈ names (shape d')).
    { intros y Hy. pose proof (processElement_keeps d x y Hy) as K.
      by rewrite E in K. }
    destruct (IH d' d1) as (S2 & K2 & H2); [apply S1 | | done |].
    { intros el Hel. apply K1, Hl. by right. }
    split; [by eapply evolves_trans|]. split; [auto|].
    intros el [->|Hel]%elem_of_cons; [|by apply H2].
    assert (Hx : x ∈ names (shape d)) by (apply Hl; left).
    destruct (processElement_settles d x d' Hwf Hx E) as [Q1 Q2].
    assert (Hlt : x < next d') by (apply wf_below; [apply S1 | auto]).
    split.
    + apply (skips_later d' d1); [apply S1 | apply S2 | auto | done | done].
    + apply (raises_later d' d1); [apply S1 | apply S2 | auto | done | done].
Qed.

Lemma forEach_skips l d :
  (forall el, el ∈ l -> skips this d el = true /\ raises this d el = false) ->
  forEach (processElement this) l d = Returned d.
Proof.
  induction l as [|x r IH]; simpl; [done|]. intros H.
  destruct (H x) as [H1 H2]; [left|].
  rewrite processElement_skips by done.
  apply IH. intros el Hel. apply H. by right.
Qed.

Lemma set_add_elem (x y : nat) l : x ∈ set_add y l <-> x ∈ l \/ x = y.
Proof.
  unfold set_add. case_bool_decide as H.
  - split; [auto | intros [?| ->]; auto].
  - rewrite elem_of_app, list_elem_of_singleton. tauto.
Qed.

Lemma fold_set_add_elem (x : nat) l init :
  x ∈ fold_left (fun acc el => set_add el acc) l init <-> x ∈ init \/ x ∈ l.
Proof.
  revert init. induction l as [|y l IH]; intros init; simpl.
  - split; [auto | intros [?|H]; [done | by inversion H]].
  - rewrite IH, set_add_elem, elem_of_cons. tauto.
Qed.

Lemma candidates_elem d c x :
  x ∈ candidates d c <->
  (x = c /\ matches sel_candidate (get d c) = true)
  \/ (x ∈ descendants c (shape d) /\ matches sel_candidate (get d x) = true).
Proof.
  unfold candidates, querySelectorAll.
  rewrite fold_set_add_elem, list_elem_of_filter.
  destruct (matches sel_candidate (get d c)).
  - rewrite set_add_elem. split.
    + intros [[H| ->]|[? ?]]; [by inversion H | by left | by right].
    + intros [[-> _]|[? ?]]; [left; by right | by right].
  - split.
    + intros [H|[? ?]]; [by inversion H | by right].
    + intros [[_ ?]|[? ?]]; [done | by right].
Qed.

Lemma processContainer_eq d c :
  processContainer this d c =
  if negb (isHTMLElement (at_ (get d c))) then Returned d
  else forEach (processElement this) (candidates d c) d.
Proof. reflexivity. Qed.

Lemma descendants_in_names t x y :
  NoDup (names t) -> y ∈ descendants x t -> y ∈ names t.
Proof.
  intros Hnd [Hx _]%descendants_chain; [|done].
  destruct (decide (y ∈ names t)) as [|Hout]; [done|].
  apply chain_nil in Hout. rewrite Hout in Hx. by inversion Hx.
Qed.

(** The candidates of a later scan of [c] were candidates of the scan of
    [c] in the earlier state. *)
Lemma candidates_later d d1 c x :
  wf d -> evolves d d1 -> c ∈ names (shape d) -> c ∈ names (shape d1) ->
  x ∈ candidates d1 c -> x ∈ candidates d c.
Proof.
  intros Hwf [Hwf1 L] Hc Hc1. rewrite !candidates_elem.
  pose proof L as (_ & L2 & _ & L4 & L5).
  intros [[-> Hm]|[Hx Hm]].
  - left. split; [done|]. rewrite <- Hm. symmetry.
    apply matches_static; [done|]. apply L2. by apply wf_below.
  - right. pose proof (descendants_in_names _ _ _ (proj1 Hwf1) Hx) as Hx1.
    destruct (decide (x < next d)) as [Hlt|Hge].
    + destruct (L4 x Hx1 Hlt) as [Hx0 Hch]. split.
      * apply descendants_chain; [apply Hwf|].
        apply descendants_chain in Hx; [|apply Hwf1]. by rewrite <- Hch.
      * rewrite <- Hm. symmetry. apply matches_static; [done | by apply L2].
    + rewrite L5 in Hm; [done | done | lia].
Qed.

Lemma settled_scan d c : settled this d c -> processContainer this d c = Returned d.
Proof.
  rewrite processContainer_eq. intros [->|H]; [done|].
  destruct (negb _); [done | by apply forEach_skips].
Qed.

(** A scan that has returned leaves nothing to do. *)
Lemma scan_settled d c d1 :
  wf d -> c ∈ names (shape d) ->
  processContainer this d c = Returned d1 ->
  evolves d d1 /\ c ∈ names (shape d1) /\ settled this d1 c.
Proof.
  intros Hwf Hc. rewrite processContainer_eq.
  destruct (isHTMLElement (at_ (get d c))) eqn:Hh; simpl.
  - intros Hrun.
    destruct (forEach_scan (candidates d c) d d1 Hwf) as (S & K & Hs); [|done|].
    { intros el [[-> _]|[Hel _]]%candidates_elem; [done|].
      eapply descendants_in_names; [apply Hwf | done]. }
    split; [done|]. split; [auto|]. right.
    intros el Hel. apply Hs. apply (candidates_later d d1); auto.
  - intros [= <-]. split; [by apply evolves_refl|]. split; [done | by left].
Qed.

(** Nothing is left to do in a later state either, while the container is
    in the document. *)
Lemma settled_later d d' c :
  wf d -> evolves d d' -> c ∈ names (shape d) -> c ∈ names (shape d') ->
  settled this d c -> settled this d' c.
Proof.
  intros Hwf S Hc Hc' [Hh|Hs].
  - left. destruct S as [_ (_ & L2 & _)]. rewrite L2; [done | by apply wf_below].
  - right. intros el Hel.
    assert (Hel0 : el ∈ candidates d c) by (by apply (candidates_later d d')).
    assert (Hin : el ∈ names (shape d')).
    { apply candidates_elem in Hel as [[-> _]|[Hel _]]; [done|].
      eapply descendants_in_names; [apply S | done]. }
    assert (Hlt : el < next d).
    { apply wf_below; [done|].
      apply candidates_elem in Hel0 as [[-> _]|[Hel0' _]]; [done|].
      eapply descendants_in_names; [apply Hwf | done]. }
    destruct (Hs el Hel0) as [H1 H2]. split.
    + by apply (skips_later d d'); [done | apply S | | |].
    + by apply (raises_later d d'); [done | apply S | | |].
Qed.

(** X26.  A scan of an element of a well-formed document that has returned
    is idempotent: scanning the same element again, in the document the
    first scan left, returns and leaves that document as it is; nothing
    is marked, hidden or embedded a second time. *)
Theorem processContainer_idempotent d c d1 :
  wf d -> c ∈ names (shape d) ->
  processContainer this d c = Returned d1 ->
  processContainer this d1 c = Returned d1.
Proof.
  intros Hwf Hc Hrun. apply settled_scan.
  by destruct (scan_settled d c d1) as (_ & _ & H).
Qed.

End Scan.

(** ** The reveal control *)

Section Reveal.

Lemma fold_modify_succ f l : forall d,
  wf d -> cosmetic f -> evolves d (fold_left (fun d x => modify x f d) l d).
Proof.
  induction l as [|x l IH]; intros d Hwf Hf; simpl; [by apply evolves_refl|].
  eapply evolves_then; [by apply evolves_modify|]. intros Hwf1. by apply IH.
Qed.

Lemma done_modify j f d i :
  keeps_done f -> btgDone (data (get (modify j f d) i)) = btgDone (data (get d i)).
Proof. intros Hf. rewrite get_modify. case_decide; [apply Hf | done]. Qed.

Lemma done_fold_modify f l : forall d i,
  keeps_done f ->
  btgDone (data (get (fold_left (fun d x => modify x f d) l d) i))
  = btgDone (data (get d i)).
Proof.
  induction l as [|x l IH]; intros d i Hf; simpl; [done|].
  rewrite IH by done. by apply done_modify.
Qed.

(** The shape of the reveal handler: cosmetic updates around the removal of
    the placeholder. *)
Lemma reveal_eq w o pk k d :
  exists l d3,
    d3 = (match o with
          | Some o' => modify o' (set_btgOwnerDone None)
          | None => fun d => d
          end)
           (fold_left (fun d x => modify x (set_display "") d) l
                      (modify w (set_display "") d))
    /\ reveal w o pk k d =
       match pk, o with
       | true, Some o' =>
           modify o' (set_btgClickBlocked None)
                  (modify o' (set_pointerEvents "") (remove k d3))
       | _, _ => remove k d3
       end.
Proof. do 2 eexists. split; [reflexivity|]. unfold reveal. by destruct o, pk. Qed.

Lemma reveal_succ w o pk k d : wf d -> evolves d (reveal w o pk k d).
Proof.
  intros Hwf. destruct (reveal_eq w o pk k d) as (l & d3 & E3 & ->).
  assert (S3 : evolves d d3).
  { subst d3. eapply evolves_then; [apply evolves_modify; [done | apply cosmetic_display]|].
    intros Hwf1.
    eapply evolves_then; [apply fold_modify_succ; [done | apply cosmetic_display]|].
    intros Hwf2. destruct o; [|by apply evolves_refl].
    apply evolves_modify; [done | apply cosmetic_btgOwnerDone]. }
  eapply evolves_then; [exact S3|]. intros Hwf3.
  eapply evolves_then; [by apply evolves_remove|]. intros Hwf4.
  destruct pk, o; try (by apply evolves_refl).
  eapply evolves_then; [apply evolves_modify; [done | apply cosmetic_pointerEvents]|].
  intros Hwf5. apply evolves_modify; [done | apply cosmetic_btgClickBlocked].
Qed.

(** The handler never touches a processed marker. *)
Lemma reveal_keeps_done w o pk k d i :
  btgDone (data (get (reveal w o pk k d) i)) = btgDone (data (get d i)).
Proof.
  destruct (reveal_eq w o pk k d) as (l & d3 & E3 & ->).
  assert (H3 : btgDone (data (get d3 i)) = btgDone (data (get d i))).
  { subst d3. destruct o; [rewrite done_modify by done|];
      rewrite done_fold_modify by done; by apply done_modify. }
  destruct pk, o; rewrite ?done_modify by done; exact H3.
Qed.

(** It detaches the placeholder and nothing else. *)
Lemma reveal_shape w o pk k d : shape (reveal w o pk k d) = prune k (shape d).
Proof.
  destruct (reveal_eq w o pk k d) as (l & d3 & E3 & ->).
  assert (H3 : shape d3 = shape d).
  { subst d3. assert (forall d0, shape (fold_left (fun d x => modify x (set_display "") d) l d0) = shape d0) as Hf.
    { induction l as [|x l IH]; intros d0; simpl; [done|]. by rewrite IH. }
    destruct o; simpl; by rewrite Hf. }
  destruct pk, o; simpl; by rewrite H3.
Qed.

Lemma get_remove k d y : get (remove k d) y = get d y.
Proof. reflexivity. Qed.

Lemma reveal_next w o pk k d : next (reveal w o pk k d) = next d.
Proof.
  destruct (reveal_eq w o pk k d) as (l & d3 & E3 & ->).
  assert (H3 : next d3 = next d).
  { subst d3. assert (forall d0, next (fold_left (fun d x => modify x (set_display "") d) l d0) = next d0) as Hf.
    { induction l as [|x l IH]; intros d0; simpl; [done|]. by rewrite IH. }
    destruct o; simpl; by rewrite Hf. }
  destruct pk, o; simpl; by rewrite H3.
Qed.

(** What none of the four setters of the handler writes stays as it is. *)
Lemma reveal_proj {A} (pi : elem -> A) w o pk k d y :
  (forall v e, pi (set_display v e) = pi e) ->
  (forall v e, pi (set_btgOwnerDone v e) = pi e) ->
  (forall v e, pi (set_pointerEvents v e) = pi e) ->
  (forall v e, pi (set_btgClickBlocked v e) = pi e) ->
  pi (get (reveal w o pk k d) y) = pi (get d y).
Proof.
  intros H1 H2 H3 H4. destruct (reveal_eq w o pk k d) as (l & d3 & E3 & ->).
  assert (E : pi (get d3 y) = pi (get d y)).
  { subst d3. destruct o; rewrite ?(proj_modify pi) by done;
      by rewrite (proj_fold_modify pi), (proj_modify pi). }
  destruct pk, o; by rewrite ?(proj_modify pi).
Qed.

(** The owner marker goes from the owner and from no other element. *)
Lemma reveal_ownerDone_get w o pk k d y :
  btgOwnerDone (data (get (reveal w o pk k d) y))
  = if bool_decide (o = Some y) then None else btgOwnerDone (data (get d y)).
Proof.
  destruct (reveal_eq w o pk k d) as (l & d3 & E3 & ->).
  assert (E : btgOwnerDone (data (get d3 y))
              = if bool_decide (o = Some y) then None
                else btgOwnerDone (data (get d y))).
  { subst d3. destruct o as [o'|].
    - rewrite get_modify. case_decide as Ho.
      + subst. by rewrite bool_decide_eq_true_2.
      + rewrite bool_decide_eq_false_2 by congruence.
        by rewrite (proj_fold_modify (fun e => btgOwnerDone (data e))),
                   (proj_modify (fun e => btgOwnerDone (data e))).
    - rewrite bool_decide_eq_false_2 by done.
      by rewrite (proj_fold_modify (fun e => btgOwnerDone (data e))),
                 (proj_modify (fun e => btgOwnerDone (data e))). }
  destruct pk, o;
    by rewrite ?(proj_modify (fun e => btgOwnerDone (data e))).
Qed.

(** In the picker the click-blocked marker and the pointer suppression go
    from the owner; nothing of the two changes anywhere else. *)
Lemma reveal_pointer_get w o pk k d y :
  btgClickBlocked (data (get (reveal w o pk k d) y))
  = (if pk && bool_decide (o = Some y) then None
     else btgClickBlocked (data (get d y)))
  /\ pointerEvents (css (get (reveal w o pk k d) y))
     = (if pk && bool_decide (o = Some y) then ""
        else pointerEvents (css (get d y))).
Proof.
  destruct (reveal_eq w o pk k d) as (l & d3 & E3 & ->).
  assert (E : btgClickBlocked (data (get d3 y)) = btgClickBlocked (data (get d y))
              /\ pointerEvents (css (get d3 y)) = pointerEvents (css (get d y))).
  { subst d3. destruct o;
      rewrite ?(proj_modify (fun e => btgClickBlocked (data e))),
              ?(proj_modify (fun e => pointerEvents (css e))) by done;
      by rewrite (proj_fold_modify (fun e => btgClickBlocked (data e))),
                 (proj_fold_modify (fun e => pointerEvents (css e))),
                 (proj_modify (fun e => btgClickBlocked (data e))),
                 (proj_modify (fun e => pointerEvents (css e))). }
  destruct E as [E1 E2]. destruct pk, o as [o'|]; cbn [andb]; try done.
  rewrite !get_modify. case_decide as Ho.
  - subst. by rewrite bool_decide_eq_true_2.
  - rewrite bool_decide_eq_false_2 by congruence. split; [exact E1 | exact E2].
Qed.

Lemma fold_display_get l : forall d y,
  display (css (get (fold_left (fun d x => modify x (set_display "") d) l d) y))
  = if bool_decide (y ∈ l) then "" else display (css (get d y)).
Proof.
  induction l as [|x l IH]; intros d y; cbn [fold_left].
  - rewrite bool_decide_eq_false_2; [done | by inversion 1].
  - rewrite IH. case_bool_decide as Hl.
    + by rewrite bool_decide_eq_true_2 by (by right).
    + rewrite get_modify. case_decide as Hx.
      * subst. by rewrite bool_decide_eq_true_2 by left.
      * rewrite bool_decide_eq_false_2; [done|].
        intros [?|?]%elem_of_cons; [congruence | done].
Qed.

Lemma querySelectorAll_done_modify i v d x :
  querySelectorAll (modify i (set_display v) d) [HasData KDone] x
  = querySelectorAll d [HasData KDone] x.
Proof.
  unfold querySelectorAll. cbn [modify shape]. apply list_filter_iff.
  intros j. unfold matches. cbn [existsb matches1 read_data].
  by rewrite (proj_modify (fun e => btgDone (data e))).
Qed.

(** The display is reset for the wrapper and for what carries the processed
    marker below it, and for no other element. *)
Lemma reveal_display_get w o pk k d y :
  display (css (get (reveal w o pk k d) y))
  = if bool_decide (y = w \/ y ∈ querySelectorAll d [HasData KDone] w)
    then "" else display (css (get d y)).
Proof.
  unfold reveal. rewrite querySelectorAll_done_modify.
  set (l := querySelectorAll d [HasData KDone] w).
  set (d1 := fold_left _ l _).
  assert (E1 : display (css (get d1 y))
               = if bool_decide (y = w \/ y ∈ l) then ""
                 else display (css (get d y))).
  { subst d1. rewrite fold_display_get. case_bool_decide as Hl.
    - by rewrite bool_decide_eq_true_2 by (by right).
    - rewrite get_modify. case_decide as Hw.
      + subst. by rewrite bool_decide_eq_true_2 by (by left).
      + rewrite bool_decide_eq_false_2; [done|]. intros [?|?]; [congruence|done]. }
  clearbody d1. rewrite <- E1.
  destruct o, pk;
    rewrite ?(proj_modify (fun e => display (css e))) by done;
    rewrite ?get_remove;
    by rewrite ?(proj_modify (fun e => display (css e))).
Qed.

End Reveal.

(** ** The clearing phase *)

Section Clear.

Lemma clearAll_eq d :
  exists dA dB dC,
    dA = fold_left (fun d e => remove e d)
                   (document_querySelectorAll d [HasData KEmbed]) d
    /\ dB = fold_left unmark (document_querySelectorAll dA [HasData KDone]) dA
    /\ dC = fold_left (fun d el => modify el (set_btgOwnerDone None) d)
                      (document_querySelectorAll dB [HasData KOwnerDone]) dB
    /\ clearAll d =
       fold_left (fun d el => modify el (set_btgClickBlocked None)
                                     (modify el (set_pointerEvents "") d))
                 (document_querySelectorAll dC [HasData KClickBlocked]) dC.
Proof. by do 3 eexists. Qed.

Lemma fold_done (h : dom -> nat -> dom) l :
  (forall d el i, btgDone (data (get (h d el) i)) = btgDone (data (get d i))) ->
  forall d i, btgDone (data (get (fold_left h l d) i)) = btgDone (data (get d i)).
Proof.
  intros Hh. induction l as [|x l IH]; intros d i; simpl; [done|].
  by rewrite IH, Hh.
Qed.

Lemma fold_shape (h : dom -> nat -> dom) l :
  (forall d el, shape (h d el) = shape d) ->
  forall d, shape (fold_left h l d) = shape d.
Proof.
  intros Hh. induction l as [|x l IH]; intros d; simpl; [done|].
  by rewrite IH, Hh.
Qed.

Lemma unmark_shape d el : shape (unmark d el) = shape d.
Proof. unfold unmark. by destruct (closest _ _ _). Qed.

Lemma unmark_done d el i :
  btgDone (data (get (unmark d el) i))
  = if decide (el = i) then None else btgDone (data (get d i)).
Proof.
  unfold unmark.
  set (d1 := modify el (set_btgDone None) (modify el (set_display "") d)).
  assert (H1 : btgDone (data (get d1 i))
               = if decide (el = i) then None else btgDone (data (get d i))).
  { subst d1. rewrite !get_modify. by case_decide. }
  destruct (closest d1 sel_wrapper_clear el); [|done].
  by rewrite done_modify.
Qed.

Lemma unmark_all l : forall d x,
  x ∈ l \/ btgDone (data (get d x)) = None ->
  btgDone (data (get (fold_left unmark l d) x)) = None.
Proof.
  induction l as [|el r IH]; intros d x; simpl.
  - intros [H|H]; [by inversion H | done].
  - intros H. apply IH. rewrite unmark_done. case_decide; [by right|].
    destruct H as [[?|?]%elem_of_cons|?]; [done | by left | by right].
Qed.

(** After the clearing phase no element of the document carries the
    processed marker. *)
Lemma clearAll_unmarks d :
  document_querySelectorAll (clearAll d) [HasData KDone] = [].
Proof.
  destruct (clearAll_eq d) as (dA & dB & dC & EA & EB & EC & ->).
  set (dD := fold_left _ _ dC).
  assert (Hshape : shape dD = shape dA).
  { subst dD. rewrite fold_shape by done. subst dC. rewrite fold_shape by done.
    subst dB. by rewrite fold_shape by apply unmark_shape. }
  assert (Hdone : forall x, x ∈ names (shape dA) -> btgDone (data (get dD x)) = None).
  { intros x Hx. subst dD. rewrite fold_done.
    2:{ intros. by rewrite !done_modify. }
    subst dC. rewrite fold_done by (intros; by apply done_modify).
    subst dB. apply unmark_all. unfold document_querySelectorAll.
    rewrite list_elem_of_filter. unfold matches. simpl.
    destruct (btgDone (data (get dA x))) eqn:E; [left | by right].
    split; [|done]. by rewrite bool_decide_eq_true_2. }
  unfold document_querySelectorAll. rewrite Hshape.
  induction (names (shape dA)) as [|x l IH]; [done|].
  rewrite filter_cons. rewrite IH by (intros y Hy; apply Hdone; by right).
  case_decide as Hm; [|done]. exfalso.
  unfold matches in Hm. simpl in Hm. rewrite Hdone in Hm by left. done.
Qed.

Lemma fold_proj {A} (pi : elem -> A) (h : dom -> nat -> dom) l :
  (forall d el i, pi (get (h d el) i) = pi (get d i)) ->
  forall d i, pi (get (fold_left h l d) i) = pi (get d i).
Proof.
  intros Hh. induction l as [|x l IH]; intros d i; simpl; [done|].
  by rewrite IH, Hh.
Qed.

Lemma cleared_fold (pi : elem -> option string) (h : dom -> nat -> dom) l :
  (forall d el i,
     pi (get (h d el) i) = if decide (el = i) then None else pi (get d i)) ->
  forall d x, x ∈ l \/ pi (get d x) = None -> pi (get (fold_left h l d) x) = None.
Proof.
  intros Hh. induction l as [|el r IH]; intros d x; simpl.
  - intros [H|H]; [by inversion H | done].
  - intros H. apply IH. rewrite Hh. case_decide; [by right|].
    destruct H as [[?|?]%elem_of_cons|?]; [done | by left | by right].
Qed.

Lemma qsa_data_nil d k :
  (forall x, x ∈ names (shape d) -> read_data k (get d x) = None) ->
  document_querySelectorAll d [HasData k] = [].
Proof.
  unfold document_querySelectorAll. intros H.
  induction (names (shape d)) as [|x l IH]; [done|].
  rewrite filter_cons. rewrite IH by (intros y Hy; apply H; by right).
  case_decide as Hm; [|done]. exfalso.
  unfold matches in Hm. simpl in Hm. rewrite H in Hm by left. done.
Qed.

Lemma qsa_data_elem d k x :
  x ∈ names (shape d) ->
  x ∈ document_querySelectorAll d [HasData k] \/ read_data k (get d x) = None.
Proof.
  intros Hx. unfold document_querySelectorAll. rewrite list_elem_of_filter.
  unfold matches. simpl. destruct (read_data k (get d x)) eqn:E; [left | by right].
  split; [|done]. by rewrite bool_decide_eq_true_2.
Qed.

(** After the clearing phase no element of the document carries the
    processed, the owner-processed or the click-blocked marker. *)
Lemma clearAll_no_marker d k :
  k <> KEmbed -> document_querySelectorAll (clearAll d) [HasData k] = [].
Proof.
  intros Hk. destruct k; [apply clearAll_unmarks | | | done].
  - destruct (clearAll_eq d) as (dA & dB & dC & EA & EB & EC & ->).
    apply qsa_data_nil. intros x. rewrite fold_shape by done. intros Hx.
    simpl. rewrite (fold_proj (fun e => btgOwnerDone (data e)))
      by (intros; by rewrite !(proj_modify (fun e => btgOwnerDone (data e)))).
    assert (Hx' : x ∈ names (shape dB)) by (subst dC; by rewrite fold_shape in Hx).
    subst dC.
    apply (cleared_fold (fun e => btgOwnerDone (data e))
                        (fun d el => modify el (set_btgOwnerDone None) d)).
    + intros d0 el i. rewrite get_modify. by case_decide.
    + by apply (qsa_data_elem dB KOwnerDone).
  - destruct (clearAll_eq d) as (dA & dB & dC & EA & EB & EC & ->).
    apply qsa_data_nil. intros x. rewrite fold_shape by done. intros Hx.
    simpl.
    apply (cleared_fold (fun e => btgClickBlocked (data e))
             (fun d el => modify el (set_btgClickBlocked None)
                                 (modify el (set_pointerEvents "") d))).
    + intros d0 el i. rewrite !get_modify. by case_decide.
    + by apply (qsa_data_elem dC KClickBlocked).
Qed.

End Clear.

(** ** Reveal, then scan again *)

Section RevealThenScan.

(** A click on the toggle of a placeholder built by [hideAndEmbed] runs the
    reveal handler, which stops the propagation: no other handler runs. *)
Lemma click_toggle_reveal d e w o pk k :
  is_Some (inner (get d e)) ->
  toggle (get d e) = [("click", Reveal w o pk k)] ->
  click_toggle d e = (reveal w o pk k d, []).
Proof.
  intros [t Ht] Hl. unfold click_toggle. rewrite Ht, Hl. reflexivity.
Qed.

(** Every placeholder that [hideAndEmbed] of version 1.1.0 appends answers
    a click on its toggle with the reveal handler alone. *)
Lemma hideAndEmbed_click_stops this d el pk owner d' :
  hideAndEmbed this d el pk owner = Returned d' ->
  (click_toggle d' (next d)).2 = [].
Proof.
  destruct (hideAndEmbed_eq this d el pk owner) as (w & t & d2 & -> & _ & _ & E2).
  assert (En : next d2 = next d) by (subst d2; by destruct pk, owner).
  destruct t as [p|]; [|done]. simpl. intros [= <-].
  erewrite click_toggle_reveal; [done | |]; unfold get; simpl;
    rewrite <- En, lookup_total_insert_eq; [by destruct pk | done].
Qed.

(** C10.  The reveal handler does this and nothing else: it takes the
    placeholder out of the tree; it resets the display of the wrapper and
    of every element below the wrapper that carries the processed marker;
    it takes the owner marker from the owner and, in the picker, the
    click-blocked marker and the pointer suppression from the owner.  Every
    other marker, style, attribute and listener of every element is what it
    was, the processed markers among them.  So after a scan of [c] and a
    reveal (with [c] still in the document), a further scan of [c] returns
    without changing anything, hence without a new placeholder; the
    clearing phase of [rescan()] and [stop()] is what removes the processed
    markers from the document. *)
Theorem reveal_keeps_processed_markers this d c d1 w o pk k :
  let r := reveal w o pk k d1 in
  (shape r = prune k (shape d1) /\ next r = next d1)
  /\ (forall y,
        at_ (get r y) = at_ (get d1 y)
        /\ listeners (get r y) = listeners (get d1 y)
        /\ toggle (get r y) = toggle (get d1 y)
        /\ inner (get r y) = inner (get d1 y)
        /\ btgEmbed (data (get r y)) = btgEmbed (data (get d1 y))
        /\ btgDone (data (get r y)) = btgDone (data (get d1 y))
        /\ btgOwnerDone (data (get r y))
           = (if bool_decide (o = Some y) then None
              else btgOwnerDone (data (get d1 y)))
        /\ btgClickBlocked (data (get r y))
           = (if pk && bool_decide (o = Some y) then None
              else btgClickBlocked (data (get d1 y)))
        /\ pointerEvents (css (get r y))
           = (if pk && bool_decide (o = Some y) then ""
              else pointerEvents (css (get d1 y)))
        /\ display (css (get r y))
           = (if bool_decide (y = w \/ y ∈ querySelectorAll d1 [HasData KDone] w)
              then "" else display (css (get d1 y))))
  /\ (wf d -> c ∈ names (shape d) ->
      processContainer this d c = Returned d1 ->
      c ∈ names (shape r) ->
      processContainer this r c = Returned r)
  /\ document_querySelectorAll (clearAll r) [HasData KDone] = [].
Proof.
  cbv zeta. split; [split; [apply reveal_shape | apply reveal_next]|].
  split; [|split; [|apply clearAll_unmarks]].
  - intros y.
    repeat (split; [by apply reveal_proj|]).
    split; [by apply (reveal_proj (fun e => btgEmbed (data e)))|].
    split; [by apply (reveal_proj (fun e => btgDone (data e)))|].
    split; [apply reveal_ownerDone_get|].
    split; [apply reveal_pointer_get|].
    split; [apply reveal_pointer_get | apply reveal_display_get].
  - intros Hwf Hc Hrun Hc2.
    destruct (scan_settled this d c d1 Hwf Hc Hrun) as (S1 & Hc1 & Hs).
    apply settled_scan. apply (settled_later this d1); auto.
    + apply S1.
    + apply reveal_succ, S1.
Qed.

End RevealThenScan.

(** ** Sessions *)

Section Session.

Lemma root_prune k t : root (prune k t) = root t.
Proof. by destruct t. Qed.

Lemma root_append_child p c t : root (append_child p c t) = root t.
Proof. by destruct t. Qed.

Lemma harmless_btgDone v : harmless (set_btgDone v).
Proof. by intros e. Qed.
Lemma harmless_btgOwnerDone : harmless (set_btgOwnerDone (Some "1")).
Proof. by intros e. Qed.
Lemma harmless_btgClickBlocked v : harmless (set_btgClickBlocked v).
Proof. by intros e. Qed.
Lemma harmless_display v : harmless (set_display v).
Proof. by intros e. Qed.
Lemma harmless_pointerEvents v : harmless (set_pointerEvents v).
Proof. by intros e. Qed.

Lemma safe_refl d : wf d -> safe d d.
Proof. intros Hwf. split; [done|]. repeat split; auto. Qed.

Lemma safe_trans d d1 d2 : safe d d1 -> safe d1 d2 -> safe d d2.
Proof.
  intros (_ & A2 & A3 & A4 & A5 & A6) (Hwf & B2 & B3 & B4 & B5 & B6).
  split; [done|]. split; [lia|]. split; [congruence|]. split; [auto|]. split.
  - intros e He. rewrite B5 by lia. by apply A5.
  - intros e He Ht. apply B6; [lia|]. by apply A6.
Qed.

Lemma safe_then d d1 d2 : safe d d1 -> (wf d1 -> safe d1 d2) -> safe d d2.
Proof. intros H1 H2. eapply safe_trans; [exact H1 | apply H2, H1]. Qed.

Lemma safe_modify j f d : wf d -> harmless f -> safe d (modify j f d).
Proof.
  intros Hwf Hf. split; [exact Hwf|]. do 3 (split; [done|]). split.
  - intros e _. rewrite get_modify. case_decide; [apply Hf | done].
  - intros e _ Ht. rewrite get_modify. case_decide; [by apply Hf | done].
Qed.

Lemma safe_fold_modify f l : forall d,
  wf d -> harmless f -> safe d (fold_left (fun d x => modify x f d) l d).
Proof.
  induction l as [|x l IH]; intros d Hwf Hf; simpl; [by apply safe_refl|].
  eapply safe_then; [by apply safe_modify|]. intros Hwf1. by apply IH.
Qed.

Lemma safe_remove k d : wf d -> safe d (remove k d).
Proof.
  intros Hwf. pose proof (evolves_remove k d Hwf) as [Hwf' _].
  split; [exact Hwf'|]. split; [done|]. split; [apply root_prune|].
  split; [intros e; apply names_prune_elem|]. by split.
Qed.

Lemma safe_createElement e d : wf d -> safe d (createElement e d).2.
Proof.
  intros Hwf. pose proof (evolves_createElement e d Hwf) as [Hwf' _].
  split; [exact Hwf'|]. split; [simpl; lia|]. do 2 (split; [done|]).
  split; intros x Hx; unfold get; simpl; by rewrite lookup_total_insert_ne by lia.
Qed.

Lemma owner_at_fixed d d' e :
  fixed (get d' e) = fixed (get d e) -> owner_at d' e = owner_at d e.
Proof. unfold fixed, owner_at. by intros [= _ -> _ _ _]. Qed.

(** Safe steps keep the invariant. *)
Lemma inv_safe d d' : session_inv d -> safe d d' -> session_inv d'.
Proof.
  intros (Hwf & I1 & I2 & I3) (Hwf' & S2 & S3 & S4 & S5 & S6).
  assert (Hlt : forall e, e ∈ names (shape d') -> e < next d).
  { intros e He. apply (wf_below d); auto. }
  split; [done|]. split; [|split].
  - intros e He. specialize (S5 e (Hlt e He)). unfold fixed in S5.
    injection S5 as _ _ -> _ _. auto.
  - intros e He. pose proof (S5 e (Hlt e He)) as F. unfold fixed in F.
    injection F as _ Ft _ Fe _.
    destruct (I2 e (S4 e He)) as [Ht|(G1 & G2 & w & o & pk & G3 & G4)].
    + left. congruence.
    + right. split; [congruence|]. split; [congruence|].
      exists w, o, pk. split; [congruence|].
      intros o' Ho. destruct (G4 o' Ho) as [G5 G6]. split; [lia | auto].
  - intros e1 e2 o H1 H2.
    rewrite (owner_at_fixed d d' e1), (owner_at_fixed d d' e2) by auto.
    apply I3; auto.
Qed.

(** Safe steps add no placeholder for any owner. *)
Lemma no_placeholder_safe d d' o :
  wf d -> safe d d' ->
  (forall e, e ∈ names (shape d) -> owner_at d e <> Some o) ->
  forall e, e ∈ names (shape d') -> owner_at d' e <> Some o.
Proof.
  intros Hwf (_ & _ & _ & S4 & S5 & _) H e He.
  rewrite (owner_at_fixed d); [auto|]. apply S5. apply (wf_below d); auto.
Qed.

Lemma getOwnerNode_in_names this d el pk o :
  getOwnerNode this d el pk = Some o -> o ∈ names (shape d).
Proof.
  assert (Hp : parentElement d el = Some o -> o ∈ names (shape d)).
  { unfold parentElement. destruct (chain el (shape d)) as [|a [|b l]] eqn:E; try done.
    intros [= ->]. apply (chain_in_names el). rewrite E. right. left. }
  assert (Hc : forall sel, closest d sel el = Some o -> o ∈ names (shape d)).
  { intros sel H%closest_in_chain. by eapply chain_in_names. }
  unfold getOwnerNode. destruct pk.
  - destruct (closest d (sel_class "result__") el) eqn:E1; simpl; [|done].
    intros [= ->]. eauto.
  - destruct (closest d (sel_class "imageWrapper") el) eqn:E1; simpl;
      [intros [= ->]; eauto|].
    destruct (closest d (sel_class "embedWrapper") el) eqn:E2; simpl;
      [intros [= ->]; eauto|].
    destruct (closest d [TagIs "article"] el) eqn:E3; simpl;
      [intros [= ->]; eauto|].
    destruct (closest d [IdStartsWith "message-accessories"] el) eqn:E4; simpl;
      [intros [= ->]; eauto | done].
Qed.

(** An admissible element may be created and appended. *)
Lemma inv_appendChild p e d :
  session_inv d -> admissible d e ->
  session_inv (state_of (appendChild p (next d) (createElement e d).2)).
Proof.
  intros (Hwf & I1 & I2 & I3) (A1 & A2).
  set (d' := state_of _).
  assert (Hwf' : wf d') by (by apply wf_appendChild).
  assert (Hn : forall x, x ∈ names (shape d') -> x ∈ names (shape d) \/ x = next d).
  { intros x. by apply names_appendChild. }
  assert (Hold : forall x, x ∈ names (shape d) -> get d' x = get d x).
  { intros x Hx%(wf_below _ _ Hwf). subst d'. rewrite get_appendChild.
    case_decide; [lia | done]. }
  assert (Hnew : get d' (next d) = e).
  { subst d'. rewrite get_appendChild. by rewrite decide_True. }
  assert (Hroot : root (shape d') = root (shape d)).
  { subst d'. destruct p; simpl; [apply root_append_child | done]. }
  assert (Hnext : next d < next d') by (subst d'; destruct p; simpl; lia).
  split; [done|]. split; [|split].
  - intros x [Hx| ->]%Hn; [rewrite Hold by done; auto | by rewrite Hnew].
  - intros x [Hx| ->]%Hn.
    + rewrite Hold by done.
      destruct (I2 x Hx) as [Ht|(G1 & G2 & w & o & pk & G3 & G4)]; [by left|].
      right. split; [congruence|]. unfold genuine. rewrite Hold by done.
      split; [done|]. exists w, o, pk. split; [done|].
      intros o' Ho. destruct (G4 o' Ho) as [G5 G6]. split; [lia|].
      subst d'. rewrite get_appendChild. case_decide; [lia | done].
    + rewrite Hnew. destruct A2 as [Ht|(B1 & w & o & pk & B2 & B3)]; [by left|].
      right. split.
      { rewrite Hroot. intros H.
        pose proof (wf_below d (root (shape d)) Hwf (root_in_names _)). lia. }
      rewrite Hnew. split; [done|]. exists w, o, pk. split; [done|].
      intros o' Ho. destruct (B3 o' Ho) as (B4 & B5 & _). split; [lia|].
      subst d'. rewrite get_appendChild. case_decide; [lia | done].
  - assert (Hfresh : forall x o, x ∈ names (shape d) ->
              owner_at d x = Some o -> owner_at d' (next d) = Some o -> False).
    { intros x o Hx H1. unfold owner_at. rewrite Hnew.
      destruct A2 as [->|(_ & w & o0 & pk & -> & B3)]; [done|]. simpl.
      intros ->. destruct (B3 o eq_refl) as (_ & _ & B6). by apply (B6 x). }
    assert (Hown : forall x, x ∈ names (shape d) -> owner_at d' x = owner_at d x).
    { intros x Hx. unfold owner_at. by rewrite Hold. }
    intros e1 e2 o H1 H2 E1 E2. apply Hn in H1, H2.
    destruct H1 as [H1| ->], H2 as [H2| ->]; [| | |done].
    + rewrite Hown in E1, E2 by done. by apply (I3 e1 e2 o).
    + rewrite Hown in E1 by done. exfalso. by apply (Hfresh e1 o).
    + rewrite Hown in E2 by done. exfalso. by apply (Hfresh e2 o).
Qed.

Lemma inv_wf d : session_inv d -> wf d.
Proof. by intros [H _]. Qed.

(** [hideAndEmbed] for an owner that is marked and has no placeholder. *)
Lemma inv_hideAndEmbed this d el pk owner :
  session_inv d ->
  (forall o', owner = Some o' ->
     o' < next d
     /\ Js.truthy (btgOwnerDone (data (get d o'))) = true
     /\ forall x, x ∈ names (shape d) -> owner_at d x <> Some o') ->
  session_inv (state_of (hideAndEmbed this d el pk owner)).
Proof.
  intros Hinv Ho. pose proof (inv_wf d Hinv) as Hwf.
  destruct (hideAndEmbed_eq this d el pk owner) as (w & t & d2 & -> & _ & _ & E2).
  assert (S2 : safe d d2).
  { subst d2.
    assert (S1 : safe d (modify w (set_display "none") d))
      by (apply safe_modify; [done | apply harmless_display]).
    destruct pk, owner as [o|]; try done.
    eapply safe_then; [exact S1|]. intros Hwf1.
    eapply safe_then; [apply safe_modify; [done | apply harmless_btgClickBlocked]|].
    intros Hwf2. apply safe_modify; [done | apply harmless_pointerEvents]. }
  apply inv_appendChild; [by apply (inv_safe d)|].
  split; [destruct pk; simpl; by repeat constructor|].
  right. split; [done|]. exists w, owner, pk. split; [done|].
  intros o' E. destruct (Ho o' E) as (H1 & H2 & H3).
  destruct S2 as (_ & S2 & _ & S4 & S5 & S6). split; [lia|]. split; [auto|].
  intros x Hx. rewrite (owner_at_fixed d); [auto|].
  apply S5. apply (wf_below d); auto.
Qed.

(** [processElement] keeps the invariant, whether it returns or raises. *)
Lemma inv_processElement this d el :
  session_inv d -> session_inv (state_of (processElement this d el)).
Proof.
  intros Hinv. rewrite processElement_unfold.
  destruct (raises this d el); [done|].
  destruct (skips this d el); [done|].
  set (d1 := modify el (set_btgDone (Some "1")) d).
  assert (Hinv1 : session_inv d1).
  { apply (inv_safe d); [done|].
    apply safe_modify; [by apply inv_wf | apply harmless_btgDone]. }
  clearbody d1. clear Hinv. pose proof (inv_wf d1 Hinv1) as Hwf1.
  unfold dedup_or_embed.
  destruct (getOwnerNode this d1 el (isInGifPicker this d el)) as [o|] eqn:Eo; simpl.
  - destruct (Js.truthy (btgOwnerDone (data (get d1 o)))) eqn:Et.
    + destruct (isInGifPicker this d el); simpl; apply (inv_safe d1); auto;
        apply safe_modify; auto using harmless_display.
    + apply inv_hideAndEmbed.
      * apply (inv_safe d1); [done|].
        apply safe_modify; [done | apply harmless_btgOwnerDone].
      * intros o' [= <-]. simpl. split; [|split].
        -- apply (wf_below d1); [done|]. by eapply getOwnerNode_in_names.
        -- by rewrite get_modify_eq.
        -- intros x Hx Hown.
           assert (Hown1 : owner_at d1 x = Some o).
           { rewrite <- Hown. unfold owner_at. rewrite get_modify.
             by case_decide. }
           destruct Hinv1 as (_ & _ & I2 & _).
           destruct (I2 x Hx) as [Ht|(_ & _ & w & o0 & pk & G3 & G4)].
           ++ unfold owner_at in Hown1. by rewrite Ht in Hown1.
           ++ unfold owner_at in Hown1. rewrite G3 in Hown1. simpl in Hown1.
              destruct (G4 o Hown1) as [_ G6]. congruence.
  - by apply inv_hideAndEmbed.
Qed.

Lemma inv_forEach this l : forall d,
  session_inv d -> session_inv (state_of (forEach (processElement this) l d)).
Proof.
  induction l as [|x l IH]; intros d Hinv; simpl; [done|].
  pose proof (inv_processElement this d x Hinv) as H.
  destruct (processElement this d x); simpl in *; auto.
Qed.

Lemma inv_processContainer this d c :
  session_inv d -> session_inv (state_of (processContainer this d c)).
Proof.
  intros Hinv. rewrite processContainer_eq. destruct (negb _); [done|].
  by apply inv_forEach.
Qed.

Lemma names_prune_kids k ks x :
  x ∈ concat (map names (prune_kids k ks)) -> x ∈ concat (map names ks).
Proof.
  induction ks as [|a r IH]; simpl; [done|].
  rewrite elem_of_app. destruct (root a =? k); simpl.
  - auto.
  - rewrite elem_of_app. intros [H%names_prune_elem|H]; auto.
Qed.

(** [k.remove()] takes [k] out of the document, unless [k] is its root. *)
Lemma prune_removes k t :
  NoDup (names t) -> k <> root t -> k ∉ names (prune k t).
Proof.
  induction t as [n ks IH] using tree_induction.
  rewrite prune_eq, !names_eq. simpl. intros [_ Hnd]%NoDup_cons Hk.
  apply not_elem_of_cons. split; [done|]. clear Hk.
  induction IH as [|a r Ha _ IHr]; simpl in *; [by inversion 1|].
  apply NoDup_app in Hnd as (Hnda & Hdisj & Hndr).
  destruct (Nat.eqb_spec (root a) k) as [<-|Hne]; simpl.
  - intros H%names_prune_kids. eapply Hdisj; [apply root_in_names | done].
  - apply not_elem_of_app. split; [by apply Ha | by apply IHr].
Qed.

(** The reveal handler changes the fixed part of no element... *)
Lemma reveal_fixed w o pk k d i :
  fixed (get (reveal w o pk k d) i) = fixed (get d i).
Proof.
  destruct (reveal_eq w o pk k d) as (l & d3 & E3 & ->).
  assert (H3 : fixed (get d3 i) = fixed (get d i)).
  { subst d3. destruct o; [rewrite proj_modify by done|];
      rewrite proj_fold_modify by done; by apply proj_modify. }
  destruct pk, o; rewrite ?proj_modify by done; exact H3.
Qed.

(** ... and the owner marker of its own owner only. *)
Lemma reveal_ownerDone w o pk k d i :
  o <> Some i ->
  btgOwnerDone (data (get (reveal w o pk k d) i)) = btgOwnerDone (data (get d i)).
Proof.
  intros Ho. destruct (reveal_eq w o pk k d) as (l & d3 & E3 & ->).
  assert (H3 : btgOwnerDone (data (get d3 i)) = btgOwnerDone (data (get d i))).
  { subst d3. destruct o as [o'|]; [rewrite get_modify_ne by congruence|];
      rewrite (proj_fold_modify (fun e => btgOwnerDone (data e))) by done;
      by apply (proj_modify (fun e => btgOwnerDone (data e))). }
  destruct pk, o;
    rewrite ?(proj_modify (fun e => btgOwnerDone (data e))) by done; exact H3.
Qed.

Lemma genuine_owner d e w o pk k :
  toggle (get d e) = [("click", Reveal w o pk k)] -> owner_at d e = o.
Proof. unfold owner_at. by intros ->. Qed.

(** Revealing a placeholder of the document keeps the invariant. *)
Lemma inv_reveal d e w o pk :
  session_inv d -> e ∈ names (shape d) ->
  toggle (get d e) = [("click", Reveal w o pk e)] ->
  session_inv (reveal w o pk e d).
Proof.
  intros (Hwf & I1 & I2 & I3) He Ht.
  pose proof (reveal_succ w o pk e d Hwf) as [Hwf' (Hnext & _)].
  assert (Hroot : e <> root (shape d)).
  { destruct (I2 e He) as [E|[G _]]; [congruence | done]. }
  assert (Hgone : e ∉ names (shape (reveal w o pk e d))).
  { rewrite reveal_shape. apply prune_removes; [apply Hwf | done]. }
  assert (Hsub : forall x, x ∈ names (shape (reveal w o pk e d)) -> x ∈ names (shape d)).
  { intros x. rewrite reveal_shape. apply names_prune_elem. }
  assert (Hfix : forall x, fixed (get (reveal w o pk e d) x) = fixed (get d x))
    by (intros; apply reveal_fixed).
  split; [done|]. split; [|split].
  - intros x Hx. specialize (Hfix x). unfold fixed in Hfix.
    injection Hfix as _ _ -> _ _. auto.
  - intros x Hx. pose proof (Hfix x) as F. unfold fixed in F.
    injection F as _ Ft _ Fe _.
    destruct (I2 x (Hsub x Hx)) as [E|(G1 & G2 & w' & o' & pk' & G3 & G4)].
    + left. congruence.
    + right. split; [by rewrite reveal_shape, root_prune|].
      split; [congruence|]. exists w', o', pk'. split; [congruence|].
      intros o'' Eo'. destruct (G4 o'' Eo') as [G5 G6]. split; [lia|].
      rewrite reveal_ownerDone; [exact G6|]. intros Eo.
      apply Hgone. assert (Hxe : x = e); [|by rewrite Hxe in Hx].
      apply (I3 x e o''); auto.
      { by rewrite (genuine_owner _ _ _ _ _ _ G3). }
      { by rewrite (genuine_owner _ _ _ _ _ _ Ht). }
  - intros e1 e2 o0 H1 H2.
    rewrite (owner_at_fixed d _ e1), (owner_at_fixed d _ e2) by auto.
    apply I3; auto.
Qed.

Lemma run_listeners_benign evt ls d :
  Forall benign ls -> (run_listeners evt ls d).1.1 = d.
Proof.
  induction 1 as [|[t l] r Hl _ IH]; simpl; [done|].
  destruct (String.eqb t evt); [|done].
  destruct l; try done; simpl;
    destruct (run_listeners evt r d) as [[d2 s2] h2]; simpl in *; done.
Qed.

Lemma bubble_benign evt path : forall d,
  (forall x, x ∈ path -> Forall benign (listeners (get d x))) ->
  (bubble evt path d).1 = d.
Proof.
  induction path as [|n r IH]; intros d H; simpl; [done|].
  pose proof (run_listeners_benign evt (listeners (get d n)) d (H n ltac:(left))) as E.
  destruct (run_listeners evt (listeners (get d n)) d) as [[d1 s] h].
  simpl in E. subst d1. destruct s; [done|].
  specialize (IH d). destruct (bubble evt r d) as [d2 h2]. simpl in *.
  apply IH. intros x Hx. apply H. by right.
Qed.

(** A click on a reveal control of the document keeps the invariant. *)
Lemma inv_click d c :
  session_inv d -> c ∈ names (shape d) -> session_inv (click_toggle d c).1.
Proof.
  intros Hinv Hc. pose proof Hinv as (Hwf & I1 & I2 & I3).
  unfold click_toggle. destruct (inner (get d c)); [|done].
  destruct (I2 c Hc) as [->|(_ & _ & w & o & pk & Ht & _)];
    [|rewrite Ht]; simpl.
  - pose proof (bubble_benign "click" (chain c (shape d)) d) as E.
    destruct (bubble "click" (chain c (shape d)) d) as [d2 h2]. simpl in *.
    rewrite E; [done|]. intros x Hx%chain_in_names. auto.
  - by apply inv_reveal.
Qed.

Lemma pristine_inv d : pristine d -> session_inv d.
Proof.
  intros [Hwf H]. split; [done|]. split; [|split].
  - intros e He. by apply H.
  - intros e He. left. by apply H.
  - intros e1 e2 o H1 _ E. unfold owner_at in E.
    destruct (H e1 H1) as [Ht _]. by rewrite Ht in E.
Qed.

Lemma pristine_modify j f d :
  (forall e, fixed (f e) = fixed e) -> pristine d -> pristine (modify j f d).
Proof.
  intros Hf [Hwf H]. split; [exact Hwf|]. intros e He.
  pose proof (proj_modify fixed j f d e Hf) as F. unfold fixed in F.
  injection F as _ -> -> _ _. by apply H.
Qed.

Lemma pristine_unmark d el : pristine d -> pristine (unmark d el).
Proof.
  intros H. unfold unmark. destruct (closest _ _ _);
    repeat (apply pristine_modify; [done|]); done.
Qed.

Lemma pristine_fold (h : dom -> nat -> dom) l :
  (forall d x, pristine d -> pristine (h d x)) ->
  forall d, pristine d -> pristine (fold_left h l d).
Proof.
  intros Hh. induction l as [|x l IH]; intros d H; simpl; [done|].
  by apply IH, Hh.
Qed.

Lemma fold_remove_get l : forall d x, get (fold_left (fun d e => remove e d) l d) x = get d x.
Proof. induction l as [|k l IH]; intros d x; simpl; [done|]. by rewrite IH. Qed.

Lemma fold_remove_safe l : forall d,
  wf d -> safe d (fold_left (fun d e => remove e d) l d).
Proof.
  induction l as [|k l IH]; intros d Hwf; simpl; [by apply safe_refl|].
  eapply safe_then; [by apply safe_remove|]. intros Hwf1. by apply IH.
Qed.

Lemma fold_remove_removes l : forall d k,
  wf d -> k ∈ l -> k <> root (shape d) ->
  k ∉ names (shape (fold_left (fun d e => remove e d) l d)).
Proof.
  induction l as [|a l IH]; intros d k Hwf Hk Hr; simpl; [by inversion Hk|].
  pose proof (safe_remove a d Hwf) as (Hwf1 & _ & R1 & _).
  apply elem_of_cons in Hk as [->|Hk].
  - intros H. pose proof (fold_remove_safe l (remove a d) Hwf1) as (_ & _ & _ & S4 & _).
    apply S4 in H. revert H. simpl. apply prune_removes; [apply Hwf | done].
  - apply IH; [done | done | by rewrite R1].
Qed.

(** The clearing phase leaves a document without any placeholder. *)
Lemma clearAll_pristine d : session_inv d -> pristine (clearAll d).
Proof.
  intros Hinv. pose proof Hinv as (Hwf & I1 & I2 & I3).
  destruct (clearAll_eq d) as (dA & dB & dC & EA & EB & EC & ->).
  assert (HA : pristine dA).
  { pose proof (fold_remove_safe (document_querySelectorAll d [HasData KEmbed]) d Hwf)
      as HS. rewrite <- EA in HS.
    pose proof HS as (HwfA & _ & _ & S4 & _).
    split; [done|]. intros x Hx.
    assert (Hg : get dA x = get d x) by (subst dA; apply fold_remove_get).
    rewrite Hg. split; [|by apply I1, S4].
    pose proof (S4 x Hx) as Hx0.
    destruct (I2 x Hx0) as [Ht|(G1 & G2 & _)]; [done|]. exfalso.
    revert Hx. subst dA. apply fold_remove_removes; [done | | done].
    unfold document_querySelectorAll. apply list_elem_of_filter.
    split; [|done]. unfold matches. simpl.
    by rewrite bool_decide_eq_true_2. }
  assert (HB : pristine dB).
  { subst dB. apply pristine_fold; [|done]. intros; by apply pristine_unmark. }
  assert (HC : pristine dC).
  { subst dC. apply pristine_fold; [|done]. intros; by apply pristine_modify. }
  apply pristine_fold; [|done].
  intros; by repeat (apply pristine_modify; [done|]).
Qed.

Lemma host_elem_admissible d a ls :
  admissible d (host_elem a (filter (fun l => host_listener l = true) ls)).
Proof.
  split; [|by left]. simpl. apply Forall_forall.
  intros [t l] [H _]%list_elem_of_filter. unfold host_listener, benign in *.
  simpl in *. by destruct l.
Qed.

Lemma inv_scan_body this d : session_inv d -> session_inv (state_of (scan_body this d)).
Proof.
  intros H. unfold scan_body. destruct (document_body d); [|done].
  by apply inv_processContainer.
Qed.

(** Every action of a session keeps the invariant. *)
Lemma inv_step st a : session_inv st.2 -> session_inv (step st a).2.
Proof.
  destruct st as [this d]. simpl. intros Hinv. destruct a; simpl.
  - unfold start. pose proof (inv_scan_body this d Hinv) as H.
    destruct (scan_body this d) as [d'|d']; [|done].
    by destruct (document_body d').
  - by apply pristine_inv, clearAll_pristine.
  - case_bool_decide; [|done]. simpl.
    apply (inv_appendChild (Some parent)); [done | apply host_elem_admissible].
  - apply (inv_safe d); [done|]. by apply safe_remove, inv_wf.
  - destruct (observer this && _); [|done]. by apply inv_processContainer.
  - case_bool_decide; [|done]. by apply inv_click.
  - unfold rescan. by apply inv_scan_body, pristine_inv, clearAll_pristine.
Qed.

Lemma inv_run acts : forall st, session_inv st.2 -> session_inv (run st acts).2.
Proof.
  induction acts as [|a acts IH]; intros st H; simpl; [done|].
  by apply IH, inv_step.
Qed.

Lemma filter_at_most_one {A} (P : A -> Prop) `{forall x, Decision (P x)} (l : list A) :
  NoDup l ->
  (forall x y, x ∈ l -> y ∈ l -> P x -> P y -> x = y) ->
  length (filter P l) <= 1.
Proof.
  intros Hnd Hu.
  assert (Hf : NoDup (filter P l)) by (by apply NoDup_filter).
  destruct (filter P l) as [|a [|b r]] eqn:E; simpl; [lia | lia|]. exfalso.
  assert (Ha : a ∈ filter P l) by (rewrite E; left).
  assert (Hb : b ∈ filter P l) by (rewrite E; right; left).
  apply list_elem_of_filter in Ha as [Pa Ha], Hb as [Pb Hb].
  assert (a = b) as -> by auto.
  apply NoDup_cons in Hf as [Hf _]. apply Hf. left.
Qed.

(** What [processElement] does for a candidate whose owner is marked: it
    marks the candidate and hides its wrapper; nothing is created. *)
Lemma processElement_owner_marked this d el ow :
  skips this d el = false ->
  getOwnerNode this (modify el (set_btgDone (Some "1")) d) el
               (isInGifPicker this d el) = Some ow ->
  Js.truthy (btgOwnerDone
               (data (get (modify el (set_btgDone (Some "1")) d) ow))) = true ->
  processElement this d el =
  Returned
    (modify (if isInGifPicker this d el then el
             else default el (closest (modify el (set_btgDone (Some "1")) d)
                                      sel_wrapper el))
            (set_display "none")
            (modify el (set_btgDone (Some "1")) d)).
Proof.
  intros Hs Ho Ht.
  rewrite processElement_unfold, (skips_raises this d el Hs), Hs.
  unfold dedup_or_embed.
  rewrite Ho. simpl. rewrite Ht. by destruct (isInGifPicker this d el).
Qed.

(** C1.  Throughout a session that starts from a document of the host page
    alone, every owner has at most one placeholder of the plugin in the
    document; and a candidate that is not skipped and whose owner carries
    the owner-processed marker is marked and has its wrapper hidden (the
    candidate itself in the picker), without a new element. *)
Theorem one_placeholder_per_owner this d0 acts o :
  pristine d0 ->
  length (placeholders_of (run (this, d0) acts).2 o) <= 1
  /\ forall this' d el ow,
       skips this' d el = false ->
       getOwnerNode this' (modify el (set_btgDone (Some "1")) d) el
                    (isInGifPicker this' d el) = Some ow ->
       Js.truthy (btgOwnerDone
                    (data (get (modify el (set_btgDone (Some "1")) d) ow))) = true ->
       processElement this' d el =
       Returned
         (modify (if isInGifPicker this' d el then el
                  else default el (closest (modify el (set_btgDone (Some "1")) d)
                                           sel_wrapper el))
                 (set_display "none")
                 (modify el (set_btgDone (Some "1")) d)).
Proof.
  intros Hp. split; [|apply processElement_owner_marked].
  pose proof (inv_run acts (this, d0) (pristine_inv d0 Hp)) as (Hwf & _ & _ & I3).
  unfold placeholders_of. apply filter_at_most_one; [apply Hwf|].
  intros x y Hx Hy [_ Ex] [_ Ey]. by apply (I3 x y o).
Qed.

End Session.

(** ** Evaluations on the sample documents *)

Section Evaluations.

Import Sample.

(** C2.  On [favorite_doc] the scan hides the image wrapper (element 3),
    and [stop()] leaves it hidden: the clearing phase looks for the
    wrapper with a selector list that also names "gifFavorite", finds the
    nearer favourite layer (element 4) and restores that one instead. *)
Theorem stop_leaves_image_wrapper_hidden :
  (start this favorite_doc).2 = Returned favorite_scanned
  /\ display (css (get favorite_doc 3)) = ""
  /\ display (css (get favorite_scanned 3)) = "none"
  /\ closest favorite_scanned sel_wrapper 5 = Some 3
  /\ closest favorite_scanned sel_wrapper_clear 5 = Some 4
  /\ display (css (get (stop this favorite_scanned).2 3)) = "none".
Proof. vm_compute. by repeat split. Qed.

(** C9.  [processContainer] raises on an image that has no parent: the
    owner is [null], which the code allows for, and so is the insertion
    target, on which [appendChild] is then called. *)
Theorem processContainer_raises_without_parent :
  getOwnerNode this detached_img 0 false = None
  /\ processContainer this detached_img 0
     = Threw (state_of (processContainer this detached_img 0)).
Proof. vm_compute. by split. Qed.

(** C3.  A second scan is no repetition of the first when the first has
    raised: on an image wrapper without a parent and with two blocked
    images, the first scan marks the first image, marks and hides the
    wrapper and raises at [insertTarget.appendChild]; the second scan, on
    the document the first one left, returns and marks the second image,
    which the first scan never reached. *)
Theorem second_scan_after_raise_marks_again :
  processContainer this detached_wrapper 0 = Threw detached_once
  /\ processContainer this detached_once 0 = Returned detached_twice
  /\ btgDone (data (get detached_once 1)) = Some "1"
  /\ btgDone (data (get detached_once 2)) = None
  /\ btgDone (data (get detached_twice 2)) = Some "1".
Proof. vm_compute. by repeat split. Qed.

(** Counterexample to C6 as worded: for a link whose own class carries the
    markers, [getOwnerNode] returns the link itself, in the picker and
    outside it, where the claim names the nearest ancestor that carries
    them. *)
Lemma getOwnerNode_returns_element_itself :
  getOwnerNode this marked_link_doc 3 false = Some 3
  /\ claimed_owner marked_link_doc 3 false = Some 2
  /\ getOwnerNode this marked_link_doc 3 true = Some 3
  /\ claimed_owner marked_link_doc 3 true = Some 2.
Proof. vm_compute. by repeat split. Qed.

(** Without a body [start()] installs the styles, scans nothing and raises
    at [observe]; no observer is connected. *)
Lemma start_raises_without_body :
  start this bodiless_doc = (Plugin default_settings false true, Threw bodiless_doc).
Proof. by vm_compute. Qed.

(** A scan raises in the first URL test at an SVG link, whose [href] is an
    object, and leaves the document as it was. *)
Lemma processContainer_raises_at_svg_link :
  processContainer this svg_link_doc 1 = Threw svg_link_doc.
Proof. by vm_compute. Qed.

(** C8.  With the placeholder that the scan of version 1.0.0 builds (element
    5, appended to the accessories container) a click on the reveal control
    reaches the click handler of the host on that container (7); the
    placeholder of version 1.1.0 in the same place lets no handler run. *)
Theorem old_reveal_click_reaches_host_handler :
  V100.processContainer this handled_doc 1 = Returned handled_old
  /\ shape handled_old = Node 0 [Node 1 [Node 2 [Node 3 [Node 4 []]; Node 5 []]]]
  /\ (click_toggle handled_old 5).2 = [7]
  /\ processContainer this handled_doc 1 = Returned handled_new
  /\ shape handled_new = shape handled_old
  /\ (click_toggle handled_new 5).2 = [].
Proof. vm_compute. by repeat split. Qed.

Lemma favorite_doc_wf : wf favorite_doc.
Proof.
  split; [|by repeat constructor].
  apply (bool_decide_unpack _). by vm_compute.
Qed.

(** Witness of X26: the full scan of [favorite_doc]. *)
Lemma scan_twice_witness :
  processContainer this favorite_scanned 1 = Returned favorite_scanned.
Proof.
  apply (processContainer_idempotent this favorite_doc 1).
  - apply favorite_doc_wf.
  - vm_compute. set_solver.
  - vm_compute. reflexivity.
Defined.

(** Witness of C10: the placeholder of [favorite_scanned] is element 6. *)
Lemma reveal_then_scan_witness :
  processContainer this (reveal 3 (Some 3) false 6 favorite_scanned) 1
  = Returned (reveal 3 (Some 3) false 6 favorite_scanned).
Proof.
  assert (H2 : 1 ∈ names (shape favorite_doc)) by (vm_compute; set_solver).
  assert (H3 : processContainer this favorite_doc 1 = Returned favorite_scanned)
    by (by vm_compute).
  assert (H4 : 1 ∈ names (shape (reveal 3 (Some 3) false 6 favorite_scanned)))
    by (vm_compute; set_solver).
  exact (proj1 (proj2 (proj2 (reveal_keeps_processed_markers
                                this favorite_doc 1 favorite_scanned
                                3 (Some 3) false 6)))
               favorite_doc_wf H2 H3 H4).
Defined.

Lemma favorite_doc_pristine : pristine favorite_doc.
Proof.
  split; [apply favorite_doc_wf|]. intros e He.
  assert (H : e ∈ [0; 1; 2; 3; 4; 5]) by exact He.
  repeat (apply elem_of_cons in H as [->|H]; [by vm_compute|]).
  by inversion H.
Qed.

(** The placeholders for the image wrapper (3) along [session]. *)
Example session_placeholders :
  map (fun n => placeholders_of (run (this, favorite_doc) (take n session)).2 3)
      [0; 1; 2; 3; 4; 5; 6]
  = [[]; [6]; [6]; [6]; []; [8]; [8]].
Proof. vm_compute. reflexivity. Qed.

(** Witness of C1 on [session]. *)
Lemma one_placeholder_witness :
  length (placeholders_of (run (this, favorite_doc) session).2 3) <= 1.
Proof.
  apply (one_placeholder_per_owner this favorite_doc session 3).
  apply favorite_doc_pristine.
Defined.

(** The scenario of the specification on [chat_doc]: one placeholder (5)
    in the accessories container, the wrapper (3) hidden; the click on the
    reveal control shows the wrapper again and removes the placeholder; and
    here [stop()] does restore the wrapper. *)
Example chat_doc_scenario :
  let d1 := state_of (start this chat_doc).2 in
  shape d1 = Node 0 [Node 1 [Node 2 [Node 3 [Node 4 []]; Node 5 []]]]
  /\ display (css (get d1 3)) = "none"
  /\ placeholders_of d1 3 = [5]
  /\ shape (click_toggle d1 5).1 = shape chat_doc
  /\ display (css (get (click_toggle d1 5).1 3)) = ""
  /\ shape (stop this d1).2 = shape chat_doc
  /\ display (css (get (stop this d1).2 3)) = "".
Proof. vm_compute. by repeat split. Qed.

(** With [blockInPicker] on, the tile of [picker_doc] is blocked: the image
    (4) is marked and hidden, the tile (3) is click-blocked, and the compact
    placeholder (5) is appended to the tile. *)
Example picker_blocked_when_setting_on :
  let d1 := state_of (processElement this picker_doc 4) in
  btgDone (data (get d1 4)) = Some "1"
  /\ display (css (get d1 4)) = "none"
  /\ btgClickBlocked (data (get d1 3)) = Some "1"
  /\ pointerEvents (css (get d1 3)) = "none"
  /\ shape d1 = Node 0 [Node 1 [Node 2 [Node 3 [Node 4 []; Node 5 []]]]]
  /\ cls (at_ (get d1 5)) = "btg-compact".
Proof. vm_compute. by repeat split. Qed.

(** Witness of C5 on the picker tile. *)
Lemma picker_skip_witness :
  processElement (Plugin (Settings false false) true true) picker_doc 4
  = Returned picker_doc.
Proof.
  apply processElement_skips_picker_when_setting_off; vm_compute; reflexivity.
Defined.

End Evaluations.

(** * Further properties *)

(** ** More facts about node trees *)

Section MoreTreeFacts.

(** An element of the tree other than the root has a parent. *)
Lemma chain_nonroot x t :
  x ∈ names t -> x <> root t -> exists p r, chain x t = x :: p :: r.
Proof.
  intros Hx Hr. destruct (chain_some x t Hx) as [r E].
  destruct t as [n ks]. simpl in Hr. rewrite chain_eq in E.
  destruct (Nat.eqb_spec n x) as [->|_]; [done|].
  destruct (chain_kids x ks) as [|a l] eqn:Ek; [done|].
  rewrite chain_eq. destruct (Nat.eqb_spec n x) as [->|_]; [done|]. rewrite Ek.
  simpl in *. injection E as -> _.
  destruct l as [|b l]; simpl; eauto.
Qed.

Lemma subtree_absent i t : i ∉ names t -> subtree i t = None.
Proof.
  intros H. destruct (subtree i t) as [s|] eqn:E; [|done].
  by apply subtree_in_names in E as [? _].
Qed.

Lemma subtree_kids_app i l1 l2 :
  subtree_kids i (l1 ++ l2) =
  match subtree_kids i l1 with Some s => Some s | None => subtree_kids i l2 end.
Proof.
  induction l1 as [|k r IH]; simpl; [done|].
  destruct (subtree i k); [done | exact IH].
Qed.

(** After [p.appendChild(c)] the new element is the last child of [p]. *)
Lemma subtree_append_child p c t :
  p ∈ names t ->
  exists ks, subtree p (append_child p c t) = Some (Node p (ks ++ [Node c []])).
Proof.
  induction t as [n ks IH] using tree_induction.
  rewrite append_child_eq, subtree_eq, names_eq.
  destruct (Nat.eqb_spec n p) as [->|Hne]; [intros _; eauto|].
  intros [?|Hp]%elem_of_cons; [done|].
  induction IH as [|k r Hk _ IHr]; simpl in *; [by inversion Hp|].
  destruct (decide (p ∈ names k)) as [Hin|Hout].
  - destruct (Hk Hin) as [ks' ->]. eauto.
  - rewrite (append_child_absent p c k Hout), (subtree_absent _ _ Hout).
    apply elem_of_app in Hp as [?|Hp]; [done|]. by apply IHr.
Qed.

(** The chain of an appended element: the element, then the chain of the
    element it was appended to. *)
Lemma chain_append_new p c t :
  NoDup (names t) -> p ∈ names t -> c ∉ names t ->
  chain c (append_child p c t) = c :: chain p t.
Proof.
  intros Hnd Hp Hc.
  destruct (subtree_append_child p c t Hp) as [ks Hs].
  assert (Hnd' : NoDup (names (append_child p c t))).
  { destruct (names_append_child p c t Hnd Hp) as (l1 & l2 & E1 & ->).
    rewrite <- Permutation_middle. apply NoDup_cons. by rewrite <- E1. }
  pose proof (chain_child _ p _ (Node c []) Hnd' Hs) as E. simpl in E.
  rewrite E by (apply elem_of_app; right; left).
  f_equal. apply chain_append_child. intros ->. done.
Qed.

Lemma prune_kids_app k l1 l2 :
  prune_kids k (l1 ++ l2) = prune_kids k l1 ++ prune_kids k l2.
Proof.
  induction l1 as [|a r IH]; simpl; [done|].
  destruct (root a =? k); [done | by rewrite IH].
Qed.

(** Removing an element that is not in the tree changes nothing. *)
Lemma prune_absent k t : k ∉ names t -> prune k t = t.
Proof.
  induction t as [n ks IH] using tree_induction.
  rewrite prune_eq, names_eq, not_elem_of_cons. intros [_ Hk]. f_equal.
  induction IH as [|a r Ha _ IHr]; simpl in *; [done|].
  apply not_elem_of_app in Hk as [H1 H2].
  destruct (Nat.eqb_spec (root a) k) as [E|_].
  - exfalso. apply H1. rewrite <- E. apply root_in_names.
  - by rewrite Ha, IHr.
Qed.

(** Removing what was just appended gives the tree back. *)
Lemma prune_append_child p c t :
  c ∉ names t -> prune c (append_child p c t) = t.
Proof.
  induction t as [n ks IH] using tree_induction.
  rewrite append_child_eq, prune_eq, names_eq, not_elem_of_cons.
  intros [Hn Hc]. f_equal.
  assert (Hk : prune_kids c (map (append_child p c) ks) = ks).
  { induction IH as [|a r Ha _ IHr]; simpl in *; [done|].
    apply not_elem_of_app in Hc as [H1 H2].
    assert (Hr : root (append_child p c a) <> c).
    { rewrite root_append_child. intros E. apply H1. rewrite <- E.
      apply root_in_names. }
    apply Nat.eqb_neq in Hr. rewrite Hr. by rewrite Ha, IHr. }
  destruct (n =? p); [|done].
  rewrite prune_kids_app, Hk. simpl. rewrite Nat.eqb_refl. apply app_nil_r.
Qed.

(** In a tree without repetition the chain of an ancestor is the end of
    the chain of its descendants. *)
Lemma chain_suffix t x y :
  NoDup (names t) -> x ∈ chain y t -> exists pre, chain y t = pre ++ chain x t.
Proof.
  induction t as [n ks IH] using tree_induction.
  rewrite !chain_eq, names_eq. intros [Hn Hnd]%NoDup_cons.
  destruct (Nat.eqb_spec n y) as [->|Hny].
  - intros ->%list_elem_of_singleton. rewrite Nat.eqb_refl. by exists [].
  - destruct (chain_kids y ks) as [|a l] eqn:Ey; [by inversion 1|].
    rewrite <- Ey. intros [Hx| ->%list_elem_of_singleton]%elem_of_app.
    2:{ rewrite Nat.eqb_refl. by exists (chain_kids y ks). }
    assert (Hxk : x ∈ concat (map names ks)) by (by eapply chain_in_names_kids).
    destruct (Nat.eqb_spec n x) as [->|_]; [done|].
    cut (exists pre, chain_kids y ks = pre ++ chain_kids x ks
                     /\ chain_kids x ks <> []).
    { intros (pre & E & Hne). exists pre. rewrite E.
      destruct (chain_kids x ks); [done|].
      destruct (pre ++ n0 :: l0) eqn:E'; [by destruct pre|].
      rewrite <- E'. by rewrite <- app_assoc. }
    clear Ey Hn Hny Hxk. revert Hx.
    induction IH as [|k r Hk _ IHr]; simpl in *; [by inversion 1|].
    apply NoDup_app in Hnd as (Hndk & Hdisj & Hndr).
    destruct (chain y k) as [|b m] eqn:Ec.
    + intros Hx. destruct (IHr Hndr Hx) as (pre & E & Hne).
      exists pre. assert (Hxr : x ∈ concat (map names r))
        by (by eapply chain_in_names_kids).
      assert (Hxk : chain x k = []).
      { apply chain_nil. intros H. by apply (Hdisj x). }
      by rewrite Hxk.
    + intros Hx. destruct (Hk Hndk Hx) as [pre E].
      exists pre. rewrite E.
      assert (Hxk : x ∈ names k).
      { apply (chain_in_names y). by rewrite Ec. }
      destruct (chain_some x k Hxk) as [l' El]. rewrite El. done.
Qed.

End MoreTreeFacts.

(** ** Scans that complete *)

Section Completion.

Variable this : plugin.

Lemma parentElement_some d x :
  x ∈ names (shape d) -> x <> root (shape d) -> is_Some (parentElement d x).
Proof.
  intros Hx Hr. unfold parentElement.
  by destruct (chain_nonroot x (shape d) Hx Hr) as (p & r & ->).
Qed.

Lemma nullish_some_r {A} (a b : option A) : is_Some b -> is_Some (a ?? b).
Proof. by destruct a. Qed.

(** [hideAndEmbed] returns for every element of the tree but the root,
    provided the root is no wrapper. *)
Lemma hideAndEmbed_returns_attached d el pk owner :
  el ∈ names (shape d) -> el <> root (shape d) ->
  matches sel_wrapper (get d (root (shape d))) = false ->
  exists d', hideAndEmbed this d el pk owner = Returned d'.
Proof.
  intros Hel Hr Hroot. apply hideAndEmbed_returns. destruct pk.
  - by apply nullish_some_r, parentElement_some.
  - apply nullish_some_r, parentElement_some.
    + destruct (closest d sel_wrapper el) as [w|] eqn:E; simpl; [|done].
      apply closest_in_chain in E. by eapply chain_in_names.
    + destruct (closest d sel_wrapper el) as [w|] eqn:E; simpl; [|done].
      apply closest_nearest in E as (_ & _ & _ & Hm & _). congruence.
Qed.

Lemma new_Set_elem {A} `{EqDecision A} (x : A) l : x ∈ new_Set l -> x ∈ l.
Proof.
  unfold new_Set.
  assert (H : forall init, x ∈ fold_left (fun acc y => set_add y acc) l init ->
                           x ∈ init \/ x ∈ l).
  { induction l as [|y l IH]; intros init; simpl; [by left|].
    intros [Hi|Hl]%IH; [|right; by right].
    unfold set_add in Hi. case_bool_decide; [by left|].
    apply elem_of_app in Hi as [?| ->%list_elem_of_singleton];
      [by left | right; left]. }
  intros [Hi|Hl]%H; [by inversion Hi | done].
Qed.

(** In a document without SVG links every collected URL is a string. *)
Lemma urls_of_strings d el u :
  string_hrefs d -> el ∈ names (shape d) -> u ∈ urls_of d el ->
  exists s, u = UStr s.
Proof.
  intros Hd Hel Hu%new_Set_elem. unfold filter_Boolean in Hu.
  apply list_elem_of_omap in Hu as (v & Hv & E).
  destruct v as [v|]; [|done]. cbn [mbind option_bind] in E.
  destruct (truthy_value v); [|done]. injection E as ->.
  assert (Hh : forall x, x ∈ names (shape d) ->
            href_of x (href (at_ (get d x))) = Some u -> exists s, u = UStr s).
  { intros x Hx. pose proof (Hd x) as Hx'.
    destruct (href (at_ (get d x))) as [[s|b]|]; simpl; [| |done].
    - intros [= <-]. eauto.
    - by destruct (Hx' b Hx). }
  unfold url_sources in Hv.
  repeat (apply elem_of_cons in Hv as [Hv|Hv]);
    [| | by apply (Hh el) | | |by inversion Hv].
  - destruct (src _); [injection Hv as ->; eauto | done].
  - destruct (currentSrc _); [injection Hv as ->; eauto | done].
  - destruct (dataOriginalSrc _); [injection Hv as ->; eauto | done].
  - destruct (closest d [TagIs "a"] el) as [a|] eqn:Ea; [|done].
    apply (Hh a); [|done]. apply closest_in_chain in Ea.
    by eapply chain_in_names.
Qed.

Lemma some_raising_strings (f : url_value -> option bool) us :
  (forall s, is_Some (f (UStr s))) ->
  (forall u, u ∈ us -> exists s, u = UStr s) ->
  is_Some (some_raising f us).
Proof.
  intros Hf. induction us as [|u r IH]; intros H; cbn [some_raising]; [by eexists|].
  destruct (H u) as [s ->]; [left|]. destruct (Hf s) as [[] ->]; [by eexists|].
  apply IH. intros v Hv. apply H. by right.
Qed.

Lemma string_hrefs_raises d el :
  string_hrefs d -> el ∈ names (shape d) -> raises this d el = false.
Proof.
  intros Hd Hel. unfold raises.
  destruct (some_raising_strings (isGifUrl_of this) (urls_of d el)) as [g Hg];
    [by eexists | intros u; by apply urls_of_strings|].
  destruct (some_raising_strings (isBlocked_of this) (urls_of d el)) as [b Hb];
    [by eexists | intros u; by apply urls_of_strings|].
  rewrite Hg, Hb. destruct (negb _), g; done.
Qed.

Lemma processElement_returns d el :
  el ∈ names (shape d) -> el <> root (shape d) ->
  matches sel_wrapper (get d (root (shape d))) = false ->
  raises this d el = false ->
  exists d', processElement this d el = Returned d'.
Proof.
  intros Hel Hr Hroot Hraise. rewrite processElement_unfold, Hraise.
  destruct (skips this d el); [eauto|]. unfold dedup_or_embed.
  destruct (Js.truthy _); [destruct (isInGifPicker this d el); eauto|].
  apply hideAndEmbed_returns_attached.
  - by destruct (getOwnerNode _ _ _ _).
  - by destruct (getOwnerNode _ _ _ _).
  - rewrite <- Hroot. apply matches_static; [done|].
    destruct (getOwnerNode _ _ _ _); simpl; by rewrite ?proj_modify by done.
Qed.

Lemma processElement_root d el :
  root (shape (state_of (processElement this d el))) = root (shape d).
Proof.
  destruct (processElement_shape this d el) as [[p|] ->];
    [apply root_append_child | done].
Qed.

Lemma forEach_returns l : forall d,
  wf d ->
  (forall el, el ∈ l -> el ∈ names (shape d) /\ el <> root (shape d)) ->
  matches sel_wrapper (get d (root (shape d))) = false ->
  (forall el, el ∈ l -> raises this d el = false) ->
  exists d', forEach (processElement this) l d = Returned d'.
Proof.
  induction l as [|x r IH]; intros d Hwf Hl Hroot Hraise; cbn [forEach]; [eauto|].
  destruct (Hl x) as [Hx Hxr]; [left|].
  destruct (processElement_returns d x Hx Hxr Hroot) as [d1 E];
    [apply Hraise; left|]. rewrite E.
  pose proof (processElement_succ this d x Hwf) as [Hwf1 Hlater].
  pose proof (processElement_root d x) as R.
  rewrite E in Hwf1, Hlater, R. cbn [state_of] in Hwf1, Hlater, R.
  pose proof Hlater as (_ & L2 & _).
  assert (Hk : forall el, el ∈ r -> el ∈ names (shape d1)).
  { intros el Hel. destruct (Hl el) as [H1 _]; [by right|].
    pose proof (processElement_keeps this d x el H1) as K. by rewrite E in K. }
  apply IH; [done | | |].
  - intros el Hel. destruct (Hl el) as [H1 H2]; [by right|].
    split; [by apply Hk | congruence].
  - rewrite R, <- Hroot. apply matches_static; [done|].
    apply L2, wf_below; [done | apply root_in_names].
  - intros el Hel. destruct (Hl el) as [H1 _]; [by right|].
    apply (raises_later d d1 Hwf Hlater el (Hk el Hel)); [by apply wf_below|].
    apply Hraise. by right.
Qed.

Lemma descendant_not_root t x y :
  NoDup (names t) -> y ∈ descendants x t -> y <> root t.
Proof.
  intros Hnd [Hx Hne]%descendants_chain; [|done]. intros ->.
  destruct t as [n ks]. cbn [root] in *. rewrite chain_eq, Nat.eqb_refl in Hx.
  apply list_elem_of_singleton in Hx. congruence.
Qed.

Lemma processContainer_returns d c :
  wf d -> c ∈ names (shape d) -> c <> root (shape d) ->
  matches sel_wrapper (get d (root (shape d))) = false ->
  string_hrefs d ->
  exists d', processContainer this d c = Returned d'.
Proof.
  intros Hwf Hc Hr Hroot Hd. rewrite processContainer_eq.
  destruct (negb _); [eauto|].
  assert (Hl : forall el, el ∈ candidates d c ->
            el ∈ names (shape d) /\ el <> root (shape d)).
  { intros el [[-> _]|[Hel _]]%candidates_elem; [done|]. split.
    - eapply descendants_in_names; [apply Hwf | done].
    - eapply descendant_not_root; [apply Hwf | done]. }
  apply forEach_returns; [done | done | done |].
  intros el Hel. apply string_hrefs_raises; [done | by apply Hl].
Qed.

Lemma document_body_child d b :
  wf d -> document_body d = Some b ->
  b ∈ names (shape d) /\ b <> root (shape d).
Proof.
  intros [Hnd _]. unfold document_body. destruct (shape d) as [n ks] eqn:E.
  intros H. apply find_some in H as [H _]. rewrite names_eq in *.
  apply list_elem_of_In in H. apply NoDup_cons in Hnd as [Hn _].
  assert (Hb : b ∈ concat (map names ks)).
  { clear -H. induction ks as [|k r IH]; simpl in *; [by inversion H|].
    apply elem_of_app. apply elem_of_cons in H as [->|H];
      [left; apply root_in_names | right; by apply IH]. }
  split; [by right|]. simpl. intros ->. done.
Qed.

Lemma find_app_some {A} (f : A -> bool) l l' x :
  find f l = Some x -> find f (l ++ l') = Some x.
Proof.
  induction l as [|a l IH]; simpl; [done|]. by destruct (f a).
Qed.

(** [document.body] stays what it is while placeholders are appended. *)
Lemma document_body_processElement d el b :
  wf d -> document_body d = Some b ->
  document_body (state_of (processElement this d el)) = Some b.
Proof.
  intros Hwf Hb.
  pose proof (processElement_succ this d el Hwf) as [_ (_ & L2 & _)].
  destruct (processElement_shape this d el) as [t Ht].
  set (d1 := state_of (processElement this d el)) in *.
  unfold document_body in *. rewrite Ht.
  destruct (shape d) as [n ks] eqn:Es.
  assert (Hroots : forall p c, map root (map (append_child p c) ks) = map root ks).
  { intros p c. rewrite map_map. apply map_ext. intros k. apply root_append_child. }
  assert (Hfind : find (fun j => String.eqb (tag (at_ (get d1 j))) "body")
                       (map root ks) = Some b).
  { rewrite <- Hb. apply find_ext_in. intros j Hj. rewrite L2; [done|].
    apply wf_below; [done|]. rewrite Es, names_eq. right.
    apply list_elem_of_fmap in Hj as (k & -> & Hk).
    apply (names_kid_in k); [done | apply root_in_names]. }
  destruct t as [p|]; [|done]. rewrite append_child_eq.
  destruct (n =? p); [|by rewrite Hroots].
  rewrite map_app, Hroots. by apply find_app_some.
Qed.

Lemma document_body_forEach l b : forall d,
  wf d -> document_body d = Some b ->
  document_body (state_of (forEach (processElement this) l d)) = Some b.
Proof.
  induction l as [|x r IH]; intros d Hwf Hb; cbn [forEach]; [done|].
  pose proof (processElement_succ this d x Hwf) as [Hwf1 _].
  pose proof (document_body_processElement d x b Hwf Hb) as Hb1.
  destruct (processElement this d x) as [d1|d1]; [by apply IH | done].
Qed.

Lemma document_body_scan d c b :
  wf d -> document_body d = Some b ->
  document_body (state_of (processContainer this d c)) = Some b.
Proof.
  intros Hwf Hb. rewrite processContainer_eq. destruct (negb _); [done|].
  by apply document_body_forEach.
Qed.

(** The part of [start()] after [initSettings()] completes on a
    well-formed document with a body, without SVG links and whose root is
    no wrapper. *)
Lemma start_returns d :
  wf d -> matches sel_wrapper (get d (root (shape d))) = false ->
  string_hrefs d -> is_Some (document_body d) ->
  exists d', start this d = (Plugin (cfg this) true true, Returned d')
             /\ scan_body this d = Returned d'.
Proof.
  intros Hwf Hroot Hd [b E]. unfold start, scan_body. rewrite E.
  destruct (document_body_child d b Hwf E) as [Hb Hr].
  pose proof (document_body_scan d b b Hwf E) as Hb'.
  destruct (processContainer_returns d b Hwf Hb Hr Hroot Hd) as [d' Hrun].
  rewrite Hrun in *. cbn [state_of] in Hb'. rewrite Hb'. eauto.
Qed.

(** X1.  In a well-formed document without SVG links (no [href] that is
    an object instead of a string) and whose root is no wrapper, a scan of
    an element other than the root returns: no [TypeError] is raised,
    whatever else the elements below look like. *)
Theorem scan_of_attached_element_returns d c :
  wf d -> c ∈ names (shape d) -> c <> root (shape d) ->
  matches sel_wrapper (get d (root (shape d))) = false ->
  string_hrefs d ->
  exists d', processContainer this d c = Returned d'.
Proof. apply processContainer_returns. Qed.

End Completion.

(** ** What a scan leaves alone, and where the placeholder goes *)

Section ScanFrame.

Variable this : plugin.

Lemma forEach_evolves l : forall d,
  wf d ->
  evolves d (state_of (forEach (processElement this) l d))
  /\ forall x, x ∈ names (shape d) ->
       x ∈ names (shape (state_of (forEach (processElement this) l d))).
Proof.
  induction l as [|x r IH]; intros d Hwf; cbn [forEach].
  - split; [by apply evolves_refl | done].
  - pose proof (processElement_succ this d x Hwf) as S1.
    pose proof (processElement_keeps this d x) as K1.
    destruct (processElement this d x) as [d1|d1]; cbn [state_of] in *; [|done].
    destruct (IH d1) as [S2 K2]; [apply S1|].
    split; [by eapply evolves_trans | auto].
Qed.

(** X3.  Whether it returns or raises, a scan leaves the host's document
    in place: every element stays in the tree with its host attributes and
    its ancestors, and what the scan adds to the tree is no scan candidate
    itself. *)
Theorem scan_keeps_host_document d c :
  wf d ->
  wf (state_of (processContainer this d c))
  /\ (forall x, x ∈ names (shape d) ->
        x ∈ names (shape (state_of (processContainer this d c)))
        /\ at_ (get (state_of (processContainer this d c)) x) = at_ (get d x)
        /\ chain x (shape (state_of (processContainer this d c)))
           = chain x (shape d))
  /\ (forall x, x ∈ names (shape (state_of (processContainer this d c))) ->
        x ∉ names (shape d) ->
        matches sel_candidate (get (state_of (processContainer this d c)) x)
        = false).
Proof.
  intros Hwf.
  assert (H : evolves d (state_of (processContainer this d c))
              /\ forall x, x ∈ names (shape d) ->
                   x ∈ names (shape (state_of (processContainer this d c)))).
  { rewrite processContainer_eq. destruct (negb _).
    - split; [by apply evolves_refl | done].
    - by apply forEach_evolves. }
  destruct H as [[Hwf' (L1 & L2 & L3 & L4 & L5)] K].
  split; [done|]. split.
  - intros x Hx. pose proof (wf_below d x Hwf Hx) as Hlt.
    split; [auto|]. split; [auto|]. by apply L4; auto.
  - intros x Hx Hout. apply L5; [done|].
    destruct (decide (x < next d)) as [Hlt|Hge]; [|lia].
    by destruct (L4 x Hx Hlt).
Qed.

(** X4.  A scan changes nothing at all when, for every candidate of the
    container, the two URL tests return and not both [true]: no candidate
    has both a GIF URL and a blocked URL, and none has an [href] that is an
    object and makes a test raise. *)
Theorem scan_leaves_harmless_subtree d c :
  (forall el, el ∈ candidates d c -> harmless_urls this d el) ->
  processContainer this d c = Returned d.
Proof.
  intros H. apply settled_scan. right. intros el Hel.
  specialize (H el Hel). unfold harmless_urls in H. unfold skips, raises.
  destruct H as [-> | [-> ->]]; cbn [holds negb];
    rewrite ?orb_true_r, ?andb_false_r; done.
Qed.

Lemma hideAndEmbed_result d el pk owner d' :
  hideAndEmbed this d el pk owner = Returned d' ->
  exists t,
    insert_target d el pk owner = Some t
    /\ shape d' = append_child t (next d) (shape d)
    /\ next d' = S (next d)
    /\ get d' (next d) = embed_elem (wrapper_of d el pk) owner pk (next d).
Proof.
  destruct (hideAndEmbed_eq this d el pk owner) as (w & t & d2 & -> & Ew & Et & E2).
  assert (E : shape d2 = shape d /\ next d2 = next d).
  { subst d2. by destruct pk, owner. }
  destruct E as [Es En]. destruct t as [t|]; [|done]. simpl. intros [= <-].
  exists t. simpl. rewrite Es, En. split; [|split; [done|split; [done|]]].
  - unfold insert_target. rewrite Et. subst w. by destruct pk.
  - unfold get. simpl. rewrite lookup_total_insert_eq.
    unfold wrapper_of. by subst w.
Qed.

Lemma insert_target_in_names d el pk owner t :
  (forall o, owner = Some o -> o ∈ names (shape d)) ->
  insert_target d el pk owner = Some t -> t ∈ names (shape d).
Proof.
  intros Ho.
  assert (Hp : forall x, parentElement d x = Some t -> t ∈ names (shape d)).
  { intros x. unfold parentElement.
    destruct (chain x (shape d)) as [|a [|b l]] eqn:E; try done.
    intros [= ->]. apply (chain_in_names x). rewrite E. right. left. }
  unfold insert_target. destruct pk.
  - destruct owner as [o|]; simpl; [intros [= <-]; auto | apply Hp].
  - destruct (closest d sel_accessories _) as [a|] eqn:E; simpl; [|apply Hp].
    intros [= <-]. apply closest_in_chain in E. by eapply chain_in_names.
Qed.

(** X5.  The placeholder that [hideAndEmbed] appends becomes a child of the
    insertion target - the owner in the picker, otherwise the nearest
    accessories container of the wrapper or else the wrapper's parent -
    and every other element keeps its parent. *)
Theorem placeholder_is_child_of_insert_target d el pk owner d' :
  wf d ->
  (forall o, owner = Some o -> o ∈ names (shape d)) ->
  hideAndEmbed this d el pk owner = Returned d' ->
  exists t,
    insert_target d el pk owner = Some t
    /\ parentElement d' (next d) = Some t
    /\ forall x, x ∈ names (shape d) -> parentElement d' x = parentElement d x.
Proof.
  intros Hwf Ho Hrun.
  destruct (hideAndEmbed_result d el pk owner d' Hrun) as (t & Et & Es & _ & _).
  exists t. split; [done|].
  pose proof (insert_target_in_names d el pk owner t Ho Et) as Ht.
  assert (Hfresh : next d ∉ names (shape d)).
  { intros H. apply (wf_below d) in H; [lia | done]. }
  split.
  - unfold parentElement. rewrite Es.
    rewrite chain_append_new by (done || apply Hwf).
    by destruct (chain_some t (shape d) Ht) as [r ->].
  - intros x Hx. unfold parentElement. rewrite Es.
    rewrite chain_append_child; [done|]. intros ->. done.
Qed.

End ScanFrame.

(** ** The placeholder's listeners *)

Section Placeholder.

Variable this : plugin.

Lemma fold_display_reset l w : forall d,
  display (css (get d w)) = "" ->
  display (css (get (fold_left (fun d x => modify x (set_display "") d) l d) w))
  = "".
Proof.
  induction l as [|x l IH]; intros d H; simpl; [done|].
  apply IH. rewrite get_modify. by case_decide.
Qed.

Lemma reveal_wrapper_shown w o pk k d :
  display (css (get (reveal w o pk k d) w)) = "".
Proof.
  unfold reveal.
  set (l := querySelectorAll _ _ _).
  set (d1 := fold_left _ l _).
  assert (H1 : display (css (get d1 w)) = "").
  { subst d1. apply fold_display_reset. by rewrite get_modify_eq. }
  clearbody d1.
  assert (H2 : display (css (get (match o with
                 | Some o0 => modify o0 (set_btgOwnerDone None) d1
                 | None => d1 end) w)) = "").
  { destruct o; [|done]. by rewrite (proj_modify (fun e => display (css e))). }
  set (d2 := match o with Some _ => _ | None => _ end) in *. clearbody d2.
  destruct pk, o; try done.
  by rewrite !(proj_modify (fun e => display (css e))).
Qed.

Lemma reveal_owner_released w o pk k d :
  btgOwnerDone (data (get (reveal w (Some o) pk k d) o)) = None
  /\ (pk = true ->
      pointerEvents (css (get (reveal w (Some o) pk k d) o)) = ""
      /\ btgClickBlocked (data (get (reveal w (Some o) pk k d) o)) = None).
Proof.
  unfold reveal.
  set (l := querySelectorAll _ _ _).
  set (d1 := fold_left _ l _). clearbody d1.
  destruct pk; split; try done.
  - rewrite !(proj_modify (fun e => btgOwnerDone (data e))) by done.
    unfold remove, get. simpl. by rewrite lookup_total_insert_eq.
  - intros _. by rewrite !get_modify_eq.
  - unfold remove, get. simpl. by rewrite lookup_total_insert_eq.
Qed.

(** X6.  A click on the reveal control of a placeholder that
    [hideAndEmbed] has just appended undoes what [hideAndEmbed] did to
    the tree and to the owner: the tree is the one from before, the wrapper
    is shown again, the owner no longer carries the owner marker and, in the
    picker, takes pointer events again; no host handler runs. *)
Theorem reveal_undoes_hideAndEmbed d el pk owner d' :
  wf d ->
  hideAndEmbed this d el pk owner = Returned d' ->
  shape (click_toggle d' (next d)).1 = shape d
  /\ (click_toggle d' (next d)).2 = []
  /\ display (css (get (click_toggle d' (next d)).1 (wrapper_of d el pk))) = ""
  /\ forall o, owner = Some o ->
       btgOwnerDone (data (get (click_toggle d' (next d)).1 o)) = None
       /\ (pk = true ->
           pointerEvents (css (get (click_toggle d' (next d)).1 o)) = ""
           /\ btgClickBlocked (data (get (click_toggle d' (next d)).1 o)) = None).
Proof.
  intros Hwf Hrun.
  destruct (hideAndEmbed_result this d el pk owner d' Hrun)
    as (t & Et & Es & En & Eg).
  assert (Hfresh : next d ∉ names (shape d)).
  { intros H. apply (wf_below d) in H; [lia | done]. }
  rewrite (click_toggle_reveal d' (next d) (wrapper_of d el pk) owner pk (next d));
    [|rewrite Eg; by eexists|by rewrite Eg].
  cbn [fst snd].
  split; [|split; [done|split; [apply reveal_wrapper_shown|]]].
  - rewrite reveal_shape. rewrite Es. by apply prune_append_child.
  - intros o ->. apply reveal_owner_released.
Qed.

Lemma run_listeners_swallow evt l d :
  evt ∈ l ->
  run_listeners evt (map (fun e => (e, Swallow)) l) d = (d, true, []).
Proof.
  induction l as [|e l IH]; intros H; [by inversion H|].
  cbn [map run_listeners]. destruct (String.eqb_spec e evt) as [->|Hne].
  - cbn [fire].
    assert (R : exists s, run_listeners evt (map (fun e => (e, Swallow)) l) d
                          = (d, s, [])).
    { clear. induction l as [|e l [s IH]]; [by exists false|].
      cbn [map run_listeners]. destruct (String.eqb e evt); [|by exists s].
      cbn [fire]. rewrite IH. by exists true. }
    destruct R as [s ->]. done.
  - apply IH. apply elem_of_cons in H as [->|H]; done.
Qed.

(** X7.  Over a compact (picker) placeholder the five hover events go
    nowhere: dispatched at the placeholder they change nothing and reach no
    handler of the host, whatever its ancestors listen for. *)
Theorem compact_placeholder_swallows_hover d el owner d' evt :
  hideAndEmbed this d el true owner = Returned d' ->
  evt ∈ hover_events ->
  dispatch evt (next d) d' = (d', []).
Proof.
  intros Hrun Hevt.
  destruct (hideAndEmbed_result this d el true owner d' Hrun)
    as (t & _ & _ & _ & Eg).
  unfold dispatch.
  destruct (chain (next d) (shape d')) as [|n r] eqn:Ec; [done|].
  assert (n = next d) as ->.
  { destruct (decide (next d ∈ names (shape d'))) as [Hin|Hout].
    - destruct (chain_some _ _ Hin) as [r' E]. rewrite E in Ec. by inversion Ec.
    - apply chain_nil in Hout. by rewrite Hout in Ec. }
  cbn [bubble]. rewrite Eg. cbn [embed_elem listeners].
  by rewrite run_listeners_swallow.
Qed.

End Placeholder.

(** ** What the clearing phase restores and what it leaves alone *)

Section Clearing.

Variable this : plugin.

Lemma chain_root x t : x ∈ names t -> root t ∈ chain x t.
Proof.
  intros Hx. destruct (chain_some x t Hx) as [r E]. destruct t as [n ks].
  rewrite chain_eq in *. cbn [root]. destruct (n =? x); [left|].
  destruct (chain_kids x ks); [done|]. apply elem_of_app. right. left.
Qed.

Lemma prune_keeps k t x :
  x ∈ names t -> k ∉ chain x t -> x ∈ names (prune k t).
Proof.
  induction t as [n ks IH] using tree_induction.
  rewrite prune_eq, chain_eq, !names_eq.
  destruct (Nat.eqb_spec n x) as [->|Hne]; [intros _ _; left|].
  intros [->|Hx]%elem_of_cons; [done|]. intros Hk. right.
  assert (Hk' : k ∉ chain_kids x ks).
  { intros H. apply Hk. destruct (chain_kids x ks); [done|].
    apply elem_of_app. by left. }
  clear Hk Hne. induction IH as [|a r Ha _ IHr]; simpl in *; [done|].
  destruct (decide (x ∈ names a)) as [Hin|Hout].
  - destruct (chain_some x a Hin) as [l E]. rewrite E in Hk'.
    destruct (Nat.eqb_spec (root a) k) as [Er|_].
    + exfalso. apply Hk'. rewrite <- E, <- Er. by apply chain_root.
    + simpl. apply elem_of_app. left. apply Ha; [done|]. by rewrite E.
  - apply elem_of_app in Hx as [Hx|Hx]; [done|].
    apply chain_nil in Hout. rewrite Hout in Hk'.
    destruct (root a =? k); simpl; [by apply IHr|].
    apply elem_of_app. right. by apply IHr.
Qed.

Lemma fold_remove_keeps x l : forall d,
  wf d -> x ∈ names (shape d) ->
  (forall k, k ∈ l -> k ∉ chain x (shape d)) ->
  x ∈ names (shape (fold_left (fun d e => remove e d) l d))
  /\ chain x (shape (fold_left (fun d e => remove e d) l d)) = chain x (shape d).
Proof.
  induction l as [|a l IH]; intros d Hwf Hx Hl; simpl; [done|].
  pose proof (safe_remove a d Hwf) as (Hwf1 & _).
  assert (Hx1 : x ∈ names (shape (remove a d))).
  { simpl. apply prune_keeps; [done|]. apply Hl. left. }
  assert (Hc1 : chain x (shape (remove a d)) = chain x (shape d)).
  { simpl. apply chain_prune; [apply Hwf | done]. }
  destruct (IH (remove a d) Hwf1 Hx1) as [H1 H2].
  - intros k Hk. rewrite Hc1. apply Hl. by right.
  - split; [done|]. by rewrite H2.
Qed.

Lemma clearAll_shape d :
  shape (clearAll d)
  = shape (fold_left (fun d e => remove e d)
                     (document_querySelectorAll d [HasData KEmbed]) d).
Proof.
  destruct (clearAll_eq d) as (dA & dB & dC & EA & EB & EC & ->).
  rewrite fold_shape by done. subst dC. rewrite fold_shape by done.
  subst dB. rewrite fold_shape by apply unmark_shape. by subst dA.
Qed.

Lemma clearAll_proj {A} (pi : elem -> A) d x :
  (forall e, pi (set_display "" e) = pi e) ->
  (forall e, pi (set_btgDone None e) = pi e) ->
  (forall e, pi (set_btgOwnerDone None e) = pi e) ->
  (forall e, pi (set_pointerEvents "" e) = pi e) ->
  (forall e, pi (set_btgClickBlocked None e) = pi e) ->
  pi (get (clearAll d) x) = pi (get d x).
Proof.
  intros H1 H2 H3 H4 H5.
  destruct (clearAll_eq d) as (dA & dB & dC & EA & EB & EC & ->).
  rewrite (fold_proj pi) by (intros; by rewrite !(proj_modify pi)).
  subst dC. rewrite (fold_proj pi) by (intros; by rewrite !(proj_modify pi)).
  subst dB. rewrite (fold_proj pi).
  - subst dA. by rewrite fold_remove_get.
  - intros d0 el i. unfold unmark.
    destruct (closest _ _ _); by rewrite !(proj_modify pi).
Qed.

Lemma reset_fold {A} (pi : elem -> A) (v : A) (h : dom -> nat -> dom) l :
  (forall d el, pi (get (h d el) el) = v) ->
  (forall d el i, pi (get (h d el) i) = v \/ pi (get (h d el) i) = pi (get d i)) ->
  forall d x, x ∈ l \/ pi (get d x) = v -> pi (get (fold_left h l d) x) = v.
Proof.
  intros Hs Hf. induction l as [|el r IH]; intros d x; simpl.
  - intros [H|H]; [by inversion H | done].
  - intros H. apply IH.
    destruct H as [[->|?]%elem_of_cons|H]; [right; apply Hs | by left |].
    right. destruct (Hf d el x) as [E|E]; [done | by rewrite E].
Qed.

Lemma clearAll_no_placeholder d :
  wf d -> btgEmbed (data (get d (root (shape d)))) = None ->
  document_querySelectorAll (clearAll d) [HasData KEmbed] = [].
Proof.
  intros Hwf Hroot. apply qsa_data_nil. intros x. rewrite clearAll_shape.
  intros Hx. cbn [read_data].
  rewrite (clearAll_proj (fun e => btgEmbed (data e))) by done.
  destruct (btgEmbed (data (get d x))) as [v|] eqn:E; [exfalso|done].
  pose proof (fold_remove_safe (document_querySelectorAll d [HasData KEmbed])
                d Hwf) as (_ & _ & _ & S4 & _).
  pose proof (S4 x Hx) as Hx0.
  destruct (qsa_data_elem d KEmbed x Hx0) as [Hq|Hq];
    [|cbn [read_data] in Hq; congruence].
  revert Hx. apply fold_remove_removes; [done..|].
  intros ->. congruence.
Qed.

(** X8.  Unloading twice is unloading once: on a well-formed document
    whose root is no placeholder, a second [stop()] changes neither the
    document nor the plugin. *)
Theorem stop_is_idempotent d :
  wf d -> btgEmbed (data (get d (root (shape d)))) = None ->
  stop (stop this d).1 (stop this d).2 = stop this d.
Proof.
  intros Hwf Hroot. unfold stop. cbn [fst snd cfg]. f_equal.
  destruct (clearAll_eq (clearAll d)) as (dA & dB & dC & EA & EB & EC & ->).
  rewrite clearAll_no_placeholder in EA by done. cbn [fold_left] in EA.
  subst dA. rewrite clearAll_no_marker in EB by done. cbn [fold_left] in EB.
  subst dB. rewrite clearAll_no_marker in EC by done. cbn [fold_left] in EC.
  subst dC. by rewrite clearAll_no_marker.
Qed.

(** X9.  What [stop()] gives back: in the document it leaves, no element
    carries a processed, owner or click-blocked marker; every element that
    carried the processed marker is displayed again, and every element that
    carried the click-blocked marker takes pointer events again. *)
Theorem stop_restores_marked_elements d :
  (forall k, k <> KEmbed ->
     document_querySelectorAll (stop this d).2 [HasData k] = [])
  /\ forall x, x ∈ names (shape (stop this d).2) ->
       (is_Some (btgDone (data (get d x))) ->
        display (css (get (stop this d).2 x)) = "")
       /\ (is_Some (btgClickBlocked (data (get d x))) ->
           pointerEvents (css (get (stop this d).2 x)) = "").
Proof.
  cbn [stop snd]. split; [intros k; apply clearAll_no_marker|].
  intros x. rewrite clearAll_shape.
  destruct (clearAll_eq d) as (dA & dB & dC & EA & EB & EC & ->).
  rewrite <- EA. intros Hx. split.
  - intros [v Hv].
    rewrite (fold_proj (fun e => display (css e)))
      by (intros; by rewrite !(proj_modify (fun e => display (css e)))).
    subst dC. rewrite (fold_proj (fun e => display (css e)))
      by (intros; by rewrite !(proj_modify (fun e => display (css e)))).
    subst dB. apply (reset_fold (fun e => display (css e)) "" unmark).
    + intros d0 el. unfold unmark. destruct (closest _ _ _) as [w|].
      * rewrite get_modify. case_decide; [done|].
        rewrite (proj_modify (fun e => display (css e))) by done.
        by rewrite get_modify_eq.
      * rewrite (proj_modify (fun e => display (css e))) by done.
        by rewrite get_modify_eq.
    + intros d0 el i. unfold unmark. destruct (closest _ _ _) as [w|];
        rewrite !get_modify; repeat case_decide; auto.
    + destruct (qsa_data_elem dA KDone x Hx) as [Hq|Hq]; [by left|].
      cbn [read_data] in Hq. subst dA. rewrite fold_remove_get in Hq. congruence.
  - intros [v Hv].
    apply (reset_fold (fun e => pointerEvents (css e)) ""
             (fun d el => modify el (set_btgClickBlocked None)
                                 (modify el (set_pointerEvents "") d))).
    + intros d0 el. by rewrite !get_modify_eq.
    + intros d0 el i. rewrite !get_modify. case_decide; auto.
    + assert (Hx' : x ∈ names (shape dC)).
      { subst dC. rewrite fold_shape by done. subst dB.
        by rewrite fold_shape by apply unmark_shape. }
      destruct (qsa_data_elem dC KClickBlocked x Hx') as [Hq|Hq]; [by left|].
      cbn [read_data] in Hq. exfalso. revert Hq. subst dC.
      rewrite (fold_proj (fun e => btgClickBlocked (data e)))
        by (intros; by rewrite !(proj_modify (fun e => btgClickBlocked (data e)))).
      subst dB. rewrite (fold_proj (fun e => btgClickBlocked (data e))).
      * subst dA. rewrite fold_remove_get. congruence.
      * intros d0 el i. unfold unmark. destruct (closest _ _ _);
          by rewrite !(proj_modify (fun e => btgClickBlocked (data e))).
Qed.

(** X10.  [stop()] takes nothing of the host page away: an element with no
    placeholder among itself and its ancestors stays in the document, under
    the same ancestors and with the same host attributes. *)
Theorem stop_keeps_host_elements d x :
  wf d -> x ∈ names (shape d) ->
  (forall a, a ∈ chain x (shape d) -> btgEmbed (data (get d a)) = None) ->
  x ∈ names (shape (stop this d).2)
  /\ chain x (shape (stop this d).2) = chain x (shape d)
  /\ at_ (get (stop this d).2 x) = at_ (get d x).
Proof.
  intros Hwf Hx Hc. cbn [stop snd]. rewrite clearAll_shape.
  destruct (fold_remove_keeps x (document_querySelectorAll d [HasData KEmbed])
              d Hwf Hx) as [H1 H2].
  - intros k Hk Hin. specialize (Hc k Hin).
    unfold document_querySelectorAll in Hk.
    apply list_elem_of_filter in Hk as [Hm _].
    unfold matches in Hm. simpl in Hm. rewrite Hc in Hm. done.
  - split; [done|]. split; [done|]. by apply (clearAll_proj at_).
Qed.

(** X11.  However a session on a host-made document went, [stop()] leaves
    a document without any reveal control and without any listener of the
    plugin: no placeholder survives it. *)
Theorem stop_ends_every_placeholder d0 acts :
  pristine d0 ->
  pristine (stop (run (this, d0) acts).1 (run (this, d0) acts).2).2.
Proof.
  intros H0. cbn [stop snd]. apply clearAll_pristine.
  apply (inv_run acts (this, d0)). by apply pristine_inv.
Qed.

End Clearing.

(** ** The picker surface and the owner *)

Section Surface.

Variable this : plugin.

Lemma closest_suffix d sel x y pre :
  chain y (shape d) = pre ++ chain x (shape d) ->
  is_Some (closest d sel x) -> is_Some (closest d sel y).
Proof.
  unfold closest. intros -> H. induction pre as [|a pre IH]; simpl; [done|].
  destruct (matches sel (get d a)); [by eexists | done].
Qed.

Lemma picker_inherited d x y :
  NoDup (names (shape d)) -> y ∈ descendants x (shape d) ->
  isInGifPicker this d x = true -> isInGifPicker this d y = true.
Proof.
  intros Hnd Hy. apply descendants_chain in Hy as [Hin _]; [|done].
  destruct (chain_suffix _ _ _ Hnd Hin) as [pre E].
  unfold isInGifPicker. rewrite !orb_true_iff, !bool_decide_eq_true.
  pose proof (closest_suffix d) as S.
  intros [[H|H]|H]; eauto.
Qed.

(** X12.  Being inside the GIF picker is inherited: every element below
    an element that is on the picker surface is on the picker surface. *)
Theorem picker_surface_is_inherited d x y :
  NoDup (names (shape d)) -> y ∈ descendants x (shape d) ->
  isInGifPicker this d x = true -> isInGifPicker this d y = true.
Proof. apply picker_inherited. Qed.

(** X13.  With the picker switch off, a scan of any element on the picker
    surface changes nothing, however many blocked GIFs lie below it,
    provided no URL test raises for a candidate (which an [href] that is an
    object instead of a string can cause). *)
Theorem scan_leaves_picker_alone_when_setting_off d c :
  NoDup (names (shape d)) ->
  blockInPicker (cfg this) = false ->
  isInGifPicker this d c = true ->
  (forall el, el ∈ candidates d c -> raises this d el = false) ->
  processContainer this d c = Returned d.
Proof.
  intros Hnd Hoff Hpk Hraise. apply settled_scan. right. intros el Hel.
  split; [|by apply Hraise].
  assert (Hin : isInGifPicker this d el = true).
  { apply candidates_elem in Hel as [[-> _]|[Hd _]]; [done|].
    by eapply picker_inherited. }
  unfold skips. rewrite Hin, Hoff. simpl. by rewrite orb_true_r.
Qed.

(** X14.  The owner that [getOwnerNode] resolves is the element itself or
    one of its ancestors, and an element gets no owner only when it has no
    parent. *)
Theorem owner_is_self_or_ancestor d el pk :
  (forall o, getOwnerNode this d el pk = Some o -> o ∈ chain el (shape d))
  /\ (getOwnerNode this d el pk = None -> parentElement d el = None).
Proof.
  assert (Hp : forall o, parentElement d el = Some o -> o ∈ chain el (shape d)).
  { intros o. unfold parentElement.
    destruct (chain el (shape d)) as [|a [|b l]]; try done.
    intros [= ->]. right. left. }
  assert (Hn : forall sel (r : option nat) o,
             (r = Some o -> o ∈ chain el (shape d)) ->
             closest d sel el ?? r = Some o -> o ∈ chain el (shape d)).
  { intros sel r o Hr. destruct (closest d sel el) as [a|] eqn:E; simpl; [|done].
    intros [= <-]. by eapply closest_in_chain. }
  assert (Hl : forall (a b : option nat) o,
             a ?? b = Some o -> a = Some o \/ (a = None /\ b = Some o)).
  { intros [a|] b o; simpl; auto. }
  unfold getOwnerNode. destruct pk; split.
  - intros o. apply Hn, Hp.
  - by destruct (closest _ _ _).
  - intros o H.
    apply Hl in H as [H|[_ H]]; [|by apply Hp].
    apply Hl in H as [H|[_ H]]; [|by eapply closest_in_chain].
    apply Hl in H as [H|[_ H]]; [|by eapply closest_in_chain].
    apply Hl in H as [H|[_ H]]; by eapply closest_in_chain.
  - destruct (closest d (sel_class "imageWrapper") el); [done|].
    destruct (closest d (sel_class "embedWrapper") el); [done|].
    destruct (closest d [TagIs "article"] el); [done|].
    by destruct (closest d [IdStartsWith "message-accessories"] el).
Qed.

End Surface.

(** ** The settings code *)

Section SettingsFacts.

Variable su : gmap string bool -> string -> gmap string bool.

Lemma entry_induction (P : entry -> Prop) :
  (forall i v, P (Entry i v None)) ->
  (forall i v g, Forall P g -> P (Entry i v (Some g))) ->
  forall s, P s.
Proof.
  intros Hleaf Hgroup. fix IH 1. intros [i v [g|]]; [|apply Hleaf].
  apply Hgroup. induction g as [|x r IHr]; constructor; [apply IH | exact IHr].
Qed.

(** One step of the [reduce] of [getSetting]. *)
Lemma getSetting_step key i s r (acc : option (list nat)) :
  reduce (fun found i s =>
            found ?? (if bool_decide (s_id s = Some key) then Some [i]
                      else (s_settings s ≫= find_id key)
                           ≫= (fun j => Some [i; j])))
         i (s :: r) acc
  = reduce (fun found i s =>
              found ?? (if bool_decide (s_id s = Some key) then Some [i]
                        else (s_settings s ≫= find_id key)
                             ≫= (fun j => Some [i; j])))
           (S i) r
           (acc ?? (if bool_decide (s_id s = Some key) then Some [i]
                    else (s_settings s ≫= find_id key)
                         ≫= (fun j => Some [i; j]))).
Proof. reflexivity. Qed.

Lemma reduce_found {A} (f : nat -> A -> option (list nat)) i xs p :
  reduce (fun found i s => found ?? f i s) i xs (Some p) = Some p.
Proof. revert i. induction xs as [|x r IH]; intros i; simpl; [done | apply IH]. Qed.

Lemma find_id_Some key g j :
  find_id key g = Some j -> exists x, g !! j = Some x /\ s_id x = Some key.
Proof.
  unfold find_id. destruct (list_find _ g) as [[j' x]|] eqn:E; [|done].
  simpl. intros [= <-]. apply list_find_Some in E as (H1 & H2 & _). eauto.
Qed.

Lemma find_id_None key g :
  find_id key g = None <-> forall x, x ∈ g -> s_id x <> Some key.
Proof.
  unfold find_id. destruct (list_find _ g) as [[j' x]|] eqn:E; simpl.
  - split; [done|]. intros H. apply list_find_Some in E as (H1 & H2 & _).
    exfalso. apply (H x); [|done]. by eapply list_elem_of_lookup_2.
  - split; [|done]. intros _ x Hx. apply list_find_None in E.
    by eapply Forall_forall in E.
Qed.

Lemma entry_at_cons s r j q :
  entry_at (s :: r) (S j :: q) = entry_at r (j :: q).
Proof. by destruct q. Qed.

Lemma getSetting_from key : forall c i p,
  reduce (fun found i s =>
            found ?? (if bool_decide (s_id s = Some key) then Some [i]
                      else (s_settings s ≫= find_id key)
                           ≫= (fun j => Some [i; j])))
         i c None = Some p ->
  exists j q x, p = (i + j) :: q /\ length q <= 1
                /\ entry_at c (j :: q) = Some x /\ s_id x = Some key.
Proof.
  induction c as [|s r IH]; intros i p; [done|].
  rewrite getSetting_step. cbn [nullish].
  case_bool_decide as Hid.
  - rewrite reduce_found. intros [= <-]. exists 0, [], s.
    rewrite Nat.add_0_r. simpl. auto.
  - destruct (s_settings s ≫= find_id key) as [j|] eqn:E; cbn [mbind option_bind].
    + rewrite reduce_found. intros [= <-].
      destruct (s_settings s) as [g|] eqn:Eg; [|done]. simpl in E.
      apply find_id_Some in E as (x & Hx & Hk).
      exists 0, [j], x. rewrite Nat.add_0_r. simpl. rewrite Eg. simpl. auto.
    + intros H. apply IH in H as (j & q & x & -> & Hq & Hx & Hk).
      exists (S j), q, x. rewrite entry_at_cons.
      split; [f_equal; lia | auto].
Qed.

Lemma getSetting_none key : forall c i,
  reduce (fun found i s =>
            found ?? (if bool_decide (s_id s = Some key) then Some [i]
                      else (s_settings s ≫= find_id key)
                           ≫= (fun j => Some [i; j])))
         i c None = None
  <-> forall s, s ∈ c ->
        s_id s <> Some key
        /\ forall g x, s_settings s = Some g -> x ∈ g -> s_id x <> Some key.
Proof.
  induction c as [|s r IH]; intros i.
  - split; [|done]. intros _ s Hs. by inversion Hs.
  - rewrite getSetting_step. cbn [nullish]. case_bool_decide as Hid.
    + rewrite reduce_found. split; [done|]. intros H.
      destruct (H s) as [H1 _]; [left | done].
    + destruct (s_settings s) as [g|] eqn:Eg; cbn [mbind option_bind].
      * destruct (find_id key g) as [j|] eqn:E; cbn [mbind option_bind].
        { rewrite reduce_found. split; [done|]. intros H.
          destruct (H s) as [_ H2]; [left|].
          apply find_id_Some in E as (x & Hx & Hk).
          exfalso. apply (H2 g x); [by rewrite Eg | | done].
          by eapply list_elem_of_lookup_2. }
        rewrite IH. split.
        { intros H s' [->|Hs]%elem_of_cons; [|by apply H].
          split; [done|]. intros g' x. rewrite Eg. intros [= <-].
          by apply find_id_None. }
        { intros H s' Hs. apply H. by right. }
      * rewrite IH. split.
        { intros H s' [->|Hs]%elem_of_cons; [|by apply H].
          split; [done|]. intros g' x. by rewrite Eg. }
        { intros H s' Hs. apply H. by right. }
Qed.

(** X15.  [getSetting] gives an entry with the asked id, found among the
    entries of the configuration or directly inside one of their groups; it
    gives nothing exactly when no entry there has the id - an entry nested
    deeper is never found. *)
Theorem getSetting_finds_entry_with_id c key :
  (forall p, getSetting c key = Some p ->
     length p <= 2 /\ exists s, entry_at c p = Some s /\ s_id s = Some key)
  /\ (getSetting c key = None <->
      forall s, s ∈ c ->
        s_id s <> Some key
        /\ forall g x, s_settings s = Some g -> x ∈ g -> s_id x <> Some key).
Proof.
  split; [|apply getSetting_none].
  intros p H. apply getSetting_from in H as (j & q & x & -> & Hq & Hx & Hk).
  simpl. split; [lia | eauto].
Qed.

Lemma skeleton_id s : s_id (skeleton s) = s_id s.
Proof. by destruct s. Qed.

Lemma skeleton_settings s :
  s_settings (skeleton s) = map skeleton <$> s_settings s.
Proof. by destruct s. Qed.

Lemma find_id_skeleton key g : find_id key (map skeleton g) = find_id key g.
Proof.
  unfold find_id. induction g as [|x r IH]; [done|].
  cbn [map list_find]. rewrite skeleton_id. case_decide; [done|].
  destruct (list_find _ (map skeleton r)) as [[j y]|],
           (list_find _ r) as [[j' y']|]; simpl in *; congruence.
Qed.

Lemma getSetting_skeleton c key :
  getSetting (map skeleton c) key = getSetting c key.
Proof.
  unfold getSetting. generalize 0 (@None (list nat)).
  induction c as [|s r IH]; intros i acc; [done|].
  cbn [map]. rewrite !getSetting_step, IH, skeleton_id, skeleton_settings.
  do 3 f_equal. destruct (s_settings s) as [g|]; [|done]. simpl.
  by rewrite find_id_skeleton.
Qed.

Lemma map_alter_same {A B} (f : A -> B) (h : A -> A) i (l : list A) :
  (forall x, f (h x) = f x) -> map f (alter h i l) = map f l.
Proof.
  intros H. revert i. induction l as [|a l IH]; intros [|i]; simpl; try done.
  - by rewrite H.
  - f_equal. apply IH.
Qed.

Lemma assign_skeleton p v : forall c,
  map skeleton (assign p v c) = map skeleton c.
Proof.
  induction p as [|i p IH]; intros c; [done|].
  destruct p as [|j p]; cbn [assign].
  - apply map_alter_same. by intros [? ? ?].
  - apply map_alter_same. intros [a b [g|]]; [|done].
    cbn [s_id s_value s_settings fmap option_fmap option_map skeleton].
    do 2 f_equal. exact (IH g).
Qed.

Lemma getSetting_assign p v c key :
  getSetting (assign p v c) key = getSetting c key.
Proof.
  by rewrite <- getSetting_skeleton, assign_skeleton, getSetting_skeleton.
Qed.

Lemma value_at_assign p v : forall c s,
  entry_at c p = Some s -> entry_at (assign p v c) p ≫= s_value = v.
Proof.
  induction p as [|i p IH]; intros c s; [done|].
  destruct p as [|j p]; cbn [assign entry_at].
  - intros H. rewrite list_lookup_alter_eq, H. done.
  - rewrite list_lookup_alter_eq.
    destruct (c !! i) as [[a b [g|]]|]; try done. simpl. apply IH.
Qed.

Lemma value_at_assign_ne p v : forall c p',
  p <> p' ->
  entry_at (assign p v c) p' ≫= s_value = entry_at c p' ≫= s_value.
Proof.
  induction p as [|i p IH]; intros c p' Hne; [done|].
  destruct p' as [|i' q]; [done|].
  destruct (decide (i = i')) as [<-|Hi].
  - destruct p as [|j p]; cbn [assign].
    + destruct q as [|k q]; [done|]. cbn [entry_at].
      rewrite list_lookup_alter_eq. by destruct (c !! i) as [[? ? ?]|].
    + destruct q as [|k q]; cbn [entry_at]; rewrite list_lookup_alter_eq.
      * by destruct (c !! i) as [[? ? ?]|].
      * destruct (c !! i) as [[a b [g|]]|]; try done. simpl.
        apply (IH g (k :: q)). congruence.
  - assert (E : forall h, alter h i c !! i' = c !! i')
      by (intros h; by apply list_lookup_alter_ne).
    destruct p as [|j p], q as [|k q]; cbn [assign entry_at]; by rewrite E.
Qed.

(** X16.  Writing a value that is not [undefined] to a declared setting
    through [this.settings] returns, the setting then reads as the value
    written, and every other setting reads as before. *)
Theorem settings_set_then_get st key b :
  is_Some (getSetting (config st) key) ->
  exists st',
    settings_set su st key (Some b) = Ok st'
    /\ settings_get st' key = Some b
    /\ forall k, k <> key -> settings_get st' k = settings_get st k.
Proof.
  intros [p Hp]. unfold settings_set. cbn [Data_save config saved].
  rewrite Hp. eexists. split; [done|].
  pose proof (getSetting_from _ _ _ _ Hp) as (j & q & x & E & _ & Hx & Hk).
  simpl in E. subst p.
  unfold settings_get, Data_load. cbn [config saved].
  split; [by rewrite lookup_insert_eq|].
  intros k Hne. rewrite lookup_insert_ne, getSetting_assign by done. f_equal.
  destruct (getSetting (config st) k) as [p'|] eqn:Ek; [|done].
  cbn [mbind option_bind]. apply value_at_assign_ne.
  intros <-.
  pose proof (getSetting_from _ _ _ _ Ek) as (j' & q' & x' & E' & _ & Hx' & Hk').
  simpl in E'. injection E' as <- <-. congruence.
Qed.

Lemma getSetting_same_skeleton c c' key :
  map skeleton c = map skeleton c' -> getSetting c key = getSetting c' key.
Proof.
  intros H. by rewrite <- (getSetting_skeleton c), H, getSetting_skeleton.
Qed.

Lemma settings_set_cases st key v :
  match settings_set su st key v with
  | Ok st' => is_Some (getSetting (config st) key)
              /\ map skeleton (config st') = map skeleton (config st)
  | Raised st' => getSetting (config st) key = None
  end.
Proof.
  unfold settings_set. cbn [Data_save config saved].
  destruct (getSetting (config st) key) as [p|]; [|done].
  cbn [config]. split; [by eexists | apply assign_skeleton].
Qed.

Lemma initEntry_group p a b g st :
  initEntry su p (Entry a b (Some g)) st = initEach su p 0 g st.
Proof.
  assert (H : forall i st,
            (fix each (i : nat) (xs : list entry) (st0 : store) : sresult :=
               match xs with
               | [] => Ok st0
               | x :: r =>
                   match initEntry su (p ++ [i]) x st0 with
                   | Ok st' => each (S i) r st'
                   | Raised st' => Raised st'
                   end
               end) i g st = initEach su p i g st).
  { induction g as [|x r IH]; intros i st0; [done|].
    cbn [initEach]. destruct (initEntry su (p ++ [i]) x st0); [apply IH | done]. }
  destruct a; apply H.
Qed.

Lemma initEach_cases p xs :
  Forall (fun s => forall p st,
            match initEntry su p s st with
            | Ok st' =>
                map skeleton (config st') = map skeleton (config st)
                /\ forall k, k ∈ assigned s -> is_Some (getSetting (config st) k)
            | Raised st' =>
                exists k, k ∈ assigned s /\ getSetting (config st) k = None
            end) xs ->
  forall i st,
    match initEach su p i xs st with
    | Ok st' =>
        map skeleton (config st') = map skeleton (config st)
        /\ forall k, k ∈ flat_map assigned xs ->
             is_Some (getSetting (config st) k)
    | Raised st' =>
        exists k, k ∈ flat_map assigned xs /\ getSetting (config st) k = None
    end.
Proof.
  induction 1 as [|x r Hx _ IH]; intros i st; cbn [initEach flat_map].
  - split; [done|]. intros k Hk. by inversion Hk.
  - specialize (Hx (p ++ [i]) st).
    destruct (initEntry su (p ++ [i]) x st) as [st1|st1].
    + destruct Hx as [Hs Hx]. specialize (IH (S i) st1).
      destruct (initEach su p (S i) r st1) as [st2|st2].
      * destruct IH as [Hs2 IH]. split; [congruence|].
        intros k [Hk|Hk]%elem_of_app; [by apply Hx|].
        rewrite <- (getSetting_same_skeleton _ _ k Hs). by apply IH.
      * destruct IH as (k & Hk & Hn). exists k. split.
        { apply elem_of_app. by right. }
        { by rewrite <- (getSetting_same_skeleton _ _ k Hs). }
    + destruct Hx as (k & Hk & Hn). exists k. split; [|done].
      apply elem_of_app. by left.
Qed.

Lemma initEntry_cases s : forall p st,
  match initEntry su p s st with
  | Ok st' =>
      map skeleton (config st') = map skeleton (config st)
      /\ forall k, k ∈ assigned s -> is_Some (getSetting (config st) k)
  | Raised st' =>
      exists k, k ∈ assigned s /\ getSetting (config st) k = None
  end.
Proof.
  induction s as [a b|a b g IH] using entry_induction; intros p st.
  - destruct a as [key|]; cbn [initEntry assigned].
    + case_bool_decide.
      * pose proof (settings_set_cases st key
          (Data_load st key ?? (entry_at (config st) p ≫= s_value))) as H'.
        destruct (settings_set su st key _) as [st'|st'].
        { destruct H' as [Hf Hs]. split; [done|].
          by intros k ->%list_elem_of_singleton. }
        { exists key. split; [left | done]. }
      * split; [done|]. intros k Hk. by inversion Hk.
    + split; [done|]. intros k Hk. by inversion Hk.
  - rewrite initEntry_group.
    assert (E : assigned (Entry a b (Some g)) = flat_map assigned g)
      by (by destruct a).
    rewrite E. by apply initEach_cases.
Qed.

(** X17.  [initSettings()] returns exactly when [getSetting] finds every
    id it assigns: entries outside groups with a non-empty id, at any depth.
    Since [getSetting] looks no deeper than the groups of the configuration
    itself, an id that occurs only deeper makes it raise. *)
Theorem initSettings_returns_iff st :
  (exists st', initSettings su st = Ok st')
  <-> forall k, k ∈ flat_map assigned (config st) ->
        is_Some (getSetting (config st) k).
Proof.
  unfold initSettings.
  pose proof (initEach_cases [] (config st)) as H.
  specialize (H (proj2 (Forall_forall _ _) (fun s _ => initEntry_cases s)) 0 st).
  destruct (initEach su [] 0 (config st) st) as [st'|st'].
  - split; [intros _; apply H | by eexists].
  - destruct H as (k & Hk & Hn). split; [by intros [? ?]|].
    intros H. destruct (H k Hk) as [? ?]. congruence.
Qed.

Lemma getSetting_config_with a b :
  getSetting (config_with a b) "blockInPicker" = Some [0]
  /\ getSetting (config_with a b) "caseSensitive" = Some [1].
Proof. by destruct a, b; vm_compute. Qed.

Lemma settings_set_config_with a b data key v :
  key = "blockInPicker" \/ key = "caseSensitive" ->
  settings_set su (Store (config_with a b) data) key (Some v)
  = Ok (Store (if bool_decide (key = "blockInPicker") then config_with v b
               else config_with a v)
              (<[key := v]> data)).
Proof.
  destruct (getSetting_config_with a b) as [H0 H1].
  unfold settings_set. cbn [Data_save config saved].
  intros [-> | ->]; [rewrite H0 | rewrite H1]; reflexivity.
Qed.

Lemma settings_get_config_with a b data :
  settings_get (Store (config_with a b) data) "blockInPicker"
  = Some (default a (data !! "blockInPicker"))
  /\ settings_get (Store (config_with a b) data) "caseSensitive"
     = Some (default b (data !! "caseSensitive")).
Proof.
  destruct (getSetting_config_with a b) as [H0 H1].
  unfold settings_get, Data_load. cbn [config saved]. rewrite H0, H1.
  split; by destruct (data !! _).
Qed.

Lemma initial_value_config_with a b data :
  Data_load (Store (config_with a b) data) "blockInPicker"
  ?? (entry_at (config_with a b) [0] ≫= s_value)
  = Some (default a (data !! "blockInPicker"))
  /\ Data_load (Store (config_with a b) data) "caseSensitive"
     ?? (entry_at (config_with a b) [1] ≫= s_value)
     = Some (default b (data !! "caseSensitive")).
Proof. unfold Data_load. cbn. split; by destruct (data !! _). Qed.

Lemma initSettings_config_with a b data :
  initSettings su (Store (config_with a b) data)
  = Ok (Store (config_with (default a (data !! "blockInPicker"))
                           (default b (data !! "caseSensitive")))
              (<["caseSensitive" := default b (data !! "caseSensitive")]>
                 (<["blockInPicker" := default a (data !! "blockInPicker")]>
                    data))).
Proof.
  unfold initSettings. cbn [config config_with initEach initEntry app].
  rewrite !bool_decide_eq_true_2 by done.
  destruct (initial_value_config_with a b data) as [-> _].
  rewrite settings_set_config_with by auto.
  rewrite bool_decide_eq_true_2 by done. cbn [config].
  destruct (initial_value_config_with (default a (data !! "blockInPicker")) b
              (<["blockInPicker" := default a (data !! "blockInPicker")]> data))
    as [_ ->].
  rewrite settings_set_config_with by auto.
  rewrite bool_decide_eq_false_2 by done.
  by rewrite lookup_insert_ne.
Qed.

(** X18.  With the configuration of the file, whatever the two switches
    currently hold and whatever is saved, [initSettings()] returns and
    changes no setting as the plugin reads it; afterwards both switches are
    saved with the values they read as, and the entries of the configuration
    hold the same values. *)
Theorem initSettings_keeps_effective_settings a b data :
  exists st',
    initSettings su (Store (config_with a b) data) = Ok st'
    /\ settings_of st' = settings_of (Store (config_with a b) data)
    /\ config st'
       = config_with (blockInPicker (settings_of st'))
                     (caseSensitive (settings_of st'))
    /\ saved st' !! "blockInPicker" = Some (blockInPicker (settings_of st'))
    /\ saved st' !! "caseSensitive" = Some (caseSensitive (settings_of st')).
Proof.
  eexists. split; [apply initSettings_config_with|].
  unfold settings_of.
  destruct (settings_get_config_with a b data) as [-> ->].
  destruct (settings_get_config_with
              (default a (data !! "blockInPicker"))
              (default b (data !! "caseSensitive"))
              (<["caseSensitive" := default b (data !! "caseSensitive")]>
                 (<["blockInPicker" := default a (data !! "blockInPicker")]>
                    data))) as [-> ->].
  cbn [default blockInPicker caseSensitive config saved].
  rewrite lookup_insert_eq, lookup_insert_ne, lookup_insert_eq by done.
  cbn [default]. done.
Qed.

Lemma settings_of_initSettings a b data :
  settings_of
    (Store (config_with (default a (data !! "blockInPicker"))
                        (default b (data !! "caseSensitive")))
           (<["caseSensitive" := default b (data !! "caseSensitive")]>
              (<["blockInPicker" := default a (data !! "blockInPicker")]>
                 data)))
  = settings_of (Store (config_with a b) data).
Proof.
  unfold settings_of.
  destruct (settings_get_config_with a b data) as [-> ->].
  destruct (settings_get_config_with
              (default a (data !! "blockInPicker"))
              (default b (data !! "caseSensitive"))
              (<["caseSensitive" := default b (data !! "caseSensitive")]>
                 (<["blockInPicker" := default a (data !! "blockInPicker")]>
                    data))) as [-> ->].
  rewrite lookup_insert_eq, lookup_insert_ne, lookup_insert_eq by done. done.
Qed.

(** X2.  [start()] with the configuration of the file, on a well-formed
    document that has a body, holds no SVG link (no [href] that is an object
    instead of a string) and whose root is no wrapper, completes whatever is
    saved: [initSettings()] returns, the first scan returns and runs under
    the settings as they read before the call, the style sheet is installed
    and the observer is connected. *)
Theorem start_completes this a b data d :
  wf d -> matches sel_wrapper (get d (root (shape d))) = false ->
  string_hrefs d -> is_Some (document_body d) ->
  exists st' d',
    start_all su this (Store (config_with a b) data) d
    = (st', Plugin (settings_of (Store (config_with a b) data)) true true,
       Returned d')
    /\ scan_body (with_settings this (Store (config_with a b) data)) d
       = Returned d'.
Proof.
  intros Hwf Hroot Hd Hbody. unfold start_all.
  rewrite initSettings_config_with. unfold with_settings.
  rewrite settings_of_initSettings.
  destruct (start_returns
              (Plugin (settings_of (Store (config_with a b) data))
                      (observer this) (styled this)) d Hwf Hroot Hd Hbody)
    as (d' & E & Es).
  eexists _, d'. by rewrite E.
Qed.

(** X19.  Changing one of the two switches in the settings panel saves
    the new value and rescans the document under it, the other switch
    reading as before. *)
Theorem onChange_rescans_with_new_value this a b data d v :
  onChange su this (Store (config_with a b) data) d "blockInPicker" (Some v)
  = (Store (config_with v b) (<["blockInPicker" := v]> data),
     Plugin (Settings v (default b (data !! "caseSensitive")))
            (observer this) (styled this),
     rescan (Plugin (Settings v (default b (data !! "caseSensitive")))
                    (observer this) (styled this)) d)
  /\ onChange su this (Store (config_with a b) data) d "caseSensitive" (Some v)
     = (Store (config_with a v) (<["caseSensitive" := v]> data),
        Plugin (Settings (default a (data !! "blockInPicker")) v)
               (observer this) (styled this),
        rescan (Plugin (Settings (default a (data !! "blockInPicker")) v)
                       (observer this) (styled this)) d).
Proof.
  unfold onChange. rewrite !settings_set_config_with by auto.
  rewrite bool_decide_eq_true_2, bool_decide_eq_false_2 by done.
  unfold with_settings, settings_of.
  destruct (settings_get_config_with v b (<["blockInPicker" := v]> data))
    as [-> ->].
  destruct (settings_get_config_with a v (<["caseSensitive" := v]> data))
    as [-> ->].
  rewrite !lookup_insert_eq, !lookup_insert_ne by done. done.
Qed.

End SettingsFacts.

(** ** Letter case *)

Section LetterCase.

Lemma toLowerCase_app a b :
  Js.toLowerCase (a +:+ b) = Js.toLowerCase a +:+ Js.toLowerCase b.
Proof. induction a as [|c a IH]; simpl; [done | by rewrite IH]. Qed.

Lemma substring_toLowerCase p s :
  substring_of p s -> substring_of (Js.toLowerCase p) (Js.toLowerCase s).
Proof.
  intros (pre & post & ->).
  exists (Js.toLowerCase pre), (Js.toLowerCase post).
  by rewrite !toLowerCase_app.
Qed.

(** X20.  Case-sensitive matching blocks no more than case-insensitive
    matching: a URL that is blocked with the switch on is blocked with the
    switch off. *)
Theorem case_sensitive_matching_blocks_less this this' url :
  caseSensitive (cfg this) = true ->
  caseSensitive (cfg this') = false ->
  isBlocked this url = true -> isBlocked this' url = true.
Proof.
  unfold isBlocked. intros -> ->. destruct (negb (Js.truthy url)); [done|].
  cbn zeta. rewrite !some_spec. intros (w & Hw & Hin). exists w.
  split; [done|]. apply includes_spec, substring_toLowerCase.
  by apply includes_spec.
Qed.

(** X21.  With case-insensitive matching the verdict on a URL depends on
    the URL only up to letter case: two URLs with the same lower-case form
    are both GIF URLs or neither, and both blocked or neither. *)
Theorem classification_ignores_case this u u' :
  caseSensitive (cfg this) = false ->
  Js.toLowerCase u = Js.toLowerCase u' ->
  isGifUrl this (Some u) = isGifUrl this (Some u')
  /\ isBlocked this (Some u) = isBlocked this (Some u').
Proof.
  intros Hc E. unfold isGifUrl, isBlocked. rewrite Hc.
  change (default "" (Some u)) with u. change (default "" (Some u')) with u'.
  assert (Ht : Js.truthy (Some u) = Js.truthy (Some u'))
    by (by destruct u, u').
  by rewrite Ht, E.
Qed.

End LetterCase.

(** ** A further GIF of an owner that has its placeholder *)

Section Dedup.

Variable this : plugin.

(** X22.  A blocked GIF whose owner already carries the owner marker is
    marked as processed and hidden - in the picker the element itself,
    elsewhere its wrapper - and nothing is added to the tree. *)
Theorem further_gif_of_owner_is_hidden_without_placeholder d el o :
  wf d -> el ∈ names (shape d) ->
  skips this d el = false ->
  getOwnerNode this d el (isInGifPicker this d el) = Some o ->
  Js.truthy (btgOwnerDone (data (get d o))) = true ->
  exists d',
    processElement this d el = Returned d'
    /\ shape d' = shape d /\ next d' = next d
    /\ btgDone (data (get d' el)) = Some "1"
    /\ display (css (get d' (wrapper_of d el (isInGifPicker this d el))))
       = "none".
Proof.
  intros Hwf Hel Hskip Ho Hmark.
  rewrite processElement_unfold, (skips_raises this d el Hskip), Hskip.
  unfold dedup_or_embed.
  set (d1 := modify el (set_btgDone (Some "1")) d).
  assert (Hev : evolves d d1) by (apply evolves_modify; [done | by intros e]).
  destruct Hev as [Hwf1 Hlater].
  pose proof (wf_below d el Hwf Hel) as Hlt.
  rewrite (getOwnerNode_later d d1 Hwf Hlater el Hel Hlt), Ho.
  cbn [mbind option_bind].
  assert (Hm : Js.truthy (btgOwnerDone (data (get d1 o))) = true).
  { subst d1. by rewrite (proj_modify (fun e => btgOwnerDone (data e))). }
  rewrite Hm. unfold wrapper_of.
  rewrite <- (closest_later d d1 Hwf Hlater el Hel Hlt sel_wrapper) by done.
  assert (Hd : forall w f,
            (forall e, btgDone (data (f e)) = btgDone (data e)) ->
            btgDone (data (get (modify w f d1) el)) = Some "1").
  { intros w f Hf. rewrite (proj_modify (fun e => btgDone (data e))) by done.
    subst d1. by rewrite get_modify_eq. }
  destruct (isInGifPicker this d el); eexists; (split; [done|]);
    (split; [done|]); (split; [done|]);
    (split; [by apply Hd | by rewrite get_modify_eq]).
Qed.

End Dedup.

(** ** What a scan hides *)

Section Hiding.

Variable this : plugin.

Lemma closest_modify i f d sel x :
  static sel = true -> (forall e, at_ (f e) = at_ e) ->
  closest (modify i f d) sel x = closest d sel x.
Proof.
  intros Hs Hf. unfold closest. cbn [modify shape]. apply find_ext_in.
  intros y _. apply matches_static; [done|]. by apply (proj_modify at_).
Qed.

Lemma getOwnerNode_modify i f d x pk :
  (forall e, at_ (f e) = at_ e) ->
  getOwnerNode this (modify i f d) x pk = getOwnerNode this d x pk.
Proof.
  intros Hf. unfold getOwnerNode. by rewrite !closest_modify.
Qed.

(** What [processElement] does to the marker and the display of the
    elements of the document, once it is past its guards. *)
Lemma dedup_or_embed_effect d x pk d1 :
  dedup_or_embed this d x pk = Returned d1 ->
  forall y, y < next d ->
    btgDone (data (get d1 y)) = btgDone (data (get d y))
    /\ display (css (get d1 y))
       = if decide (wrapper_of d x pk = y) then "none" else display (css (get d y)).
Proof.
  unfold dedup_or_embed. destruct (Js.truthy _).
  - unfold wrapper_of. destruct pk; intros [= <-] y _;
      rewrite (proj_modify (fun e => btgDone (data e))) by done;
      (split; [done|]); rewrite get_modify; by case_decide.
  - set (o := getOwnerNode this d x pk).
    set (d0 := match o with
               | Some o' => modify o' (set_btgOwnerDone (Some "1")) d
               | None => d
               end).
    assert (H0 : forall y,
              btgDone (data (get d0 y)) = btgDone (data (get d y))
              /\ display (css (get d0 y)) = display (css (get d y))).
    { intros y. subst d0. destruct o; [|done].
      by rewrite (proj_modify (fun e => btgDone (data e))),
                 (proj_modify (fun e => display (css e))). }
    assert (Hw : wrapper_of d0 x pk = wrapper_of d x pk).
    { unfold wrapper_of. destruct pk; [done|]. subst d0.
      destruct o; [|done]. by rewrite closest_modify. }
    assert (Hn : next d0 = next d) by (subst d0; by destruct o).
    clearbody d0.
    destruct (hideAndEmbed_eq this d0 x pk o) as (w & t & d2 & -> & Ew & _ & E2).
    assert (Ew' : w = wrapper_of d0 x pk) by (by rewrite Ew).
    assert (H2 : next d2 = next d0
                 /\ forall y,
                      btgDone (data (get d2 y)) = btgDone (data (get d0 y))
                      /\ display (css (get d2 y))
                         = if decide (w = y) then "none"
                           else display (css (get d0 y))).
    { subst d2. split; [by destruct pk, o|]. intros y.
      destruct pk, o;
        rewrite ?(proj_modify (fun e => btgDone (data e))) by done;
        rewrite ?(proj_modify (fun e => display (css e))
                    _ (set_pointerEvents "none")) by done;
        rewrite ?(proj_modify (fun e => display (css e))
                    _ (set_btgClickBlocked (Some "1"))) by done;
        (split; [done|]); rewrite get_modify; by case_decide. }
    destruct H2 as [Hn2 H2]. intros Hrun y Hy.
    assert (Eg : get d1 y = get d2 y).
    { pose proof (get_appendChild t (embed_elem w o pk (next d2)) d2 y) as G.
      rewrite Hrun in G. cbn [state_of] in G. rewrite G.
      case_decide; [lia | done]. }
    rewrite Eg. destruct (H2 y) as [-> ->], (H0 y) as [-> ->].
    by rewrite Ew', Hw.
Qed.

Lemma processElement_effect d x d1 :
  processElement this d x = Returned d1 ->
  (forall y, y < next d -> y <> x ->
     btgDone (data (get d1 y)) = btgDone (data (get d y)))
  /\ (forall y, y < next d -> btgDone (data (get d y)) = Some "1" ->
        btgDone (data (get d1 y)) = Some "1")
  /\ (forall y, y < next d -> display (css (get d y)) = "none" ->
        display (css (get d1 y)) = "none")
  /\ (skips this d x = false -> x < next d ->
      wrapper_of d x (isInGifPicker this d x) < next d ->
      btgDone (data (get d1 x)) = Some "1"
      /\ display (css (get d1 (wrapper_of d x (isInGifPicker this d x))))
         = "none").
Proof.
  rewrite processElement_unfold.
  destruct (raises this d x) eqn:Hr; [done|].
  destruct (skips this d x) eqn:Hs.
  - intros [= <-]. by repeat split.
  - intros Hrun.
    pose proof (dedup_or_embed_effect _ _ _ _ Hrun) as H.
    cbn [modify next] in H.
    assert (Hw : wrapper_of (modify x (set_btgDone (Some "1")) d) x
                            (isInGifPicker this d x)
                 = wrapper_of d x (isInGifPicker this d x)).
    { unfold wrapper_of. destruct (isInGifPicker this d x); [done|].
      by rewrite closest_modify. }
    rewrite Hw in H. split; [|split; [|split]].
    + intros y Hy Hne. destruct (H y Hy) as [-> _]. by rewrite get_modify_ne.
    + intros y Hy Hd. destruct (H y Hy) as [-> _].
      rewrite get_modify. by case_decide.
    + intros y Hy Hd. destruct (H y Hy) as [_ ->].
      case_decide; [done|].
      by rewrite (proj_modify (fun e => display (css e))).
    + intros _ Hx Hwx. split.
      * destruct (H x Hx) as [-> _]. by rewrite get_modify_eq.
      * destruct (H _ Hwx) as [_ ->]. by rewrite decide_True.
Qed.

Lemma forEach_persists l : forall d d',
  wf d -> forEach (processElement this) l d = Returned d' ->
  forall y, y < next d ->
    (btgDone (data (get d y)) = Some "1" -> btgDone (data (get d' y)) = Some "1")
    /\ (display (css (get d y)) = "none" -> display (css (get d' y)) = "none").
Proof.
  induction l as [|x r IH]; intros d d' Hwf; cbn [forEach].
  - by intros [= <-].
  - destruct (processElement this d x) as [d1|d1] eqn:E; [|done]. intros Hr y Hy.
    pose proof (processElement_succ this d x Hwf) as [Hwf1 (Hn & _)].
    rewrite E in Hwf1, Hn. cbn [state_of] in *.
    destruct (processElement_effect d x d1 E) as (_ & P2 & P3 & _).
    destruct (IH d1 d' Hwf1 Hr y) as [I1 I2]; [lia|]. split; auto.
Qed.

Lemma wrapper_of_below d x pk :
  wf d -> x ∈ names (shape d) -> wrapper_of d x pk < next d.
Proof.
  intros Hwf Hx. apply wf_below; [done|]. unfold wrapper_of.
  destruct pk; [done|].
  destruct (closest d sel_wrapper x) as [w|] eqn:E; [|done]. simpl.
  apply closest_in_chain in E. by eapply chain_in_names.
Qed.

Lemma forEach_hides l : forall d d',
  wf d -> NoDup l -> (forall el, el ∈ l -> el ∈ names (shape d)) ->
  forEach (processElement this) l d = Returned d' ->
  forall el, el ∈ l -> skips this d el = false ->
    btgDone (data (get d' el)) = Some "1"
    /\ display (css (get d' (wrapper_of d el (isInGifPicker this d el))))
       = "none".
Proof.
  induction l as [|x r IH]; intros d d' Hwf Hnd Hl; cbn [forEach].
  - intros _ el Hel. by inversion Hel.
  - apply NoDup_cons in Hnd as [Hx Hnd].
    destruct (processElement this d x) as [d1|d1] eqn:E; [|done]. intros Hr.
    pose proof (processElement_succ this d x Hwf) as [Hwf1 Hlater].
    rewrite E in Hwf1, Hlater. cbn [state_of] in *.
    pose proof Hlater as (Hn & _).
    assert (Hk : forall y, y ∈ names (shape d) -> y ∈ names (shape d1)).
    { intros y Hy. pose proof (processElement_keeps this d x y Hy) as K.
      by rewrite E in K. }
    destruct (processElement_effect d x d1 E) as (P1 & _ & _ & P4).
    intros el [->|Hel]%elem_of_cons Hs.
    + assert (Hxn : x ∈ names (shape d)) by (apply Hl; left).
      pose proof (wf_below d x Hwf Hxn) as Hlt.
      pose proof (wrapper_of_below d x (isInGifPicker this d x) Hwf Hxn) as Hwlt.
      destruct (P4 Hs Hlt Hwlt) as [Q1 Q2].
      destruct (forEach_persists r d1 d' Hwf1 Hr x) as [R1 _]; [lia|].
      destruct (forEach_persists r d1 d' Hwf1 Hr
                  (wrapper_of d x (isInGifPicker this d x))) as [_ R2]; [lia|].
      auto.
    + assert (Heln : el ∈ names (shape d)) by (apply Hl; by right).
      pose proof (wf_below d el Hwf Heln) as Hlt.
      assert (Hne : el <> x) by (intros ->; done).
      assert (Hpk : isInGifPicker this d1 el = isInGifPicker this d el)
        by (by apply (isInGifPicker_later d d1 Hwf Hlater el (Hk el Heln) Hlt)).
      assert (Hs1 : skips this d1 el = false).
      { unfold skips in *.
        rewrite (urls_of_later d d1 Hwf Hlater el (Hk el Heln) Hlt), Hpk.
        by rewrite (P1 el Hlt Hne). }
      destruct (IH d1 d' Hwf1 Hnd) with (el := el) as [Q1 Q2]; try done.
      { intros y Hy. apply Hk, Hl. by right. }
      split; [done|]. rewrite Hpk in Q2.
      assert (Hw : wrapper_of d1 el (isInGifPicker this d el)
                   = wrapper_of d el (isInGifPicker this d el)).
      { unfold wrapper_of. destruct (isInGifPicker this d el); [done|].
        by rewrite (closest_later d d1 Hwf Hlater el (Hk el Heln) Hlt). }
      by rewrite <- Hw.
Qed.

Lemma set_add_NoDup (x : nat) l : NoDup l -> NoDup (set_add x l).
Proof.
  intros H. unfold set_add. case_bool_decide as Hx; [done|].
  apply NoDup_app. split; [done|]. split; [|apply NoDup_singleton].
  intros y Hy ->%list_elem_of_singleton. done.
Qed.

Lemma candidates_NoDup d c : NoDup (candidates d c).
Proof.
  unfold candidates.
  assert (H : forall l init : list nat, NoDup init ->
            NoDup (fold_left (fun acc el => set_add el acc) l init)).
  { induction l as [|y l IH]; intros init Hi; simpl; [done|].
    by apply IH, set_add_NoDup. }
  apply H. destruct (matches _ _); [|constructor].
  apply set_add_NoDup. constructor.
Qed.

Lemma processContainer_hides d c d' el :
  wf d -> c ∈ names (shape d) ->
  processContainer this d c = Returned d' ->
  isHTMLElement (at_ (get d c)) = true ->
  el ∈ candidates d c -> skips this d el = false ->
  btgDone (data (get d' el)) = Some "1"
  /\ display (css (get d' (wrapper_of d el (isInGifPicker this d el))))
     = "none".
Proof.
  intros Hwf Hc Hrun Hh. rewrite processContainer_eq, Hh in Hrun.
  cbn [negb] in Hrun. revert el.
  apply (forEach_hides (candidates d c) d d' Hwf); [apply candidates_NoDup| |done].
  intros el [[-> _]|[Hel _]]%candidates_elem; [done|].
  eapply descendants_in_names; [apply Hwf | exact Hel].
Qed.

(** X23.  A scan that returns has hidden every blocked GIF it was asked to
    look at: each candidate of the container that was not yet processed, has
    a GIF URL and a blocked URL among its URLs and is not exempt as part of
    the picker carries the processed marker afterwards, and what hides it -
    the element itself in the picker, its wrapper elsewhere - is not
    displayed. *)
Theorem scan_hides_every_blocked_gif d c d' el :
  wf d -> c ∈ names (shape d) ->
  processContainer this d c = Returned d' ->
  isHTMLElement (at_ (get d c)) = true ->
  el ∈ candidates d c -> skips this d el = false ->
  btgDone (data (get d' el)) = Some "1"
  /\ display (css (get d' (wrapper_of d el (isInGifPicker this d el))))
     = "none".
Proof. apply processContainer_hides. Qed.

End Hiding.

(** ** Rescan *)

Section Rescan.

Variable this : plugin.

Lemma fold_next (h : dom -> nat -> dom) l :
  (forall d el, next (h d el) = next d) ->
  forall d, next (fold_left h l d) = next d.
Proof.
  intros Hh. induction l as [|x l IH]; intros d; simpl; [done|].
  by rewrite IH, Hh.
Qed.

Lemma clearAll_next d : next (clearAll d) = next d.
Proof.
  destruct (clearAll_eq d) as (dA & dB & dC & EA & EB & EC & ->).
  rewrite fold_next by done. subst dC. rewrite fold_next by done.
  subst dB. rewrite fold_next.
  - subst dA. by rewrite fold_next.
  - intros d0 el. unfold unmark. by destruct (closest _ _ _).
Qed.

Lemma wf_clearAll d : wf d -> wf (clearAll d).
Proof.
  intros Hwf.
  pose proof (fold_remove_safe (document_querySelectorAll d [HasData KEmbed])
                d Hwf) as ([H1 H2] & _).
  unfold wf. rewrite clearAll_shape, clearAll_next. split; [done|].
  by rewrite fold_next in H2.
Qed.

(** X24.  A rescan hides again what a reveal had shown: since the clearing
    phase takes every processed marker away, each candidate below the body
    with a GIF URL and a blocked URL that is not exempt as part of the picker
    is processed afresh and hidden, whatever happened to it before. *)
Theorem rescan_hides_every_blocked_gif d b d' el :
  wf d ->
  document_body (clearAll d) = Some b ->
  isHTMLElement (at_ (get (clearAll d) b)) = true ->
  rescan this d = Returned d' ->
  el ∈ candidates (clearAll d) b ->
  some_raising (isGifUrl_of this) (urls_of (clearAll d) el) = Some true ->
  some_raising (isBlocked_of this) (urls_of (clearAll d) el) = Some true ->
  isInGifPicker this (clearAll d) el && negb (blockInPicker (cfg this)) = false ->
  btgDone (data (get d' el)) = Some "1"
  /\ display (css (get d' (wrapper_of (clearAll d) el
                             (isInGifPicker this (clearAll d) el)))) = "none".
Proof.
  intros Hwf Hb Hh Hrun Hel Hgif Hblocked Hpk.
  pose proof (wf_clearAll d Hwf) as Hwf'.
  destruct (document_body_child (clearAll d) b Hwf' Hb) as [Hbn _].
  unfold rescan, scan_body in Hrun. rewrite Hb in Hrun.
  assert (Heln : el ∈ names (shape (clearAll d))).
  { apply candidates_elem in Hel as [[-> _]|[Hd _]]; [done|].
    eapply descendants_in_names; [apply Hwf' | exact Hd]. }
  assert (Hdone : btgDone (data (get (clearAll d) el)) = None).
  { destruct (qsa_data_elem (clearAll d) KDone el Heln) as [Hq|Hq]; [|done].
    rewrite clearAll_unmarks in Hq. by inversion Hq. }
  assert (Hs : skips this (clearAll d) el = false).
  { unfold skips. by rewrite Hdone, Hgif, Hblocked, Hpk. }
  by apply (processContainer_hides this (clearAll d) b d' el).
Qed.

End Rescan.

(** ** When unloading shows the wrapper again *)

Section Restoring.

Variable this : plugin.

Lemma closest_unmark d e sel x :
  static sel = true -> closest (unmark d e) sel x = closest d sel x.
Proof.
  intros Hs. unfold unmark.
  destruct (closest (modify e _ (modify e _ d)) sel_wrapper_clear e);
    by rewrite !closest_modify.
Qed.

Lemma unmark_display d e y :
  display (css (get (unmark d e) y)) = ""
  \/ display (css (get (unmark d e) y)) = display (css (get d y)).
Proof.
  unfold unmark. destruct (closest _ _ _) as [w|];
    rewrite !get_modify; repeat case_decide; auto.
Qed.

Lemma unmark_display_self d e : display (css (get (unmark d e) e)) = "".
Proof.
  unfold unmark. destruct (closest _ _ _) as [w|].
  - rewrite get_modify. case_decide; [done|].
    rewrite (proj_modify (fun e => display (css e))) by done.
    by rewrite get_modify_eq.
  - rewrite (proj_modify (fun e => display (css e))) by done.
    by rewrite get_modify_eq.
Qed.

Lemma unmark_display_wrapper d e w :
  closest d sel_wrapper_clear e = Some w ->
  display (css (get (unmark d e) w)) = "".
Proof.
  intros H. unfold unmark. rewrite !closest_modify, H by done.
  by rewrite get_modify_eq.
Qed.

Lemma fold_unmark_wrapper e w l : forall d,
  e ∈ l -> closest d sel_wrapper_clear e = Some w ->
  display (css (get (fold_left unmark l d) w)) = "".
Proof.
  induction l as [|x l IH]; intros d Hin Hc; [by inversion Hin|].
  cbn [fold_left]. destruct (decide (x = e)) as [->|Hne].
  - apply (reset_fold (fun e => display (css e)) "" unmark);
      [apply unmark_display_self | apply unmark_display |].
    right. by apply unmark_display_wrapper.
  - apply IH.
    + apply elem_of_cons in Hin as [?|?]; [congruence | done].
    + by rewrite closest_unmark.
Qed.

(** X25.  [stop()] shows a hidden wrapper again when the clearing phase
    finds the element that [hideAndEmbed] hid: for a processed element
    outside any placeholder whose nearest match of the selector list of the
    clearing phase is its nearest match of the list of [hideAndEmbed] - no
    element with [gifFavorite] in its class lies nearer - the wrapper is
    displayed after [stop()]. *)
Theorem stop_shows_wrapper_again d el :
  wf d -> el ∈ names (shape d) ->
  (forall a, a ∈ chain el (shape d) -> btgEmbed (data (get d a)) = None) ->
  is_Some (btgDone (data (get d el))) ->
  closest d sel_wrapper_clear el = closest d sel_wrapper el ->
  display (css (get (stop this d).2 (wrapper_of d el false))) = "".
Proof.
  intros Hwf Hel Hc [v Hv] Hsame. cbn [stop snd]. unfold wrapper_of.
  destruct (fold_remove_keeps el (document_querySelectorAll d [HasData KEmbed])
              d Hwf Hel) as [H1 H2].
  { intros k Hk Hin. specialize (Hc k Hin).
    unfold document_querySelectorAll in Hk.
    apply list_elem_of_filter in Hk as [Hm _].
    unfold matches in Hm. simpl in Hm. rewrite Hc in Hm. done. }
  destruct (clearAll_eq d) as (dA & dB & dC & EA & EB & EC & ->).
  rewrite <- EA in H1, H2.
  assert (Hq : el ∈ document_querySelectorAll dA [HasData KDone]).
  { destruct (qsa_data_elem dA KDone el H1) as [Hq|Hq]; [done|].
    cbn [read_data] in Hq. subst dA. rewrite fold_remove_get in Hq. congruence. }
  rewrite (fold_proj (fun e => display (css e)))
    by (intros; by rewrite !(proj_modify (fun e => display (css e)))).
  subst dC. rewrite (fold_proj (fun e => display (css e)))
    by (intros; by rewrite !(proj_modify (fun e => display (css e)))).
  subst dB.
  destruct (closest d sel_wrapper el) as [w|] eqn:Ew; cbn [default].
  - apply (fold_unmark_wrapper el); [done|].
    change (id w) with w. rewrite <- Hsame. unfold closest. rewrite H2.
    apply find_ext_in.
    intros y _. subst dA. by rewrite fold_remove_get.
  - apply (reset_fold (fun e => display (css e)) "" unmark);
      [apply unmark_display_self | apply unmark_display | by left].
Qed.

End Restoring.

(** ** The further properties on the sample documents *)

Section MoreEvaluations.

Import Sample More.

Local Ltac by_evaluation := apply (bool_decide_unpack _); by vm_compute.

Lemma chat_doc_wf : wf chat_doc.
Proof. split; by_evaluation. Qed.

Lemma picker_doc_wf : wf picker_doc.
Proof. split; by_evaluation. Qed.

Lemma favorite_scanned_wf : wf favorite_scanned.
Proof. split; by_evaluation. Qed.

Lemma two_gifs_first_wf : wf two_gifs_first.
Proof. split; by_evaluation. Qed.

Lemma chat_doc_strings : string_hrefs chat_doc.
Proof.
  intros x b Hx. revert x Hx. apply Forall_forall. by_evaluation.
Qed.

Lemma chat_embedded_eq :
  hideAndEmbed this chat_doc 4 false (Some 3) = Returned chat_embedded.
Proof. by vm_compute. Qed.

Lemma picker_embedded_eq :
  hideAndEmbed this picker_doc 4 true (Some 3) = Returned picker_embedded.
Proof. by vm_compute. Qed.

(** Witness of X1: the scan of the body of [chat_doc]. *)
Lemma scan_returns_witness :
  exists d', processContainer this chat_doc 1 = Returned d'.
Proof.
  apply (scan_of_attached_element_returns this chat_doc 1);
    [apply chat_doc_wf | by_evaluation | by vm_compute | by vm_compute
    | apply chat_doc_strings].
Defined.

(** Witness of X2: a first start on [chat_doc], nothing saved yet. *)
Lemma start_completes_witness :
  exists st' d',
    start_all keep_undefined this (Store (config_with true false) ∅) chat_doc
    = (st', Plugin (settings_of (Store (config_with true false) ∅)) true true,
       Returned d')
    /\ scan_body (with_settings this (Store (config_with true false) ∅)) chat_doc
       = Returned d'.
Proof.
  apply (start_completes keep_undefined this true false ∅ chat_doc);
    [apply chat_doc_wf | by vm_compute | apply chat_doc_strings
    | exists 1; by vm_compute].
Defined.

(** Witness of X3: the scan of the body of [chat_doc]. *)
Lemma scan_keeps_witness :
  wf (state_of (processContainer this chat_doc 1))
  /\ (forall x, x ∈ names (shape chat_doc) ->
        x ∈ names (shape (state_of (processContainer this chat_doc 1)))
        /\ at_ (get (state_of (processContainer this chat_doc 1)) x)
           = at_ (get chat_doc x)
        /\ chain x (shape (state_of (processContainer this chat_doc 1)))
           = chain x (shape chat_doc))
  /\ (forall x, x ∈ names (shape (state_of (processContainer this chat_doc 1))) ->
        x ∉ names (shape chat_doc) ->
        matches sel_candidate (get (state_of (processContainer this chat_doc 1)) x)
        = false).
Proof. apply (scan_keeps_host_document this chat_doc 1), chat_doc_wf. Defined.

(** Witness of X4: a GIF that is not blocked. *)
Lemma harmless_scan_witness : processContainer this cat_doc 1 = Returned cat_doc.
Proof.
  apply (scan_leaves_harmless_subtree this cat_doc 1).
  intros el Hel.
  assert (E : candidates cat_doc 1 = [4]) by (by vm_compute).
  rewrite E in Hel. apply list_elem_of_singleton in Hel as ->.
  right. split; by vm_compute.
Defined.

(** Witness of X5: the placeholder of the chat message. *)
Lemma placement_witness :
  exists t,
    insert_target chat_doc 4 false (Some 3) = Some t
    /\ parentElement chat_embedded (next chat_doc) = Some t
    /\ forall x, x ∈ names (shape chat_doc) ->
         parentElement chat_embedded x = parentElement chat_doc x.
Proof.
  apply (placeholder_is_child_of_insert_target this chat_doc 4 false (Some 3));
    [apply chat_doc_wf | | apply chat_embedded_eq].
  intros o [= <-]. by_evaluation.
Defined.

(** Witness of X6: the reveal of a picker tile. *)
Lemma reveal_undoes_witness :
  shape (click_toggle picker_embedded (next picker_doc)).1 = shape picker_doc
  /\ (click_toggle picker_embedded (next picker_doc)).2 = []
  /\ display (css (get (click_toggle picker_embedded (next picker_doc)).1
                       (wrapper_of picker_doc 4 true))) = ""
  /\ forall o, Some 3 = Some o ->
       btgOwnerDone
         (data (get (click_toggle picker_embedded (next picker_doc)).1 o)) = None
       /\ (true = true ->
           pointerEvents
             (css (get (click_toggle picker_embedded (next picker_doc)).1 o)) = ""
           /\ btgClickBlocked
                (data (get (click_toggle picker_embedded (next picker_doc)).1 o))
              = None).
Proof.
  apply (reveal_undoes_hideAndEmbed this picker_doc 4 true (Some 3));
    [apply picker_doc_wf | apply picker_embedded_eq].
Defined.

(** Witness of X7: the mouse moves over the placeholder of a picker tile. *)
Lemma hover_witness :
  dispatch "mousemove" (next picker_doc) picker_embedded = (picker_embedded, []).
Proof.
  apply (compact_placeholder_swallows_hover this picker_doc 4 (Some 3));
    [apply picker_embedded_eq | by_evaluation].
Defined.

(** Witness of X8: unloading twice after the scan of [favorite_doc]. *)
Lemma stop_twice_witness :
  stop (stop this favorite_scanned).1 (stop this favorite_scanned).2
  = stop this favorite_scanned.
Proof.
  apply (stop_is_idempotent this favorite_scanned);
    [apply favorite_scanned_wf | by vm_compute].
Defined.

(** Witness of X10: the image of [favorite_doc] after the scan. *)
Lemma stop_keeps_witness :
  5 ∈ names (shape (stop this favorite_scanned).2)
  /\ chain 5 (shape (stop this favorite_scanned).2)
     = chain 5 (shape favorite_scanned)
  /\ at_ (get (stop this favorite_scanned).2 5) = at_ (get favorite_scanned 5).
Proof.
  apply (stop_keeps_host_elements this favorite_scanned 5);
    [apply favorite_scanned_wf | by_evaluation |].
  apply Forall_forall. by_evaluation.
Defined.

(** Witness of X11: unloading at the end of the sample session. *)
Lemma stop_session_witness :
  pristine (stop (run (this, favorite_doc) session).1
                 (run (this, favorite_doc) session).2).2.
Proof.
  apply (stop_ends_every_placeholder this favorite_doc session).
  apply favorite_doc_pristine.
Defined.

(** Witness of X12: the image of a picker tile. *)
Lemma picker_inherited_witness : isInGifPicker this picker_doc 4 = true.
Proof.
  apply (picker_surface_is_inherited this picker_doc 2 4);
    [by_evaluation | by_evaluation | by vm_compute].
Defined.

(** Witness of X13: the scan of the picker with the switch off. *)
Lemma picker_alone_witness :
  processContainer picker_off picker_doc 2 = Returned picker_doc.
Proof.
  apply (scan_leaves_picker_alone_when_setting_off picker_off picker_doc 2);
    [by_evaluation | done | by vm_compute |].
  intros el Hel.
  assert (E : candidates picker_doc 2 = [4]) by (by vm_compute).
  rewrite E in Hel. apply list_elem_of_singleton in Hel as ->. by vm_compute.
Defined.

(** Witness of X16: case-sensitive matching is switched on. *)
Lemma set_then_get_witness :
  exists st',
    settings_set keep_undefined (Store config_settings ∅) "caseSensitive" (Some true) = Ok st'
    /\ settings_get st' "caseSensitive" = Some true
    /\ forall k, k <> "caseSensitive" ->
         settings_get st' k
         = settings_get (Store config_settings ∅) k.
Proof.
  apply (settings_set_then_get keep_undefined (Store config_settings ∅)
                               "caseSensitive" true).
  exists [1]. by vm_compute.
Defined.

(** Witness of X20: the sample GIF. *)
Lemma case_witness : isBlocked this (Some gif) = true.
Proof.
  apply (case_sensitive_matching_blocks_less case_on this (Some gif));
    by vm_compute.
Defined.

(** Witness of X21: a URL in capitals. *)
Lemma ignores_case_witness :
  isGifUrl this (Some "HTTPS://TENOR.COM/BENJAMMIN.GIF")
  = isGifUrl this (Some "https://tenor.com/benjammin.gif")
  /\ isBlocked this (Some "HTTPS://TENOR.COM/BENJAMMIN.GIF")
     = isBlocked this (Some "https://tenor.com/benjammin.gif").
Proof.
  apply (classification_ignores_case this); by vm_compute.
Defined.

(** Witness of X22: the second GIF of the wrapper, after the first. *)
Lemma further_gif_witness :
  exists d',
    processElement this two_gifs_first 5 = Returned d'
    /\ shape d' = shape two_gifs_first /\ next d' = next two_gifs_first
    /\ btgDone (data (get d' 5)) = Some "1"
    /\ display (css (get d' (wrapper_of two_gifs_first 5
                               (isInGifPicker this two_gifs_first 5))))
       = "none".
Proof.
  apply (further_gif_of_owner_is_hidden_without_placeholder
           this two_gifs_first 5 3);
    [apply two_gifs_first_wf | by_evaluation | by vm_compute | by vm_compute
    | by vm_compute].
Defined.

Lemma two_gifs_doc_wf : wf two_gifs_doc.
Proof. split; by_evaluation. Qed.

(** Witness of X23: the second GIF of the wrapper, in a scan of the body. *)
Lemma scan_hides_witness :
  btgDone (data (get two_gifs_scanned 5)) = Some "1"
  /\ display (css (get two_gifs_scanned
                       (wrapper_of two_gifs_doc 5
                          (isInGifPicker this two_gifs_doc 5)))) = "none".
Proof.
  apply (scan_hides_every_blocked_gif this two_gifs_doc 1 two_gifs_scanned 5);
    [apply two_gifs_doc_wf | by_evaluation | by vm_compute | by vm_compute
    | by_evaluation | by vm_compute].
Defined.

Lemma chat_revealed_wf : wf chat_revealed.
Proof. split; by_evaluation. Qed.

(** Witness of X24: the image of [chat_doc], revealed and then rescanned. *)
Lemma rescan_hides_witness :
  btgDone (data (get chat_rescanned 4)) = Some "1"
  /\ display (css (get chat_rescanned
                       (wrapper_of (clearAll chat_revealed) 4
                          (isInGifPicker this (clearAll chat_revealed) 4))))
     = "none".
Proof.
  apply (rescan_hides_every_blocked_gif this chat_revealed 1 chat_rescanned 4);
    [apply chat_revealed_wf | by vm_compute | by vm_compute | by vm_compute
    | by_evaluation | by vm_compute | by vm_compute | by vm_compute].
Defined.

Lemma chat_scanned_wf : wf chat_scanned.
Proof. split; by_evaluation. Qed.

(** Witness of X25: the image wrapper of [chat_doc] after a scan. *)
Lemma stop_shows_witness :
  display (css (get (stop this chat_scanned).2 (wrapper_of chat_scanned 4 false)))
  = "".
Proof.
  apply (stop_shows_wrapper_again this chat_scanned 4);
    [apply chat_scanned_wf | by_evaluation | | by vm_compute; eexists
    | by vm_compute].
  apply Forall_forall. by_evaluation.
Defined.

End MoreEvaluations.
